(** * rconfig: layered configuration resolution

    A shallow embedding of the resolution engine of package [rconfig]
    (flag > environment > named default set > static default), of its
    type coercion and of the YAML key flattener, with the properties of
    the specification stated over that embedding. *)

From Stdlib Require Import ZArith Strings.String Strings.Ascii List Bool Lia DecimalString.
From stdpp Require Import base option list gmap strings.

Local Open Scope Z_scope.
Local Open Scope string_scope.

(** ** Errors

    Go's [error] values, by the place that builds them. *)

Inductive NumErr := ErrSyntax | ErrRange.

Inductive error :=
| NumError (Func Num : string) (Err : NumErr)  (* *strconv.NumError *)
| ErrorString (msg : string)                   (* errors.New, fmt.Errorf with %s *)
| WrapError (msg : string) (inner : error)     (* fmt.Errorf("msg: %w", err) *)
| TimeFormatMismatch (value : string)          (* "value %q did not match expected time formats" *)
| LibError (origin detail : string)            (* an error built by a collaborator *)
| Panic (msg : string).                        (* a run-time panic of a collaborator *)

Abbreviation result A := (sum error A).
Abbreviation Ok := inr.
Abbreviation Err := inl.

Definition is_err {A} (r : result A) : bool :=
  match r with Err _ => true | Ok _ => false end.

(** ** Package [strings] *)

Module strings.

Definition is_upper (c : ascii) : bool :=
  let n := nat_of_ascii c in ((65 <=? n) && (n <=? 90))%nat.

Definition lower_byte (c : ascii) : ascii :=
  if is_upper c then ascii_of_nat (nat_of_ascii c + 32) else c.

(** [strings.ToLower] on the bytes of the string: exact on ASCII text
    (Go also maps letters outside ASCII). *)
Fixpoint ToLower (s : string) : string :=
  match s with
  | EmptyString => EmptyString
  | String c t => String (lower_byte c) (ToLower t)
  end.

(** ASCII white space as [unicode.IsSpace] sees it. *)
Definition is_space (c : ascii) : bool :=
  let n := nat_of_ascii c in
  ((n =? 32) || ((9 <=? n) && (n <=? 13)))%nat.

Fixpoint TrimLeft (s : string) : string :=
  match s with
  | String c t => if is_space c then TrimLeft t else s
  | EmptyString => EmptyString
  end.

(** Drops the white space at the end: the result of the tail is kept
    unless it is empty and the head is a space. *)
Fixpoint TrimRight (s : string) : string :=
  match s with
  | EmptyString => EmptyString
  | String c t =>
      match TrimRight t with
      | EmptyString => if is_space c then EmptyString else String c EmptyString
      | r => String c r
      end
  end.

Definition TrimSpace (s : string) : string := TrimRight (TrimLeft s).

(** [strings.Index] for a non-empty separator: the first position at
    which [sep] occurs. *)
Fixpoint Index (s sep : string) : option nat :=
  if String.prefix sep s then Some 0%nat
  else match s with
       | EmptyString => None
       | String _ t => S <$> Index t sep
       end.

Fixpoint drop (n : nat) (s : string) : string :=
  match n, s with
  | O, _ => s
  | S n', String _ t => drop n' t
  | S _, EmptyString => EmptyString
  end.

Fixpoint take (n : nat) (s : string) : string :=
  match n, s with
  | O, _ => EmptyString
  | S n', String c t => String c (take n' t)
  | S _, EmptyString => EmptyString
  end.

(** The loop of [genSplit]: cut at the next occurrence of [sep] until
    there is none.  Each round consumes at least one byte, so the
    length of the input bounds the number of rounds. *)
Fixpoint genSplit (rounds : nat) (s sep : string) : list string :=
  match rounds with
  | O => [s]
  | S r =>
      match Index s sep with
      | None => [s]
      | Some m => take m s :: genSplit r (drop (m + String.length sep) s) sep
      end
  end.

Fixpoint explode (s : string) : list string :=
  match s with
  | EmptyString => []
  | String c t => String c EmptyString :: explode t
  end.

(** [strings.Split(s, sep)].  With an empty separator Go splits after
    each UTF-8 sequence; the model splits after each byte there. *)
Definition Split (s sep : string) : list string :=
  match sep with
  | EmptyString => explode s
  | _ => genSplit (String.length s) s sep
  end.


End strings.

(** ** Package [strconv], base 10 *)

Module strconv.

Definition digit (c : ascii) : option Z :=
  let n := Z.of_nat (nat_of_ascii c) in
  if ((48 <=? n) && (n <=? 57))%Z then Some (n - 48) else None.

(** The digit loop of [ParseUint]: the first byte that is no digit is a
    syntax error, the first prefix above [maxVal] a range error. *)
Fixpoint uint_loop (maxVal : Z) (n : Z) (s : string) : NumErr + Z :=
  match s with
  | EmptyString => inr n
  | String c t =>
      match digit c with
      | None => inl ErrSyntax
      | Some d =>
          let n1 := n * 10 + d in
          if (maxVal <? n1)%Z then inl ErrRange else uint_loop maxVal n1 t
      end
  end.

Definition ParseUint_as (fn s0 s : string) (bitSize : Z) : result Z :=
  match s with
  | EmptyString => Err (NumError fn s0 ErrSyntax)
  | _ =>
      match uint_loop (2 ^ bitSize - 1) 0 s with
      | inl e => Err (NumError fn s0 e)
      | inr n => Ok n
      end
  end.

(** [strconv.ParseUint(s, 10, bitSize)]. *)
Definition ParseUint (s : string) (bitSize : Z) : result Z :=
  ParseUint_as "ParseUint" s s bitSize.

(** [strconv.ParseInt(s, 10, bitSize)]: an optional sign, then the
    unsigned digits, then the check against the signed range. *)
Definition ParseInt (s : string) (bitSize : Z) : result Z :=
  match s with
  | EmptyString => Err (NumError "ParseInt" s ErrSyntax)
  | String c t =>
      let neg := Ascii.eqb c "-" in
      let body := if Ascii.eqb c "+" || neg then t else s in
      match ParseUint_as "ParseInt" s body bitSize with
      | Err (NumError f n ErrRange) =>
          Err (NumError "ParseInt" s ErrRange)
      | Err e => Err e
      | Ok un =>
          let cutoff := 2 ^ (bitSize - 1) in
          if negb neg && (cutoff <=? un)%Z then Err (NumError "ParseInt" s ErrRange)
          else if neg && (cutoff <? un)%Z then Err (NumError "ParseInt" s ErrRange)
          else Ok (if neg then - un else un)
      end
  end.

(** [strconv.ParseBool]. *)
Definition ParseBool (s : string) : result bool :=
  if existsb (String.eqb s) ["1"; "t"; "T"; "TRUE"; "true"; "True"] then Ok true
  else if existsb (String.eqb s) ["0"; "f"; "F"; "FALSE"; "false"; "False"] then Ok false
  else Err (NumError "ParseBool" s ErrSyntax).

End strconv.

(** ** Collaborators

    What the package takes from outside its own source: the floating
    point and time parsers of the Go library, the value types of the
    flag library, the YAML decoder, and the helper that derives an
    environment variable name from a field name.  The resolution engine
    is stated for every such collaborator. *)

Inductive IntKind := Int | Int8 | Int16 | Int32 | Int64.
Inductive UintKind := Uint | Uint8 | Uint16 | Uint32 | Uint64.
Inductive FloatKind := Float32 | Float64.

(** [strconv.IntSize] on a 64-bit platform. *)
Definition IntSize : Z := 64.

Definition int_bits (k : IntKind) : Z :=
  match k with Int => IntSize | Int8 => 8 | Int16 => 16 | Int32 => 32 | Int64 => 64 end.

Definition uint_bits (k : UintKind) : Z :=
  match k with Uint => IntSize | Uint8 => 8 | Uint16 => 16 | Uint32 => 32 | Uint64 => 64 end.

(** Conversion to a signed, resp. unsigned, integer of [bits] bits. *)
Definition to_int (bits : Z) (x : Z) : Z :=
  (x + 2 ^ (bits - 1)) mod 2 ^ bits - 2 ^ (bits - 1).

Definition to_uint (bits : Z) (x : Z) : Z := x mod 2 ^ bits.

(** The struct tag of a field, as [Tag.Get] reads it: an absent key and an
    empty value both read as the empty string. *)
Record StructTag := mkTag {
  tag_default : string;
  tag_vardefault : string;
  tag_env : string;
  tag_flag : string;
  tag_description : string;
  tag_delimiter : string
}.

Record StructField_ (T : Type) := mkField {
  Name : string;
  Tag : StructTag;
  Type_ : T
}.
Arguments mkField {T} _ _ _.
Arguments Name {T} _.
Arguments Tag {T} _.
Arguments Type_ {T} _.

(** The types a configuration struct is made of.  [TDuration] is
    [time.Duration], [TTime] is [time.Time]; [TOther] stands for every
    kind the engine has no case for. *)
#[warnings="-register-all"]
Inductive Typ :=
| TString
| TBool
| TInt (k : IntKind)
| TUint (k : UintKind)
| TFloat (k : FloatKind)
| TDuration
| TTime
| TSlice (elem : Typ)
| TStruct (fields : list (StructField_ Typ))
| TOther.

Abbreviation StructField := (StructField_ Typ).

Inductive Kind :=
| KString | KBool | KInt (k : IntKind) | KUint (k : UintKind) | KFloat (k : FloatKind)
| KStruct | KSlice | KOther.

(** [reflect.Type.Kind]. *)
Definition kind_of (t : Typ) : Kind :=
  match t with
  | TString => KString
  | TBool => KBool
  | TInt k => KInt k
  | TUint k => KUint k
  | TFloat k => KFloat k
  | TDuration => KInt Int64
  | TTime => KStruct
  | TSlice _ => KSlice
  | TStruct _ => KStruct
  | TOther => KOther
  end.

Definition is_struct_kind (t : Typ) : bool :=
  match kind_of t with KStruct => true | _ => false end.

Definition is_time (t : Typ) : bool :=
  match t with TTime => true | _ => false end.

Class Collaborators := {
  (** float64 values, the zero among them, and the conversion
      [float64(float32(x))] *)
  float64 : Type;
  float64_zero : float64;
  float32 : float64 -> float64;
  (** [strconv.ParseFloat(s, 64)] *)
  ParseFloat : string -> result float64;
  (** [time.Time], [time.Unix(sec, 0)], [time.Parse(layout, value)] *)
  Time : Type;
  time_Unix : Z -> Time;
  time_Parse : string -> string -> result Time;
  (** [time.ParseDuration], in nanoseconds *)
  ParseDuration : string -> result Z;
  (** the helper [deriveEnvVarName] of the package, whose source is not
      part of the files at hand *)
  deriveEnvVarName : string -> string;
}.

(** ** Package state

    The variables of the package ([autoEnv], [variableDefaults],
    [timeParserFormats]) and the process environment.  Resolution only
    reads them. *)

Record Globals := mkGlobals {
  autoEnv : bool;
  variableDefaults : gmap string string;
  timeParserFormats : list string;
  environ : gmap string string
}.

Definition defaultTimeParserFormats : list string :=
  [ "2006-01-02T15:04:05.999999999Z07:00"; "2006-01-02T15:04:05Z07:00";
    "Mon, 02 Jan 2006 15:04:05 -0700"; "Mon, 02 Jan 2006 15:04:05 MST";
    "02 Jan 06 15:04 -0700"; "02 Jan 06 15:04 MST";
    "Monday, 02-Jan-06 15:04:05 MST"; "Mon Jan 02 15:04:05 -0700 2006";
    "Mon Jan _2 15:04:05 MST 2006"; "Mon Jan _2 15:04:05 2006";
    "2006-01-02 15:04:05.999999999 -0700 MST";
    "2006-01-02 15:04:05"; "2006-01-02 15:04:05Z07:00";
    "01/02/2006 15:04:05"; "01/02/2006 15:04:05Z07:00";
    "02.01.2006 15:04:05"; "02.01.2006 15:04:05Z07:00" ].

(** [AutoEnv], [SetVariableDefaults], [AddTimeParserFormats]. *)
Definition AutoEnv (enable : bool) (G : Globals) : Globals :=
  mkGlobals enable (variableDefaults G) (timeParserFormats G) (environ G).


Definition AddTimeParserFormats (f : list string) (G : Globals) : Globals :=
  mkGlobals (autoEnv G) (variableDefaults G) (timeParserFormats G ++ f) (environ G).

(** [os.LookupEnv]. *)
Definition LookupEnv (G : Globals) (name : string) : option string :=
  environ G !! name.

Definition nonempty (s : string) : bool := negb (String.eqb s "").

Section Engine.

Context {C : Collaborators}.

(** *** The field metadata interpreter *)

Definition varDefault (G : Globals) (name def : string) : string :=
  if nonempty name then
    match variableDefaults G !! name with
    | Some v => v
    | None => def
    end
  else def.

(** The variable name [envDefault] and [buildDescription] settle on. *)
Definition env_name (G : Globals) (field : StructField) : string :=
  let env := tag_env (Tag field) in
  if String.eqb env "" && autoEnv G then deriveEnvVarName (Name field) else env.

Definition envDefault (G : Globals) (field : StructField) (def : string) : string :=
  let env := env_name G field in
  if nonempty env then
    match LookupEnv G env with
    | Some e => e
    | None => def
    end
  else def.

Definition buildDescription (G : Globals) (field : StructField) : string :=
  let desc := tag_description (Tag field) in
  let env := env_name G field in
  if nonempty env then
    if nonempty desc then desc +:+ " (ENV: " +:+ env +:+ ")"
    else "(ENV: " +:+ env +:+ ")"
  else desc.

(** The textual value both traversals compute for a field. *)
Definition effective (G : Globals) (field : StructField) : string :=
  envDefault G field
    (varDefault G (tag_vardefault (Tag field)) (tag_default (Tag field))).

(** *** Memory and flag set

    The configuration struct lives in a heap of cells, one per leaf
    field, laid out in declaration order; a pointer is an address.  A
    flag holds the pointer it was bound to. *)

Inductive Val :=
| VString (s : string)
| VBool (b : bool)
| VInt (n : Z)
| VUint (n : Z)
| VFloat (x : float64)
| VDuration (d : Z)
| VTime (t : Time)
| VIntSlice (l : list Z)
| VStringSlice (l : list string).

Fixpoint sizeof (t : Typ) : nat :=
  match t with
  | TStruct fields => list_sum (map (fun f => sizeof (Type_ f)) fields)
  | _ => 1%nat
  end.

Record Flag := mkFlag {
  flag_name : string;
  flag_shorthand : string;
  flag_usage : string;
  flag_type : Typ;
  flag_ptr : nat;
  (** [Flag.Changed] *)
  flag_changed : bool;
  (** the [changed] field of pflag's slice values *)
  value_changed : bool
}.

Record State := mkState {
  heap : gmap nat Val;
  next : nat;
  flagset : list Flag
}.

(** Computations over the state that may fail; a failure keeps the
    state reached so far, as the mutations of the Go code do. *)
Definition M (A : Type) : Type := State -> State * result A.

Definition ret {A} (a : A) : M A := fun st => (st, Ok a).
Definition fail {A} (e : error) : M A := fun st => (st, Err e).
Definition bind {A B} (m : M A) (k : A -> M B) : M B :=
  fun st => match m st with
            | (st', Ok a) => k a st'
            | (st', Err e) => (st', Err e)
            end.
Definition lift {A} (r : result A) : M A := fun st => (st, r).
(** [fmt.Errorf("msg: %w", err)] around a failing computation. *)
Definition wrap {A} (msg : string) (m : M A) : M A :=
  fun st => match m st with
            | (st', Err e) => (st', Err (WrapError msg e))
            | r => r
            end.


Definition get {A} (f : State -> A) : M A := fun st => (st, Ok (f st)).

(** [*p = v] *)
Definition store (p : nat) (v : Val) : M unit :=
  fun st => (mkState (<[p:=v]> (heap st)) (next st) (flagset st), Ok tt).

(** A fresh variable that escapes to the heap. *)
Definition alloc (v : Val) : M nat :=
  fun st => (mkState (<[next st:=v]> (heap st)) (S (next st)) (flagset st),
             Ok (next st)).

Definition set_flagset (fs : list Flag) : M unit :=
  fun st => (mkState (heap st) (next st) fs, Ok tt).

End Engine.

Declare Scope go_scope.
Delimit Scope go_scope with go.
Notation "x <-- m ;; k" := (bind m (fun x => k))
  (at level 100, m at next level, right associativity) : go_scope.
Notation "m ;;; k" := (bind m (fun _ => k))
  (at level 100, right associativity) : go_scope.
Local Open Scope go_scope.

(** The value types of the flag library other than string and bool:
    [Set] receives the type of the flag, the [changed] mark of a slice
    value, the present content of the bound variable and the text. *)
Class FlagValues `{Collaborators} := {
  pflag_Set : Typ -> bool -> option Val -> string -> result Val
}.

Section Resolution.

Context `{FV : FlagValues}.

(** *** The flag set (package pflag) *)

Definition Lookup (name : string) (fs : list Flag) : option Flag :=
  find (fun fl => String.eqb (flag_name fl) name) fs.

(** [FlagSet.AddFlag]: a name defined twice panics; the flag is entered
    before its shorthand is checked. *)
Definition AddFlag (fl : Flag) : M unit :=
  fun st =>
    let fs := flagset st in
    match Lookup (flag_name fl) fs with
    | Some _ => (st, Err (Panic ("flag redefined: " +:+ flag_name fl)))
    | None =>
        let st' := mkState (heap st) (next st) (fs ++ [fl]) in
        let sh := flag_shorthand fl in
        if negb (nonempty sh) then (st', Ok tt)
        else if (1 <? String.length sh)%nat then
          (st', Err (Panic "shorthand is more than one ASCII character"))
        else if existsb (fun g => String.eqb (flag_shorthand g) sh) fs then
          (st', Err (Panic "unable to redefine shorthand"))
        else (st', Ok tt)
    end.

(** [fs.XVarP(p, name, shorthand, value, usage)] for the value type [t]:
    the variable takes the default, then the flag is added. *)
Definition VarP (t : Typ) (p : nat) (name shorthand : string) (value : Val)
    (usage : string) : M unit :=
  store p value ;;;
  AddFlag (mkFlag name shorthand usage t p false false).

Definition update_flag (name : string) (upd : Flag -> Flag) : M unit :=
  fun st =>
    (mkState (heap st) (next st)
       (map (fun fl => if String.eqb (flag_name fl) name then upd fl else fl)
            (flagset st)),
     Ok tt).

Definition mark_value (fl : Flag) : Flag :=
  mkFlag (flag_name fl) (flag_shorthand fl) (flag_usage fl) (flag_type fl)
    (flag_ptr fl) (flag_changed fl) true.

Definition mark_changed (fl : Flag) : Flag :=
  mkFlag (flag_name fl) (flag_shorthand fl) (flag_usage fl) (flag_type fl)
    (flag_ptr fl) true (value_changed fl).

Definition set_value (t : Typ) (changed : bool) (cur : option Val) (text : string)
    : result Val :=
  match t with
  | TString => Ok (VString text)
  | TBool => match strconv.ParseBool text with
             | Ok b => Ok (VBool b)
             | Err e => Err e
             end
  | _ => pflag_Set t changed cur text
  end.

(** [flag.Value.Set(text)]. *)
Definition Value_Set (fl : Flag) (text : string) : M unit :=
  cur <-- get (fun st => heap st !! flag_ptr fl) ;;
  v <-- lift (set_value (flag_type fl) (value_changed fl) cur text) ;;
  store (flag_ptr fl) v ;;;
  update_flag (flag_name fl) mark_value.

(** [FlagSet.Set(name, value)]. *)
Definition FlagSet_Set (name text : string) : M unit :=
  found <-- get (fun st => Lookup name (flagset st)) ;;
  match found with
  | None => fail (LibError "pflag" ("no such flag -" +:+ name))
  | Some fl =>
      wrap ("invalid argument for flag " +:+ name) (Value_Set fl text) ;;;
      update_flag name mark_changed
  end.

(** [FlagSet.Parse] on the assignments the argument list denotes, in
    the order of the command line.  The flag set of [parse] is built
    with [ExitOnError]: a failure ends the process. *)
Fixpoint FlagSet_Parse (args : list (string * string)) : M unit :=
  match args with
  | [] => ret tt
  | (name, text) :: rest => FlagSet_Set name text ;;; FlagSet_Parse rest
  end.

(** *** Coercion helpers *)

(** Modelled from the spec: [parseIntForType] and [parseUintForType]
    (their source is not part of the files at hand) parse the text in
    base 10 at the width of the field's kind. *)
Definition parseIntForType (s : string) (k : IntKind) : result Z :=
  strconv.ParseInt s (int_bits k).

Definition parseUintForType (s : string) (k : UintKind) : result Z :=
  strconv.ParseUint s (uint_bits k).

Definition float_of_kind (k : FloatKind) (x : float64) : float64 :=
  match k with Float32 => float32 x | Float64 => x end.

(** The pattern of [execTags] around a scalar parse: a failure is an
    error for a non-empty text and the zero value for the empty one. *)
Definition or_zero {A} (msg : string) (value : string) (zero : A) (r : result A)
    : result A :=
  match r with
  | Ok v => Ok v
  | Err e => if nonempty value then Err (WrapError msg e) else Ok zero
  end.

(** The loop over the accepted formats: the first that parses wins. *)
Fixpoint first_format (formats : list string) (value : string) : option Time :=
  match formats with
  | [] => None
  | tf :: rest =>
      match time_Parse tf value with
      | Ok t => Some t
      | Err _ => first_format rest value
      end
  end.

(** The element loop of the integer slice case. *)
Fixpoint parse_int_elems (elems : list string) : result (list Z) :=
  match elems with
  | [] => Ok []
  | v :: rest =>
      match strconv.ParseInt (strings.TrimSpace v) 64 with
      | Err e => Err (WrapError "parsing int" e)
      | Ok it =>
          match parse_int_elems rest with
          | Err e => Err e
          | Ok l => Ok (to_int IntSize it :: l)
          end
      end
  end.

(** *** Deferred coercion actions

    The closure [execTags] queues for a [time.Time] field: it holds the
    field and the address of its string variable. *)
Record afterFunc := mkAfter {
  after_field : nat;
  after_sVar : nat
}.

Definition run_afterFunc (G : Globals) (f : afterFunc) : M unit :=
  cell <-- get (fun st => heap st !! after_sVar f) ;;
  let sVar := match cell with Some (VString s) => s | _ => "" end in
  if negb (nonempty sVar) then ret tt
  else
    match strconv.ParseInt sVar 64 with
    | Ok ts => store (after_field f) (VTime (time_Unix ts))
    | Err _ =>
        match first_format (timeParserFormats G) sVar with
        | Some t => store (after_field f) (VTime t)
        | None => fail (TimeFormatMismatch sVar)
        end
    end.

Fixpoint run_afterFuncs (G : Globals) (fs : list afterFunc) : M unit :=
  match fs with
  | [] => ret tt
  | f :: rest => run_afterFunc G f ;;; run_afterFuncs G rest
  end.

(** *** Single-pass traversal *)

Definition flag_parts (field : StructField) : list string :=
  strings.Split (tag_flag (Tag field)) ",".

(** [parts[0]] *)
Definition long_name (parts : list string) : string := hd "" parts.

(** The shorthand the registration uses: none when [len(parts) == 1],
    [parts[1]] otherwise. *)
Definition shorthand (parts : list string) : string :=
  match parts with
  | _ :: sh :: _ => sh
  | _ => ""
  end.

Definition register (G : Globals) (field : StructField) (t : Typ) (p : nat)
    (v : Val) : M unit :=
  let parts := flag_parts field in
  VarP t p (long_name parts) (shorthand parts) v (buildDescription G field).

(** A flag when the field has a [flag] tag, a direct assignment when it
    has none. *)
Definition bind_or_set (G : Globals) (field : StructField) (p : nat) (v : Val)
    : M unit :=
  if nonempty (tag_flag (Tag field)) then register G field (Type_ field) p v
  else store p v.

(** The test at the head of the loop of [execTags]. *)
Definition skipped (field : StructField) : bool :=
  negb (nonempty (tag_default (Tag field)))
  && negb (nonempty (tag_env (Tag field)))
  && negb (nonempty (tag_flag (Tag field)))
  && negb (is_struct_kind (Type_ field)).

Definition delimiter_of (field : StructField) : string :=
  let del := tag_delimiter (Tag field) in
  if (String.length del =? 0)%nat then "," else del.

(** The body of the loop of [execTags] for a field that is no nested
    struct; [p] is the address of the field. *)
Definition execLeaf (G : Globals) (field : StructField) (p : nat)
    : M (list afterFunc) :=
  let value := effective G field in
  match Type_ field with
  | TDuration =>
      v <-- lift (or_zero "parsing time.Duration" value 0 (ParseDuration value)) ;;
      bind_or_set G field p (VDuration v) ;;;
      ret []
  | TTime =>
      sVar <-- alloc (VString "") ;;
      (if nonempty (tag_flag (Tag field))
       then register G field TString sVar (VString value)
       else store sVar (VString value)) ;;;
      ret [mkAfter p sVar]
  | TString => bind_or_set G field p (VString value) ;;; ret []
  | TBool => bind_or_set G field p (VBool (String.eqb value "true")) ;;; ret []
  | TInt k =>
      vt <-- lift (or_zero "parsing int" value 0 (parseIntForType value k)) ;;
      bind_or_set G field p (VInt (to_int (int_bits k) vt)) ;;;
      ret []
  | TUint k =>
      vt <-- lift (or_zero "parsing uint" value 0 (parseUintForType value k)) ;;
      bind_or_set G field p (VUint (to_uint (uint_bits k) vt)) ;;;
      ret []
  | TFloat k =>
      vt <-- lift (or_zero "parsing float" value float64_zero (ParseFloat value)) ;;
      bind_or_set G field p (VFloat (float_of_kind k vt)) ;;;
      ret []
  | TSlice (TInt Int) =>
      def <-- lift (parse_int_elems (strings.Split value ",")) ;;
      register G field (Type_ field) p (VIntSlice def) ;;;
      ret []
  | TSlice TString =>
      let def := if nonempty value then strings.Split value (delimiter_of field)
                 else [] in
      register G field (Type_ field) p (VStringSlice def) ;;;
      ret []
  | _ => ret []
  end.

(** The loop over the fields of a struct at address [base]: field after
    field, each at the address after the previous one. *)
Definition for_fields {A} (body : StructField -> nat -> M (list A))
    : list StructField -> nat -> M (list A) :=
  fix loop fields base :=
    match fields with
    | [] => ret []
    | f :: rest =>
        r1 <-- body f base ;;
        r2 <-- loop rest (base + sizeof (Type_ f))%nat ;;
        ret (r1 ++ r2)%list
    end.

(** [execTags] on a pointer to a value of type [t] at address [base].
    The fields of [time.Time] carry no tags: each of them is skipped. *)
Fixpoint execStruct (G : Globals) (t : Typ) (base : nat) : M (list afterFunc) :=
  match t with
  | TStruct fields =>
      for_fields
        (fun f p =>
           if skipped f then ret []
           else match Type_ f with
                | TStruct _ => execStruct G (Type_ f) p
                | _ => execLeaf G f p
                end)
        fields base
  | _ => ret []
  end.

(** An [interface{}] argument: a pointer to a value of some type, or
    anything else. *)
Inductive Iface :=
| Pointer (t : Typ) (p : nat)
| NonPointer.

Definition execTags (G : Globals) (in_ : Iface) : M (list afterFunc) :=
  match in_ with
  | NonPointer => fail (ErrorString "calling parser with non-pointer")
  | Pointer t p =>
      if is_struct_kind t then execStruct G t p
      else fail (ErrorString "calling parser with pointer to non-struct")
  end.

(** [parse]: a fresh flag set, the traversal, the command line, then the
    deferred actions in the order they were queued. *)
Definition parse (G : Globals) (in_ : Iface) (args : list (string * string))
    : M unit :=
  set_flagset [] ;;;
  afterFuncs <-- execTags G in_ ;;
  FlagSet_Parse args ;;;
  run_afterFuncs G afterFuncs.

(** [RegisterFlags]: the traversal on the caller's flag set; the deferred
    actions are dropped. *)
Definition RegisterFlags (G : Globals) (config : Iface) : M unit :=
  match config with
  | NonPointer => fail (ErrorString "RegisterFlags: config must be a pointer")
  | Pointer t p =>
      if is_struct_kind t then execTags G config ;;; ret tt
      else fail (ErrorString "RegisterFlags: config must be a pointer to struct")
  end.

(** *** Two-phase mode *)

(** [setFieldValue]: the direct write of [ApplyEnvAndDefaults]. *)
Definition setFieldValue (G : Globals) (p : nat) (fieldType : Typ) (value : string)
    : M unit :=
  match fieldType with
  | TDuration =>
      v <-- lift (ParseDuration value) ;;
      store p (VDuration v)
  | TTime =>
      match strconv.ParseInt value 64 with
      | Ok ts => store p (VTime (time_Unix ts))
      | Err _ =>
          match first_format (timeParserFormats G) value with
          | Some t => store p (VTime t)
          | None => fail (ErrorString ("unable to parse time: " +:+ value))
          end
      end
  | TString => store p (VString value)
  | TBool => store p (VBool (String.eqb value "true"))
  | TInt k =>
      v <-- lift (parseIntForType value k) ;;
      store p (VInt (to_int (int_bits k) v))
  | TUint k =>
      v <-- lift (parseUintForType value k) ;;
      store p (VUint (to_uint (uint_bits k) v))
  | TFloat k =>
      v <-- lift (ParseFloat value) ;;
      store p (VFloat (float_of_kind k v))
  | _ => ret tt
  end.

(** The body of the loop of [applyEnvAndDefaults] for a field that is no
    nested struct. *)
Definition applyLeaf (G : Globals) (field : StructField) (p : nat) : M unit :=
  let value := effective G field in
  let flagName := tag_flag (Tag field) in
  let name := long_name (strings.Split flagName ",") in
  found <-- get (fun st => if nonempty flagName then Lookup name (flagset st)
                           else None) ;;
  match found with
  | Some flag =>
      if flag_changed flag then ret tt
      else wrap ("setting flag " +:+ name) (Value_Set flag value)
  | None =>
      wrap ("setting field " +:+ Name field)
           (setFieldValue G p (Type_ field) value)
  end.

(** The fields of [time.Time] itself, which the loop meets when the
    configuration is a bare [time.Time]: they are unexported, so a write
    through reflection panics. *)
Definition no_tag : StructTag := mkTag "" "" "" "" "" "".

Definition time_wall : StructField := mkField "wall" no_tag (TUint Uint64).

Definition applyTimeInternals (G : Globals) : M unit :=
  wrap "setting field wall"
    (_ <-- lift (parseUintForType (effective G time_wall) Uint64) ;;
     fail (Panic "reflect: value obtained using unexported field")).

(** The same loop without a result. *)
Definition each_field (body : StructField -> nat -> M unit)
    : list StructField -> nat -> M unit :=
  fix loop fields base :=
    match fields with
    | [] => ret tt
    | f :: rest =>
        body f base ;;;
        loop rest (base + sizeof (Type_ f))%nat
    end.

(** [applyEnvAndDefaults] on the value of type [t] at address [base]. *)
Fixpoint applyEnvAndDefaults (G : Globals) (t : Typ) (base : nat) : M unit :=
  match t with
  | TStruct fields =>
      each_field
        (fun f p =>
           match Type_ f with
           | TStruct _ => applyEnvAndDefaults G (Type_ f) p
           | _ => applyLeaf G f p
           end)
        fields base
  | TTime => applyTimeInternals G
  | _ => ret tt
  end.

Definition ApplyEnvAndDefaults (G : Globals) (config : Iface) : M unit :=
  match config with
  | NonPointer => fail (ErrorString "ApplyEnvAndDefaults: config must be a pointer")
  | Pointer t p =>
      if is_struct_kind t then applyEnvAndDefaults G t p
      else fail (ErrorString "ApplyEnvAndDefaults: config must be a pointer to struct")
  end.

End Resolution.

(** ** Named default sets from YAML documents *)

(** A decoded scalar; [SOther] stands for any further value (a float, a
    sequence) and carries the text [%v] prints for it. *)
Inductive Scalar :=
| SStr (s : string)
| SInt (n : Z)
| SBool (b : bool)
| SNil
| SOther (rendered : string).

(** A decoded value: a scalar, a [map[string]interface{}] or a
    [map[interface{}]interface{}].  A map is given by its entries in the
    order in which [range] visits them; Go fixes no such order, so a
    statement about a map holds for every order of its entries. *)
#[warnings="-register-all"]
Inductive Node :=
| NLeaf (v : Scalar)
| NMapS (entries : list (string * Node))
| NMapI (entries : list (Scalar * Node)).

(** What the decoder finds at the root of the document. *)
Inductive Document :=
| DocMap (m : list (string * Node))
| DocEmpty
| DocOther.

(** The collaborators of the providers: the YAML decoder, on the bytes of
    the document, and [os.ReadFile]. *)
Class Decoder := {
  yaml_decode : string -> result Document;
  ReadFile : string -> result string
}.

Definition itoa (n : Z) : string := NilZero.string_of_int (Z.to_int n).

(** [fmt.Sprintf("%v", v)]. *)
Definition Sprint (v : Scalar) : string :=
  match v with
  | SStr s => s
  | SInt n => itoa n
  | SBool true => "true"
  | SBool false => "false"
  | SNil => "<nil>"
  | SOther r => r
  end.

Record YAMLOptions := mkYAMLOptions { KeyToLower : bool }.

Definition YAMLOption := YAMLOptions -> YAMLOptions.

Definition WithKeyToLower : YAMLOption := fun _ => mkYAMLOptions true.

(** The key of an entry [k] met under [prefix]. *)
Definition entry_key (opts : YAMLOptions) (prefix k : string) : string :=
  let key := if KeyToLower opts then strings.ToLower k else k in
  if nonempty prefix then prefix +:+ "." +:+ key else key.

(** [range] over a map with statement [body], threading [out]. *)
Definition range {K} (body : K -> Node -> gmap string string -> gmap string string)
    : list (K * Node) -> gmap string string -> gmap string string :=
  fix loop entries out :=
    match entries with
    | [] => out
    | (k, v) :: rest => loop rest (body k v out)
    end.

(** [range] over the map [m2] that the [map[interface{}]interface{}] case
    builds: of the entries whose keys print alike, the one assigned last
    is the one [m2] holds. *)
Definition range_m2 (body : string -> Node -> gmap string string -> gmap string string)
    : list (Scalar * Node) -> gmap string string -> gmap string string :=
  fix loop entries out :=
    match entries with
    | [] => out
    | (mk, mv) :: rest =>
        if existsb (fun e => String.eqb (Sprint (fst e)) (Sprint mk)) rest
        then loop rest out
        else loop rest (body (Sprint mk) mv out)
    end.

(** The body of the loop of [flattenYAMLMap] for the entry [k], [v]. *)
Fixpoint flattenEntry (opts : YAMLOptions) (prefix k : string) (v : Node)
    (out : gmap string string) : gmap string string :=
  let key := entry_key opts prefix k in
  match v with
  | NMapS val => range (fun k' v' => flattenEntry opts key k' v') val out
  | NMapI val => range_m2 (fun k' v' => flattenEntry opts key k' v') val out
  | NLeaf val => <[key:=Sprint val]> out
  end.

Definition flattenYAMLMap (prefix : string) (in_ : list (string * Node))
    (out : gmap string string) (opts : YAMLOptions) : gmap string string :=
  range (flattenEntry opts prefix) in_ out.

Section Providers.

Context {D : Decoder}.

(** [yaml.Unmarshal(in, &raw)] with [raw] a [map[string]interface{}]: an
    empty document leaves the nil map, a root that is no mapping is an
    error. *)
Definition Unmarshal (in_ : string) : result (list (string * Node)) :=
  match yaml_decode in_ with
  | Err e => Err e
  | Ok (DocMap m) => Ok m
  | Ok DocEmpty => Ok []
  | Ok DocOther => Err (LibError "yaml" "cannot unmarshal into map[string]interface {}")
  end.

Definition VarDefaultsFromYAML (in_ : string) (opts : list YAMLOption)
    : result (gmap string string) :=
  let options := fold_left (fun o opt => opt o) opts (mkYAMLOptions false) in
  match Unmarshal in_ with
  | Err e => Err (WrapError "parsing yaml" e)
  | Ok raw => Ok (flattenYAMLMap "" raw ∅ options)
  end.

Definition VarDefaultsFromYAMLFile (filename : string) (opts : list YAMLOption)
    : result (gmap string string) :=
  match ReadFile filename with
  | Err e => Err (WrapError "reading file" e)
  | Ok data => VarDefaultsFromYAML data opts
  end.

End Providers.

(** The earlier variant of the providers: no options, and an empty map
    in place of an error. *)
Module Legacy.

Fixpoint flattenEntry (prefix k : string) (v : Node) (out : gmap string string)
    : gmap string string :=
  let key := if nonempty prefix then prefix +:+ "." +:+ k else k in
  match v with
  | NMapS val => range (fun k' v' => flattenEntry key k' v') val out
  | NMapI val => range_m2 (fun k' v' => flattenEntry key k' v') val out
  | NLeaf val => <[key:=Sprint val]> out
  end.

Definition flattenYAMLMap (prefix : string) (in_ : list (string * Node))
    (out : gmap string string) : gmap string string :=
  range (flattenEntry prefix) in_ out.

Section Providers.

Context {D : Decoder}.

Definition VarDefaultsFromYAML (in_ : string) : gmap string string :=
  match Unmarshal in_ with
  | Err _ => ∅
  | Ok raw => flattenYAMLMap "" raw ∅
  end.

Definition VarDefaultsFromYAMLFile (filename : string) : gmap string string :=
  match ReadFile filename with
  | Err _ => ∅
  | Ok data => VarDefaultsFromYAML data
  end.

End Providers.

End Legacy.

(** ** Vocabulary of the specification *)

Section Vocabulary.

Context `{FV : FlagValues}.

Definition fields_size (fields : list StructField) : nat :=
  list_sum (map (fun f => sizeof (Type_ f)) fields).

(** [FieldAt fields base f p]: the traversal of the struct with fields
    [fields] at address [base] meets the field [f], which is no nested
    struct, at address [p] (at any depth). *)
Inductive FieldAt : list StructField -> nat -> StructField -> nat -> Prop :=
| FieldAt_here f rest base :
    (forall sub, Type_ f <> TStruct sub) ->
    FieldAt (f :: rest) base f base
| FieldAt_inside name tag sub rest base f p :
    FieldAt sub base f p ->
    FieldAt (mkField name tag (TStruct sub) :: rest) base f p
| FieldAt_later f0 rest base f p :
    FieldAt rest (base + sizeof (Type_ f0)) f p ->
    FieldAt (f0 :: rest) base f p.

(** The fields for which the single-pass traversal registers a flag:
    those with a [flag] tag, and every integer or string slice. *)
Definition flag_bound (f : StructField) : bool :=
  match Type_ f with
  | TSlice (TInt Int) | TSlice TString => true
  | TString | TBool | TInt _ | TUint _ | TFloat _ | TDuration | TTime =>
      nonempty (tag_flag (Tag f))
  | _ => false
  end.

Definition flag_name_of (f : StructField) : string := long_name (flag_parts f).

(** The typed value of the text [value] for the field [f], as the
    single-pass traversal assigns or registers it; [None] for the kinds
    it leaves alone and for [time.Time], which is coerced later. *)
Definition typed_value (f : StructField) (value : string) : option (result Val) :=
  match Type_ f with
  | TString => Some (Ok (VString value))
  | TBool => Some (Ok (VBool (String.eqb value "true")))
  | TInt k =>
      Some (match or_zero "parsing int" value 0 (parseIntForType value k) with
            | Ok n => Ok (VInt (to_int (int_bits k) n))
            | Err e => Err e
            end)
  | TUint k =>
      Some (match or_zero "parsing uint" value 0 (parseUintForType value k) with
            | Ok n => Ok (VUint (to_uint (uint_bits k) n))
            | Err e => Err e
            end)
  | TFloat k =>
      Some (match or_zero "parsing float" value float64_zero (ParseFloat value) with
            | Ok x => Ok (VFloat (float_of_kind k x))
            | Err e => Err e
            end)
  | TDuration =>
      Some (match or_zero "parsing time.Duration" value 0 (ParseDuration value) with
            | Ok d => Ok (VDuration d)
            | Err e => Err e
            end)
  | TSlice (TInt Int) =>
      Some (match parse_int_elems (strings.Split value ",") with
            | Ok l => Ok (VIntSlice l)
            | Err e => Err e
            end)
  | TSlice TString =>
      Some (Ok (VStringSlice (if nonempty value
                              then strings.Split value (delimiter_of f) else [])))
  | _ => None
  end.

(** The timestamp a text stands for: nothing for the empty text, the
    Unix time for an integer, else the first accepted format that
    parses, else a failure. *)
Definition time_value (G : Globals) (text : string) : result (option Time) :=
  if negb (nonempty text) then Ok None
  else match strconv.ParseInt text 64 with
       | Ok ts => Ok (Some (time_Unix ts))
       | Err _ =>
           match first_format (timeParserFormats G) text with
           | Some t => Ok (Some t)
           | None => Err (TimeFormatMismatch text)
           end
       end.

(** The texts the command line assigns to the flag [name], in order. *)
Fixpoint supplied (name : string) (args : list (string * string)) : list string :=
  match args with
  | [] => []
  | (n, text) :: rest =>
      if String.eqb n name then text :: supplied name rest else supplied name rest
  end.

End Vocabulary.

(** ** A small runtime

    An instance of the collaborators on which the definitions above can
    be run: integral floats, Unix seconds as time, one time layout,
    durations without fractions, flat [key: value] documents. *)

Module Ref.

Local Open Scope Z_scope.

Definition parse_float (s : string) : result Z :=
  match strconv.ParseInt s 64 with
  | Ok n => Ok n
  | Err _ => Err (NumError "ParseFloat" s ErrSyntax)
  end.

Fixpoint digits (n : nat) (s : string) (acc : Z) : option (Z * string) :=
  match n, s with
  | O, _ => Some (acc, s)
  | S n', String c t =>
      match strconv.digit c with
      | Some d => digits n' t (acc * 10 + d)
      | None => None
      end
  | S _, EmptyString => None
  end.

Definition expect (c : ascii) (s : string) : option string :=
  match s with
  | String c' t => if Ascii.eqb c c' then Some t else None
  | EmptyString => None
  end.

(** Days from 1970-01-01 to the given civil date. *)
Definition days_from_civil (y m d : Z) : Z :=
  let y' := if m <=? 2 then y - 1 else y in
  let era := y' / 400 in
  let yoe := y' - era * 400 in
  let mp := (m + 9) mod 12 in
  let doy := (153 * mp + 2) / 5 + d - 1 in
  let doe := yoe * 365 + yoe / 4 - yoe / 100 + doy in
  era * 146097 + doe - 719468.

Definition days_in (y m : Z) : Z :=
  if m =? 2 then
    if ((y mod 4 =? 0) && negb (y mod 100 =? 0)) || (y mod 400 =? 0) then 29 else 28
  else if (m =? 4) || (m =? 6) || (m =? 9) || (m =? 11) then 30 else 31.

(** [time.Parse] for the layout ["2006-01-02 15:04:05"], in UTC. *)
Definition parse_datetime (value : string) : option Z :=
  '(y, s) ← digits 4 value 0;
  s ← expect "-" s;
  '(mo, s) ← digits 2 s 0;
  s ← expect "-" s;
  '(d, s) ← digits 2 s 0;
  s ← expect " " s;
  '(h, s) ← digits 2 s 0;
  s ← expect ":" s;
  '(mi, s) ← digits 2 s 0;
  s ← expect ":" s;
  '(sec, s) ← digits 2 s 0;
  if String.eqb s ""
     && (1 <=? mo)%Z && (mo <=? 12)%Z && (1 <=? d)%Z && (d <=? days_in y mo)%Z
     && (h <? 24)%Z && (mi <? 60)%Z && (sec <? 60)%Z
  then Some (((days_from_civil y mo d * 24 + h) * 60 + mi) * 60 + sec)
  else None.

Definition parse_time (layout value : string) : result Z :=
  if String.eqb layout "2006-01-02 15:04:05" then
    match parse_datetime value with
    | Some t => Ok t
    | None => Err (LibError "time" ("cannot parse " +:+ value))
    end
  else Err (LibError "time" ("layout not covered: " +:+ layout)).

Definition unit_ns (u : string) : option Z :=
  if String.eqb u "ns" then Some 1
  else if String.eqb u "us" then Some 1000
  else if String.eqb u "ms" then Some 1000000
  else if String.eqb u "s" then Some 1000000000
  else if String.eqb u "m" then Some 60000000000
  else if String.eqb u "h" then Some 3600000000000
  else None.

(** One [digits unit] group after another; [num] is the number read so
    far in the group, [unit] the letters of its unit in reverse. *)
Fixpoint duration_loop (s : string) (num : option Z) (unit : string) (total : Z)
    : option Z :=
  let close :=
    match num with
    | Some n => match unit_ns (String.rev unit) with
                | Some f => Some (total + n * f)
                | None => None
                end
    | None => None
    end in
  match s with
  | EmptyString => close
  | String c t =>
      match strconv.digit c with
      | Some d =>
          if String.eqb unit "" then
            duration_loop t (Some (default 0 num * 10 + d)) "" total
          else match close with
               | Some total' => duration_loop t (Some d) "" total'
               | None => None
               end
      | None =>
          match num with
          | Some _ => duration_loop t num (String c unit) total
          | None => None
          end
      end
  end.

Definition parse_duration (s : string) : result Z :=
  let bad := Err (LibError "time" ("invalid duration " +:+ s)) in
  let '(neg, body) :=
    match s with
    | String c t => if Ascii.eqb c "-" then (true, t)
                    else if Ascii.eqb c "+" then (false, t) else (false, s)
    | EmptyString => (false, s)
    end in
  if String.eqb body "0" then Ok 0
  else match duration_loop body None "" 0 with
       | Some d => if (2 ^ 63 <=? d)%Z then bad else Ok (if neg then - d else d)
       | None => bad
       end.

(** [MyFieldName] becomes [MY_FIELD_NAME]. *)
Definition upper_byte (c : ascii) : ascii :=
  let n := nat_of_ascii c in
  if ((97 <=? n) && (n <=? 122))%nat then ascii_of_nat (n - 32) else c.

Fixpoint derive_loop (prev_lower : bool) (s : string) : string :=
  match s with
  | EmptyString => EmptyString
  | String c t =>
      let up := strings.is_upper c in
      let rest := String (upper_byte c) (derive_loop (negb up) t) in
      if up && prev_lower then String "_" rest else rest
  end.

Definition derive_name (s : string) : string := derive_loop false s.

#[export] Instance collaborators : Collaborators := {|
  float64 := Z;
  float64_zero := 0;
  float32 := fun x => x;
  ParseFloat := parse_float;
  Time := Z;
  time_Unix := fun sec => sec;
  time_Parse := parse_time;
  ParseDuration := parse_duration;
  deriveEnvVarName := derive_name
|}.

Fixpoint atoi_all (elems : list string) : result (list Z) :=
  match elems with
  | [] => Ok []
  | e :: rest =>
      match strconv.ParseInt e 64, atoi_all rest with
      | Ok n, Ok l => Ok (n :: l)
      | Err e, _ => Err e
      | _, Err e => Err e
      end
  end.

(** The values of the flag library that are no string and no bool, on
    decimal text and on lists without quoting. *)
Definition flag_set (t : Typ) (changed : bool) (cur : option Val) (text : string)
    : result Val :=
  match t with
  | TInt k =>
      match strconv.ParseInt text (int_bits k) with
      | Ok n => Ok (VInt n) | Err e => Err e
      end
  | TUint k =>
      match strconv.ParseUint text (uint_bits k) with
      | Ok n => Ok (VUint n) | Err e => Err e
      end
  | TFloat k =>
      match parse_float text with
      | Ok x => Ok (VFloat (float_of_kind k x)) | Err e => Err e
      end
  | TDuration =>
      match parse_duration text with
      | Ok d => Ok (VDuration d) | Err e => Err e
      end
  | TSlice (TInt Int) =>
      match atoi_all (strings.Split text ",") with
      | Ok l =>
          match changed, cur with
          | true, Some (VIntSlice old) => Ok (VIntSlice (old ++ l))
          | _, _ => Ok (VIntSlice l)
          end
      | Err e => Err e
      end
  | TSlice TString =>
      let l := strings.Split text "," in
      match changed, cur with
      | true, Some (VStringSlice old) => Ok (VStringSlice (old ++ l))
      | _, _ => Ok (VStringSlice l)
      end
  | _ => Err (LibError "pflag" "no value of this type")
  end.

#[export] Instance flag_values : FlagValues := {| pflag_Set := flag_set |}.

Definition all_digits (s : string) : bool :=
  nonempty s && forallb (fun c => bool_decide (is_Some (strconv.digit c)))
                        (list_ascii_of_string s).

Definition scalar_of (text : string) : Scalar :=
  if all_digits text then
    match strconv.ParseInt text 64 with Ok n => SInt n | Err _ => SStr text end
  else if String.eqb text "true" then SBool true
  else if String.eqb text "false" then SBool false
  else SStr text.

(** The lines of a flat document: [key: value] entries, a [---] marker
    or blank lines between them; a line that opens a sequence makes the
    root a sequence. *)
Fixpoint decode_lines (lines : list string) (acc : list (string * Node))
    : result Document :=
  match lines with
  | [] => Ok (match acc with [] => DocEmpty | _ => DocMap acc end)
  | l :: rest =>
      if String.eqb l "" || String.eqb l "---" then decode_lines rest acc
      else if String.prefix "- " l then Ok DocOther
      else match strings.Index l ": " with
           | Some m =>
               let k := strings.take m l in
               let v := strings.drop (m + 2) l in
               decode_lines rest (acc ++ [(k, NLeaf (scalar_of v))])
           | None => Err (LibError "yaml" ("could not find expected ':' in " +:+ l))
           end
  end.

Definition newline : string := String (ascii_of_nat 10) EmptyString.

Definition decode (data : string) : result Document :=
  decode_lines (strings.Split data newline) [].

Definition defaults_yaml : string :=
  "---" +:+ newline +:+ "my_secret_value: veryverysecretkey" +:+ newline
  +:+ "unknownkey: hi there" +:+ newline +:+ "int_var: 42" +:+ newline.

(** A file system with one file. *)
Definition read_file (filename : string) : result string :=
  if String.eqb filename "/etc/app/defaults.yaml" then Ok defaults_yaml
  else Err (LibError "os" ("open " +:+ filename +:+ ": no such file or directory")).

#[export] Instance decoder : Decoder := {|
  yaml_decode := decode;
  ReadFile := read_file
|}.

End Ref.

(** ** Vocabulary of the proofs *)

Section ProofVocabulary.

Context `{FV : FlagValues}.

Definition Foot (lo hi : nat) (st st' : State) : Prop :=
  (next st <= next st')%nat /\
  (forall a, (a < next st)%nat -> ~ (lo <= a < hi)%nat -> heap st' !! a = heap st !! a) /\
  exists new, flagset st' = (flagset st ++ new)%list /\
    Forall (fun g => (lo <= flag_ptr g < hi)%nat \/ (next st <= flag_ptr g < next st')%nat) new.

Definition touches {A} (lo hi : nat) (m : M A) : Prop :=
  forall st st' r, m st = (st', r) -> Foot lo hi st st'.

Definition afs_in (lo hi : nat) (st st' : State) (r : result (list afterFunc)) : Prop :=
  forall afs, r = Ok afs ->
    Forall (fun af => (lo <= after_field af < hi)%nat
                      /\ (next st <= after_sVar af < next st')%nat) afs.

Definition queues (lo hi : nat) (m : M (list afterFunc)) : Prop :=
  forall st st' r, m st = (st', r) -> Foot lo hi st st' /\ afs_in lo hi st st' r.

Definition flag_of (G : Globals) (f : StructField) (t : Typ) (cell : nat) : Flag :=
  mkFlag (flag_name_of f) (shorthand (flag_parts f)) (buildDescription G f) t cell
         false false.

Definition Bound (G : Globals) (f : StructField) (t : Typ) (cell : nat) (st : State)
    : Prop :=
  (flag_bound f = true ->
   Lookup (flag_name_of f) (flagset st) = Some (flag_of G f t cell)) /\
  (forall g, g ∈ flagset st -> flag_ptr g = cell ->
             flag_bound f = true /\ flag_name g = flag_name_of f).

Definition Registered (G : Globals) (f : StructField) (p : nat) (st0 st : State)
    (afs : list afterFunc) : Prop :=
  if is_time (Type_ f) then
    exists sv, (next st0 <= sv < next st)%nat /\
      heap st !! sv = Some (VString (effective G f)) /\
      heap st !! p = heap st0 !! p /\
      Bound G f TString sv st /\
      (forall g, g ∈ flagset st -> flag_ptr g <> p) /\
      mkAfter p sv ∈ afs /\
      (forall af, af ∈ afs -> after_field af = p -> after_sVar af = sv)
  else
    match typed_value f (effective G f) with
    | Some (Ok v0) => heap st !! p = Some v0
    | Some (Err _) => False
    | None => heap st !! p = heap st0 !! p
    end /\
    Bound G f (Type_ f) p st /\
    (forall af, af ∈ afs -> after_field af <> p).

(** The flags of a state point at allocated cells, and none into the
    part [lo, hi) of the struct that is still to be visited. *)
Definition Pre (lo hi : nat) (st : State) : Prop :=
  (hi <= next st)%nat /\
  forall g, g ∈ flagset st -> (flag_ptr g < next st)%nat /\ ~ (lo <= flag_ptr g < hi)%nat.

(** The body of the loop of [execStruct]. *)
Definition exec_body (G : Globals) (f : StructField) (p : nat) : M (list afterFunc) :=
  if skipped f then ret []
  else match Type_ f with
       | TStruct _ => execStruct G (Type_ f) p
       | _ => execLeaf G f p
       end.

Definition remark (name : string) (upd : Flag -> Flag) (fl : Flag) : Flag :=
  if String.eqb (flag_name fl) name then upd fl else fl.

Definition keeps_binding (upd : Flag -> Flag) : Prop :=
  forall fl, flag_name (upd fl) = flag_name fl /\ flag_ptr (upd fl) = flag_ptr fl.

(** The cell [a] is quiet when the command line assigns to no flag that
    points at it. *)
Definition quiet (a : nat) (args : list (string * string)) (fs : list Flag) : Prop :=
  forall g, g ∈ fs -> flag_ptr g = a -> supplied (flag_name g) args = [].

(** Every flag that points at the cell [c] is called [n]. *)
Definition owned (c : nat) (n : string) (fs : list Flag) : Prop :=
  forall g, g ∈ fs -> flag_ptr g = c -> flag_name g = n.

Definition time_target (ot : option Time) (h0 : option Val) : option Val :=
  match ot with Some t => Some (VTime t) | None => h0 end.

Definition settled (G : Globals) (p : nat) (text : string) (h0 : option Val)
    (st : State) : Prop :=
  exists ot, time_value G text = Ok ot /\ heap st !! p = time_target ot h0.

Definition for_field (p sv : nat) (af : afterFunc) : Prop :=
  (after_field af = p -> after_sVar af = sv) /\ after_field af <> sv.

Fixpoint nth_field (fields : list StructField) (base : nat) (i : nat)
    : option (StructField * nat) :=
  match fields, i with
  | [], _ => None
  | f :: _, O => Some (f, base)
  | f0 :: rest, S j => nth_field rest (base + sizeof (Type_ f0)) j
  end.

(** The field reached from the struct at [base] by the indices [path],
    one per level of nesting, with its address. *)
Fixpoint field_at (fields : list StructField) (base : nat) (path : list nat)
    : option (StructField * nat) :=
  match path with
  | [] => None
  | i :: deeper =>
      match nth_field fields base i with
      | None => None
      | Some (f, p) =>
          match Type_ f, deeper with
          | TStruct sub, _ :: _ => field_at sub p deeper
          | TStruct _, [] => None
          | _, [] => Some (f, p)
          | _, _ :: _ => None
          end
      end
  end.

(** The field holds the value of the text [text]. *)
Definition field_holds (G : Globals) (f : StructField) (text : string)
    (h0 h' : option Val) : Prop :=
  if is_time (Type_ f) then
    exists ot, time_value G text = Ok ot /\ h' = time_target ot h0
  else
    match typed_value f text with
    | Some (Ok v) => h' = Some v
    | Some (Err _) => False
    | None => h' = h0
    end.

(** The field holds what the flag layer makes of the text [a]. *)
Definition flag_holds (G : Globals) (f : StructField) (a : string)
    (h0 h' : option Val) : Prop :=
  if is_time (Type_ f) then
    exists ot, time_value G a = Ok ot /\ h' = time_target ot h0
  else
    exists v0 v, typed_value f (effective G f) = Some (Ok v0) /\
      set_value (Type_ f) false (Some v0) a = Ok v /\ h' = Some v.

Definition guarded (n : string) (g g' : Flag) : Prop :=
  g' = g \/ (flag_name g <> n /\ g' = mark_value g).

(** From [st] to [st'] only cells in [W] and cells some unchanged flag
    points at were written, and only flags called other than [n] were
    marked. *)
Definition Keeps (n : string) (W : nat -> Prop) (st st' : State) : Prop :=
  next st' = next st /\
  Forall2 (guarded n) (flagset st) (flagset st') /\
  forall a, ~ W a ->
    (forall g, g ∈ flagset st -> flag_changed g = false -> flag_ptr g <> a) ->
    heap st' !! a = heap st !! a.

(** The flag called [n] is [fl0]. *)
Definition protected (n : string) (fl0 : Flag) (st : State) : Prop :=
  Lookup n (flagset st) = Some fl0.

(** The body of the loop of [applyEnvAndDefaults]. *)
Definition apply_body (G : Globals) (f : StructField) (p : nat) : M unit :=
  match Type_ f with
  | TStruct _ => applyEnvAndDefaults G (Type_ f) p
  | _ => applyLeaf G f p
  end.

Definition within (lo size : nat) (a : nat) : Prop := (lo <= a < lo + size)%nat.

End ProofVocabulary.









Definition key_from (opts : YAMLOptions) (prefix : string) (path : list string) : string :=
  fold_left (entry_key opts) path prefix.


(** ** Data of the examples *)

Module Demo.

Definition name_field : StructField :=
  mkField "Name" (mkTag "static" "name_key" "NAME" "name,n" "who to greet" "") TString.

Definition port_field : StructField :=
  mkField "Port" (mkTag "80" "port_key" "PORT" "port" "" "") (TInt Int).

Definition since_field : StructField :=
  mkField "Since" (mkTag "2023-01-02 15:04:05" "since_key" "SINCE" "since" "" "") TTime.

Definition tags_field : StructField :=
  mkField "Tags" (mkTag "a, b ,c" "" "" "tags" "" "") (TSlice TString).

Definition fields : list StructField :=
  [ name_field; port_field;
    mkField "Limits" no_tag (TStruct [since_field; tags_field]) ].

Definition config : Iface := Pointer (TStruct fields) 0.

Definition globals : Globals :=
  mkGlobals false
    {[ "name_key" := "from-registry"; "port_key" := "8080" ]}
    defaultTimeParserFormats
    {[ "NAME" := "from-env" ]}.

Definition sizes_field : StructField :=
  mkField "Sizes" (mkTag "" "" "" "sizes" "" "") (TSlice (TInt Int)).

Definition optional_field : StructField :=
  mkField "Opt" (mkTag "fallback" "" "EMPTY" "" "" "") TString.

Definition empty_env : Globals := mkGlobals false ∅ [] {[ "EMPTY" := "" ]}.


Definition nested_doc : list (string * Node) :=
  [ ("config", NMapS [ ("rabbitmq", NMapS [ ("port", NLeaf (SInt 1234)) ]) ]) ].

Definition mixed_case_doc : list (string * Node) :=
  [ ("Config", NMapS [ ("RabbitMQ", NMapI [ (SStr "Host", NLeaf (SStr "Test-Host")) ]) ]) ].


#[local] Existing Instance Ref.collaborators.

Definition fresh : State := mkState ∅ 4 [].

(** The state an external framework leaves: [--name] was given. *)
Definition parsed_outside : State :=
  mkState {[ 0%nat := VString "from-flag" ]} 4
    [ mkFlag "name" "n" "who to greet (ENV: NAME)" TString 0 true true;
      mkFlag "port" "" "(ENV: PORT)" (TInt Int) 1 false false ].

End Demo.

(** ** Vocabulary of the two-phase mode *)

Section TwoPhaseVocabulary.

Context `{FV : FlagValues}.

(** The flag the loop of [applyEnvAndDefaults] finds for a field: the
    one registered under the first part of its [flag] tag, if the tag
    is not empty. *)
Definition found_flag (fs : list Flag) (f : StructField) : option Flag :=
  if nonempty (tag_flag (Tag f)) then Lookup (flag_name_of f) fs else None.

(** The cell the loop writes for the field [f] at [p]: none when the
    flag of the field is changed, the variable of the flag when it is
    registered and unchanged, the field itself when there is no flag. *)
Definition target (fs : list Flag) (f : StructField) (p : nat) : option nat :=
  match found_flag fs f with
  | Some fl => if flag_changed fl then None else Some (flag_ptr fl)
  | None => Some p
  end.

(** A flag is as it was, or its value carries the mark of [Set]. *)
Definition marked (g g' : Flag) : Prop := g' = g \/ g' = mark_value g.

(** From [st] to [st'] only cells in [W] were written, nothing was
    allocated, and the flags are the same up to the mark of [Set]. *)
Definition Writes (W : nat -> Prop) (st st' : State) : Prop :=
  next st' = next st /\
  Forall2 marked (flagset st) (flagset st') /\
  forall a, ~ W a -> heap st' !! a = heap st !! a.

(** The targets of the fields of a struct. *)
Definition targets (fs : list Flag) (fields : list StructField) (base : nat) (a : nat)
    : Prop :=
  exists f p, FieldAt fields base f p /\ target fs f p = Some a.

(** No other field of the struct has [p] as its target. *)
Definition alone (fs : list Flag) (fields : list StructField) (base p : nat) : Prop :=
  forall f' p', FieldAt fields base f' p' -> p' <> p -> target fs f' p' <> Some p.

(** A flag after the command line was parsed: marked when the command
    line assigns to it. *)
Definition after_parse (args : list (string * string)) (g : Flag) : Flag :=
  match supplied (flag_name g) args with
  | [] => g
  | _ => mark_changed (mark_value g)
  end.

End TwoPhaseVocabulary.

(** ** Further data of the examples *)

Module Samples.

Definition debug_field : StructField :=
  mkField "Debug" (mkTag "1" "" "" "debug" "" "") TBool.

Definition verbose_field : StructField :=
  mkField "Verbose" (mkTag "" "" "" "verbose" "" "") TBool.

Definition note_field : StructField := mkField "Note" no_tag TString.


Definition bad_port_field : StructField :=
  mkField "Port" (mkTag "eighty" "" "" "" "" "") (TInt Int).

Definition at_field : StructField :=
  mkField "At" (mkTag "1700000000" "" "" "" "" "") TTime.

Definition hosts_field : StructField :=
  mkField "Hosts" (mkTag "a,b" "" "" "" "" "") (TSlice TString).

Definition ports_field : StructField :=
  mkField "Ports" (mkTag "1,2" "" "" "" "" "") (TSlice (TInt Int)).

Definition plain : Globals := mkGlobals false ∅ defaultTimeParserFormats ∅.





Definition from_field : StructField :=
  mkField "From" (mkTag "" "" "" "when" "" "") TTime.

Definition until_field : StructField :=
  mkField "Until" (mkTag "" "" "" "when" "" "") TTime.

#[local] Existing Instance Ref.collaborators.

(** One cell, holding a text written by the caller. *)
Definition noted : State := mkState {[ 0%nat := VString "keep me" ]} 2 [].

(** The flag [--verbose] registered and not given. *)
Definition verbose_registered : State :=
  mkState {[ 0%nat := VBool false ]} 1 [ mkFlag "verbose" "" "" TBool 0 false false ].

End Samples.

(** * Properties *)

Section SinglePass.

Context `{FV : FlagValues}.

Lemma nonempty_true s : nonempty s = true <-> s <> "".
Proof.
  unfold nonempty. destruct (String.eqb_spec s ""); simpl; split; congruence.
Qed.

Lemma nonempty_false s : nonempty s = false <-> s = "".
Proof.
  unfold nonempty. destruct (String.eqb_spec s ""); simpl; split; congruence.
Qed.

(** C6 (empty versus unset environment).  For a field with an
    environment variable name, a variable that is set in the process
    environment (the empty string included) is the effective value,
    whatever the registry and the [default] tag give; an unset variable
    leaves the value of [varDefault] on the [vardefault] and [default]
    tags unchanged. *)
Theorem env_set_overrides_unset_keeps (G : Globals) (field : StructField) :
  env_name G field <> "" ->
  (forall e, LookupEnv G (env_name G field) = Some e -> effective G field = e) /\
  (LookupEnv G (env_name G field) = None ->
   effective G field
   = varDefault G (tag_vardefault (Tag field)) (tag_default (Tag field))).
Proof.
  intros Hname. unfold effective, envDefault.
  apply nonempty_true in Hname. rewrite Hname.
  split; [intros e He | intros He]; now rewrite He.
Qed.

(** * Footprints *)

Lemma Foot_refl lo hi st : Foot lo hi st st.
Proof.
  repeat split; auto. exists []. rewrite app_nil_r. auto.
Qed.

Lemma Foot_trans lo1 hi1 lo2 hi2 lo hi st st1 st2 :
  (lo <= lo1)%nat -> (lo <= lo2)%nat -> (hi1 <= hi)%nat -> (hi2 <= hi)%nat ->
  Foot lo1 hi1 st st1 -> Foot lo2 hi2 st1 st2 -> Foot lo hi st st2.
Proof.
  intros ? ? ? ? (Hn1 & Hh1 & new1 & Hf1 & Hp1) (Hn2 & Hh2 & new2 & Hf2 & Hp2).
  split; [lia|]. split.
  - intros a Ha Hout. rewrite Hh2, Hh1; auto; lia.
  - exists (new1 ++ new2)%list. split.
    + rewrite Hf2, Hf1. now rewrite app_assoc.
    + apply Forall_app. split.
      * eapply Forall_impl; [exact Hp1|]. simpl. intros g Hg. lia.
      * eapply Forall_impl; [exact Hp2|]. simpl. intros g Hg. lia.
Qed.

Lemma Foot_widen lo hi lo' hi' st st' :
  (lo' <= lo)%nat -> (hi <= hi')%nat -> Foot lo hi st st' -> Foot lo' hi' st st'.
Proof.
  intros Hlo Hhi (Hn & Hh & new & Hf & Hp).
  split; [lia|]. split.
  - intros a Ha Hout. apply Hh; auto. lia.
  - exists new. split; auto.
    eapply Forall_impl; [exact Hp|]. simpl. intros g Hg. lia.
Qed.

Lemma Foot_next lo hi st st' : Foot lo hi st st' -> (next st <= next st')%nat.
Proof. now intros [? _]. Qed.

Lemma touches_widen {A} lo hi lo' hi' (m : M A) :
  (lo' <= lo)%nat -> (hi <= hi')%nat -> touches lo hi m -> touches lo' hi' m.
Proof. intros ? ? Hm st st' r E. eapply Foot_widen; eauto. Qed.

Lemma touches_ret {A} lo hi (a : A) : touches lo hi (ret a).
Proof. intros st st' r [= <- _]. apply Foot_refl. Qed.

Lemma touches_fail {A} lo hi e : touches lo hi (fail e : M A).
Proof. intros st st' r [= <- _]. apply Foot_refl. Qed.

Lemma touches_lift {A} lo hi (x : result A) : touches lo hi (lift x).
Proof. intros st st' r [= <- _]. apply Foot_refl. Qed.

Lemma touches_get {A} lo hi (f : State -> A) : touches lo hi (get f).
Proof. intros st st' r [= <- _]. apply Foot_refl. Qed.

Lemma touches_bind {A B} lo hi (m : M A) (k : A -> M B) :
  touches lo hi m -> (forall a, touches lo hi (k a)) -> touches lo hi (bind m k).
Proof.
  intros Hm Hk st st' r. unfold bind.
  destruct (m st) as [st1 [e|a]] eqn:E.
  - intros [= <- _]. eapply Hm; eauto.
  - intros E2. eapply (Foot_trans lo hi lo hi lo hi); [lia|lia|lia|lia| |].
    + eapply Hm; eauto.
    + eapply Hk; eauto.
Qed.

Lemma touches_wrap {A} lo hi msg (m : M A) :
  touches lo hi m -> touches lo hi (wrap msg m).
Proof.
  intros Hm st st' r. unfold wrap.
  destruct (m st) as [st1 [e|a]] eqn:E; intros [= <- _]; eapply Hm; eauto.
Qed.

Lemma touches_store lo hi p v :
  (lo <= p < hi)%nat -> touches lo hi (store p v).
Proof.
  intros Hp st st' r [= <- _]. split; [simpl; lia|]. split.
  - simpl. intros a _ Hout. apply lookup_insert_ne. lia.
  - exists []. simpl. rewrite app_nil_r. auto.
Qed.

Lemma touches_AddFlag lo hi fl :
  (lo <= flag_ptr fl < hi)%nat -> touches lo hi (AddFlag fl).
Proof.
  intros Hp st st' r. unfold AddFlag.
  destruct (Lookup _ _).
  { intros [= <- _]. apply Foot_refl. }
  assert (Foot lo hi st (mkState (heap st) (next st) (flagset st ++ [fl]))).
  { split; [simpl; lia|]. split; [auto|].
    exists [fl]. split; auto. }
  repeat (match goal with |- context [if ?c then _ else _] => destruct c end);
    intros [= <- _]; auto.
Qed.

Lemma touches_VarP lo hi t p name sh v usage :
  (lo <= p < hi)%nat -> touches lo hi (VarP t p name sh v usage).
Proof.
  intros Hp. unfold VarP. apply touches_bind.
  - now apply touches_store.
  - intros _. now apply touches_AddFlag.
Qed.

Lemma touches_bind_or_set lo hi G f p v :
  (lo <= p < hi)%nat -> touches lo hi (bind_or_set G f p v).
Proof.
  intros Hp. unfold bind_or_set, register.
  destruct (nonempty _); [now apply touches_VarP | now apply touches_store].
Qed.

Ltac foot_explicit :=
  split; [simpl; lia|]; split;
  [ simpl; intros; rewrite ?lookup_insert_ne by lia; auto
  | first [ exists []; split; [simpl; now rewrite app_nil_r | constructor]
          | eexists [_]; split; [simpl; reflexivity | repeat constructor; simpl; lia] ] ].

Lemma touches_time_leaf lo hi G f p :
  touches lo hi
    (sVar <-- alloc (VString "") ;;
     (if nonempty (tag_flag (Tag f))
      then register G f TString sVar (VString (effective G f))
      else store sVar (VString (effective G f))) ;;;
     ret [mkAfter p sVar]).
Proof.
  intros st st' r.
  unfold bind, alloc, register, VarP, bind, store, AddFlag, ret. simpl.
  destruct (nonempty (tag_flag (Tag f))); simpl.
  - destruct (Lookup _ _); simpl.
    + intros [= <- _]. foot_explicit.
    + repeat (match goal with |- context [if ?c then _ else _] => destruct c end);
        simpl; intros [= <- _]; foot_explicit.
  - intros [= <- _]. foot_explicit.
Qed.

Lemma touches_execLeaf lo hi G f p :
  (lo <= p < hi)%nat -> touches lo hi (execLeaf G f p).
Proof.
  intros Hp. unfold execLeaf.
  destruct (Type_ f) as [| | k | k | k | | | e | fields |];
    try (apply touches_ret);
    try (apply touches_time_leaf);
    try (apply touches_bind; [first [apply touches_lift | now apply touches_bind_or_set]|];
         intros; try (apply touches_bind; [now apply touches_bind_or_set|]; intros);
         apply touches_ret).
  destruct e as [| | [] | | | | | | |]; try apply touches_ret.
  - apply touches_bind; [now apply touches_VarP|]. intros. apply touches_ret.
  - apply touches_bind; [apply touches_lift|]. intros.
    apply touches_bind; [now apply touches_VarP|]. intros. apply touches_ret.
Qed.

(** Induction over types, through the fields of structs. *)
Lemma Typ_nested_ind (P : Typ -> Prop) :
  P TString -> P TBool -> (forall k, P (TInt k)) -> (forall k, P (TUint k)) ->
  (forall k, P (TFloat k)) -> P TDuration -> P TTime ->
  (forall e, P e -> P (TSlice e)) ->
  (forall fields, Forall (fun f => P (Type_ f)) fields -> P (TStruct fields)) ->
  P TOther ->
  forall t, P t.
Proof.
  intros HS HB HI HU HF HD HT HSl HSt HO.
  fix IH 1. intros t. destruct t as [| | k | k | k | | | e | fields |].
  - exact HS.
  - exact HB.
  - apply HI.
  - apply HU.
  - apply HF.
  - exact HD.
  - exact HT.
  - apply HSl, IH.
  - apply HSt. induction fields as [|f rest IHr]; constructor.
    + apply IH.
    + exact IHr.
  - exact HO.
Qed.

Lemma leaf_size t : (forall sub, t <> TStruct sub) -> sizeof t = 1%nat.
Proof. destruct t; intros Hn; try reflexivity. now destruct (Hn fields). Qed.

Lemma touches_for_fields {A} (body : StructField -> nat -> M (list A)) fields :
  Forall (fun f => forall p, touches p (p + sizeof (Type_ f)) (body f p)) fields ->
  forall base, touches base (base + fields_size fields) (for_fields body fields base).
Proof.
  induction 1 as [|f rest Hf Hrest IH]; intros base; simpl.
  - apply touches_ret.
  - unfold fields_size. simpl. fold (fields_size rest).
    apply touches_bind.
    + eapply touches_widen; [| |apply Hf]; lia.
    + intros r1. apply touches_bind.
      * eapply touches_widen; [| |apply IH]; lia.
      * intros. apply touches_ret.
Qed.

Lemma touches_execStruct G t :
  forall base, touches base (base + sizeof t) (execStruct G t base).
Proof.
  induction t as [| | k | k | k | | | e IHe | fields IH |] using Typ_nested_ind;
    intros base; try apply touches_ret.
  cbn [execStruct sizeof]. apply touches_for_fields.
  eapply Forall_impl; [exact IH|]. simpl. intros f Hf p.
  destruct (skipped f); [apply touches_ret|].
  destruct (Type_ f) eqn:ET; try (apply touches_execLeaf; simpl; lia).
  apply Hf.
Qed.

(** * Deferred actions of a traversal *)

Lemma queues_touches lo hi m : queues lo hi m -> touches lo hi m.
Proof. intros Hq st st' r E. now apply Hq in E. Qed.

Lemma queues_nil lo hi (m : M (list afterFunc)) :
  touches lo hi m -> (forall st st' afs, m st = (st', Ok afs) -> afs = []) ->
  queues lo hi m.
Proof.
  intros Ht Hn st st' r E. split; [eauto|].
  intros afs ->. apply Hn in E. subst. constructor.
Qed.

Lemma queues_widen lo hi lo' hi' m :
  (lo' <= lo)%nat -> (hi <= hi')%nat -> queues lo hi m -> queues lo' hi' m.
Proof.
  intros ? ? Hm st st' r E. apply Hm in E as [F Q]. split.
  - eapply Foot_widen; eauto.
  - intros afs ->. eapply Forall_impl; [exact (Q _ eq_refl)|]. simpl. intros af. lia.
Qed.

Ltac mcase :=
  match goal with
  | |- context [match ?m ?st with (_, _) => _ end] =>
      let E := fresh "E" in destruct (m st) as [? [?|?]] eqn:E
  end.

Lemma execLeaf_afs G f p st st' afs :
  execLeaf G f p st = (st', Ok afs) ->
  afs = [] \/ (Type_ f = TTime /\ afs = [mkAfter p (next st)] /\ next st' = S (next st)).
Proof.
  unfold execLeaf.
  destruct (Type_ f) as [| | k | k | k | | | e | fields |]; unfold bind.
  all: try (intros [= _ <-]; now left).
  all: try (repeat mcase; intros [= _ <-]; now left).
  - (* time *)
    unfold alloc at 1. cbn [fst snd].
    destruct (nonempty (tag_flag (Tag f))).
    + unfold register, VarP, bind, store. cbn [fst snd].
      match goal with |- context [AddFlag ?fl ?s] =>
        pose proof (touches_AddFlag 0 (S (flag_ptr fl)) fl ltac:(lia) s) as HA;
        destruct (AddFlag fl s) as [s1 [e|[]]] eqn:EA end.
      * discriminate.
      * intros [= <- <-]. right. repeat split; auto.
        unfold AddFlag in EA. simpl in EA.
        repeat (match type of EA with context [match ?c with _ => _ end] => destruct c end);
          inversion EA; reflexivity.
    + unfold store. intros [= <- <-]. right. repeat split; auto.
  - destruct e as [| | [] | | | | | | |]; try (intros [= _ <-]; now left);
      repeat mcase; intros [= _ <-]; now left.
Qed.

Lemma queues_execLeaf lo hi G f p :
  (lo <= p < hi)%nat -> queues lo hi (execLeaf G f p).
Proof.
  intros Hp st st' r E. split; [eapply touches_execLeaf; eauto|].
  intros afs ->. apply execLeaf_afs in E as [->|(_ & -> & Hn)]; repeat constructor; simpl; lia.
Qed.

Lemma queues_for_fields (body : StructField -> nat -> M (list afterFunc)) fields :
  Forall (fun f => forall p, queues p (p + sizeof (Type_ f)) (body f p)) fields ->
  forall base, queues base (base + fields_size fields) (for_fields body fields base).
Proof.
  induction 1 as [|f rest Hf Hrest IH]; intros base.
  - apply queues_nil; [apply touches_ret|]. now intros st st' afs [= _ <-].
  - intros st st' r. cbn [for_fields]. unfold bind at 1.
    unfold fields_size. simpl. fold (fields_size rest).
    destruct (body f base st) as [st1 [e|r1]] eqn:E1.
    + intros [= <- <-]. apply Hf in E1 as [F1 _]. split.
      * eapply Foot_widen; [| |exact F1]; lia.
      * now intros afs.
    + unfold bind.
      destruct (for_fields body rest _ st1) as [st2 [e|r2]] eqn:E2;
        intros [= <- <-]; apply Hf in E1 as [F1 Q1]; apply IH in E2 as [F2 Q2].
      * split; [|now intros afs].
        eapply Foot_trans; [| | | |exact F1|exact F2]; lia.
      * split; [eapply Foot_trans; [| | | |exact F1|exact F2]; lia|].
        intros afs [= <-]. apply Forall_app. split.
        -- eapply Forall_impl; [exact (Q1 _ eq_refl)|]. simpl. intros af.
           apply Foot_next in F2. lia.
        -- eapply Forall_impl; [exact (Q2 _ eq_refl)|]. simpl. intros af.
           apply Foot_next in F1. lia.
Qed.

Lemma queues_execStruct G t :
  forall base, queues base (base + sizeof t) (execStruct G t base).
Proof.
  induction t as [| | k | k | k | | | e IHe | fields IH |] using Typ_nested_ind;
    intros base;
    try (apply queues_nil; [apply touches_ret | now intros st st' afs [= _ <-]]).
  cbn [execStruct sizeof]. apply queues_for_fields.
  eapply Forall_impl; [exact IH|]. simpl. intros f Hf p.
  destruct (skipped f).
  { apply queues_nil; [apply touches_ret | now intros st st' afs [= _ <-]]. }
  destruct (Type_ f) eqn:ET; try (apply queues_execLeaf; simpl; lia).
  apply Hf.
Qed.

(** * What the traversal leaves for one field *)

Lemma Lookup_elem name fs g :
  Lookup name fs = Some g -> g ∈ fs /\ flag_name g = name.
Proof.
  unfold Lookup. intros Hf. apply find_some in Hf as [Hin Heq].
  split; [now apply list_elem_of_In|]. now apply String.eqb_eq.
Qed.

Lemma Lookup_app_Some name fs new g :
  Lookup name fs = Some g -> Lookup name (fs ++ new) = Some g.
Proof.
  unfold Lookup. induction fs as [|x fs IH]; simpl; [discriminate|].
  destruct (String.eqb _ _); auto.
Qed.

Lemma Lookup_app_None name fs new :
  Lookup name fs = None -> Lookup name (fs ++ new) = Lookup name new.
Proof.
  unfold Lookup. induction fs as [|x fs IH]; simpl; [reflexivity|].
  destruct (String.eqb _ _); [discriminate|auto].
Qed.

Lemma Lookup_single name fl :
  flag_name fl = name -> Lookup name [fl] = Some fl.
Proof. intros <-. unfold Lookup. simpl. now rewrite String.eqb_refl. Qed.

Lemma AddFlag_ok fl st st' :
  AddFlag fl st = (st', Ok tt) ->
  st' = mkState (heap st) (next st) (flagset st ++ [fl]) /\
  Lookup (flag_name fl) (flagset st) = None.
Proof.
  unfold AddFlag. destruct (Lookup _ _); [discriminate|].
  repeat (match goal with |- context [if ?c then _ else _] => destruct c end);
    intros [= <-]; auto.
Qed.

Lemma register_ok G f t c v st st' :
  register G f t c v st = (st', Ok tt) ->
  heap st' = <[c:=v]> (heap st) /\ next st' = next st /\
  flagset st' = (flagset st ++ [flag_of G f t c])%list /\
  Lookup (flag_name_of f) (flagset st) = None.
Proof.
  unfold register, VarP, bind, store.
  match goal with |- context [AddFlag ?fl ?s] =>
    destruct (AddFlag fl s) as [s1 [e|[]]] eqn:EA end; [discriminate|].
  intros [= <-]. apply AddFlag_ok in EA as [-> EA]. simpl in *. auto.
Qed.

Lemma bind_or_set_ok G f p v st st' :
  bind_or_set G f p v st = (st', Ok tt) ->
  heap st' = <[p:=v]> (heap st) /\ next st' = next st /\
  if nonempty (tag_flag (Tag f))
  then flagset st' = (flagset st ++ [flag_of G f (Type_ f) p])%list
       /\ Lookup (flag_name_of f) (flagset st) = None
  else flagset st' = flagset st.
Proof.
  unfold bind_or_set. destruct (nonempty _).
  - intros E. apply register_ok in E. tauto.
  - intros [= <-]. simpl. auto.
Qed.

Lemma Bound_new G f t c st st' :
  (forall g, g ∈ flagset st -> flag_ptr g <> c) ->
  (if flag_bound f
   then flagset st' = (flagset st ++ [flag_of G f t c])%list
        /\ Lookup (flag_name_of f) (flagset st) = None
   else flagset st' = flagset st) ->
  Bound G f t c st'.
Proof.
  intros Hpre Hfl. unfold Bound. destruct (flag_bound f).
  - destruct Hfl as [-> HL]. split.
    + intros _. rewrite Lookup_app_None by exact HL. now apply Lookup_single.
    + intros g Hg Hc. apply elem_of_app in Hg as [Hg|Hg].
      * now apply Hpre in Hg.
      * apply list_elem_of_singleton in Hg. subst g. auto.
  - rewrite Hfl. split; [discriminate|].
    intros g Hg Hc. now apply Hpre in Hg.
Qed.

Lemma Pre_not_at lo hi st p :
  Pre lo hi st -> (lo <= p < hi)%nat -> forall g, g ∈ flagset st -> flag_ptr g <> p.
Proof. intros [_ HP] Hp g Hg. apply HP in Hg. lia. Qed.

Lemma Bound_unflagged G f t c st st' :
  flag_bound f = false -> flagset st' = flagset st ->
  (forall g, g ∈ flagset st -> flag_ptr g <> c) -> Bound G f t c st'.
Proof.
  intros Hb Hfl Hpre. apply (Bound_new G f t c st st'); auto. now rewrite Hb.
Qed.

Ltac scalar_case ET :=
  unfold bind, lift, ret;
  match goal with
  | |- context [or_zero ?m ?v ?z ?r] =>
      let EZ := fresh "EZ" in
      destruct (or_zero m v z r) as [?|?] eqn:EZ; [discriminate|]
  | _ => idtac
  end;
  match goal with
  | |- context [bind_or_set ?G ?f ?p ?v ?st] =>
      let EB := fresh "EB" in
      let Hh := fresh "Hh" in
      let Hn := fresh "Hn" in
      let Hfl := fresh "Hfl" in
      destruct (bind_or_set G f p v st) as [? [?|[]]] eqn:EB; [discriminate|];
      apply bind_or_set_ok in EB as (Hh & Hn & Hfl);
      intros [= <- <-]; split; [|split];
      [ rewrite Hh; apply lookup_insert_eq
      | eapply Bound_new; [eassumption|];
        unfold flag_bound; rewrite ET in *; exact Hfl
      | intros af Haf; now apply elem_of_nil in Haf ]
  end.

Ltac untouched_case ET :=
  intros [= <- <-]; split; [reflexivity|]; split;
  [ eapply Bound_unflagged; [unfold flag_bound; now rewrite ET|reflexivity|eassumption]
  | intros af Haf; now apply elem_of_nil in Haf ].

Ltac slice_case ET :=
  unfold bind, lift, ret; cbv zeta;
  try match goal with
  | |- context [parse_int_elems ?l] =>
      destruct (parse_int_elems l) as [?|?]; [discriminate|]
  end;
  match goal with
  | |- context [register ?G ?f ?t ?p ?v ?st] =>
      let ER := fresh "ER" in
      let Hh := fresh "Hh" in
      let Hn := fresh "Hn" in
      let Hfl := fresh "Hfl" in
      let HL := fresh "HL" in
      destruct (register G f t p v st) as [? [?|[]]] eqn:ER; [discriminate|];
      apply register_ok in ER as (Hh & Hn & Hfl & HL);
      intros [= <- <-]; split; [|split];
      [ rewrite Hh; apply lookup_insert_eq
      | eapply Bound_new; [eassumption|];
        unfold flag_bound; rewrite ET in *; split; [exact Hfl|exact HL]
      | intros af Haf; now apply elem_of_nil in Haf ]
  end.

Lemma execLeaf_registers G f p st st' afs :
  (forall sub, Type_ f <> TStruct sub) ->
  Pre p (S p) st ->
  execLeaf G f p st = (st', Ok afs) ->
  Registered G f p st st' afs.
Proof.
  intros Hleaf HPre.
  pose proof (Pre_not_at _ _ _ p HPre ltac:(lia)) as Hnot.
  destruct HPre as [Hhi HPre].
  unfold execLeaf, Registered, typed_value, flag_bound.
  destruct (Type_ f) as [| | k | k | k | | | e | fields |] eqn:ET; cbn [is_time].
  - scalar_case ET.
  - scalar_case ET.
  - scalar_case ET.
  - scalar_case ET.
  - scalar_case ET.
  - scalar_case ET.
  - (* time.Time *)
    unfold bind at 1. unfold alloc. cbn [fst snd].
    assert (Hfresh : forall g, g ∈ flagset st -> flag_ptr g <> next st).
    { intros g Hg. apply HPre in Hg. lia. }
    unfold bind, ret. destruct (nonempty (tag_flag (Tag f))) eqn:EF.
    + match goal with |- context [register ?G ?f ?t ?c ?v ?s] =>
        destruct (register G f t c v s) as [s1 [?|[]]] eqn:ER; [discriminate|] end.
      apply register_ok in ER as (Hh & Hn & Hfl & HL). simpl in Hh, Hn, Hfl, HL.
      intros [= <- <-]. exists (next st). split_and!.
      * lia.
      * lia.
      * rewrite Hh. apply lookup_insert_eq.
      * rewrite Hh, !lookup_insert_ne by lia. reflexivity.
      * eapply Bound_new; [exact Hfresh|].
        unfold flag_bound. rewrite ET, EF. split; [exact Hfl|exact HL].
      * intros g Hg. rewrite Hfl in Hg. apply elem_of_app in Hg as [Hg|Hg].
        -- now apply Hnot.
        -- apply list_elem_of_singleton in Hg. subst g. simpl. lia.
      * apply list_elem_of_singleton. reflexivity.
      * intros af Haf _. apply list_elem_of_singleton in Haf. now subst af.
    + unfold store. simpl. intros [= <- <-]. exists (next st). simpl. split_and!.
      * lia.
      * lia.
      * apply lookup_insert_eq.
      * rewrite !lookup_insert_ne by lia. reflexivity.
      * eapply (Bound_unflagged G f _ _ st); [|reflexivity|exact Hfresh].
        unfold flag_bound. now rewrite ET, EF.
      * exact Hnot.
      * apply list_elem_of_singleton. reflexivity.
      * intros af Haf _. apply list_elem_of_singleton in Haf. now subst af.
  - destruct e as [| | [] | | | | | | |]; try untouched_case ET.
    + slice_case ET.
    + slice_case ET.
  - now destruct (Hleaf fields).
  - untouched_case ET.
Qed.

Lemma FieldAt_range fields base f p :
  FieldAt fields base f p -> (base <= p < base + fields_size fields)%nat.
Proof.
  induction 1 as [f rest base Hleaf | n tg sub rest base f p _ IH | f0 rest base f p _ IH];
    unfold fields_size in *; simpl.
  - rewrite (leaf_size _ Hleaf). lia.
  - fold (fields_size sub) in *. lia.
  - lia.
Qed.

Lemma FieldAt_leaf fields base f p :
  FieldAt fields base f p -> forall sub, Type_ f <> TStruct sub.
Proof. induction 1; auto. Qed.

Lemma Pre_narrow lo hi lo' hi' st :
  (lo <= lo')%nat -> (hi' <= hi)%nat -> Pre lo hi st -> Pre lo' hi' st.
Proof.
  intros ? ? [Hhi HP]. split; [lia|]. intros g Hg. apply HP in Hg. lia.
Qed.

Lemma Pre_step lo mid hi st st1 :
  (lo <= mid <= hi)%nat -> Pre lo hi st -> Foot lo mid st st1 -> Pre mid hi st1.
Proof.
  intros ? [Hhi HP] (Hn & _ & new & Hfl & Hnew). split; [lia|].
  intros g Hg. rewrite Hfl in Hg. apply elem_of_app in Hg as [Hg|Hg].
  - apply HP in Hg. lia.
  - rewrite Forall_forall in Hnew. apply Hnew in Hg. lia.
Qed.

Lemma Bound_later G f t c lo hi st1 st2 :
  Bound G f t c st1 -> Foot lo hi st1 st2 ->
  (c < next st1)%nat -> ~ (lo <= c < hi)%nat -> Bound G f t c st2.
Proof.
  intros [HL Hown] (Hn & _ & new & Hfl & Hnew) Hc Hout. unfold Bound. rewrite Hfl. split.
  - intros Hb. apply Lookup_app_Some. auto.
  - intros g Hg Hptr. apply elem_of_app in Hg as [Hg|Hg]; [now apply Hown|].
    rewrite Forall_forall in Hnew. apply Hnew in Hg. lia.
Qed.

(** A field registered by one step stays registered through a later
    step on another part of the struct. *)
Lemma Registered_later G f p lo hi st st1 st2 r1 r2 :
  Registered G f p st st1 r1 ->
  Foot lo hi st1 st2 -> afs_in lo hi st1 st2 (Ok r2) ->
  (p < next st)%nat -> (hi <= next st)%nat -> ~ (lo <= p < hi)%nat ->
  (next st <= next st1)%nat ->
  Registered G f p st st2 (r1 ++ r2).
Proof.
  intros HR F Q Hp Hhi Hout Hmono. pose proof F as (Hn & Hframe & new & Hfl & Hnew).
  specialize (Q _ eq_refl). rewrite Forall_forall in Q. rewrite Forall_forall in Hnew.
  unfold Registered in *. destruct (is_time (Type_ f)).
  - destruct HR as (sv & Hsv & Hcell & Hfield & HB & Hnop & Hin & Huniq).
    exists sv. split_and!.
    + lia.
    + lia.
    + rewrite Hframe by lia. exact Hcell.
    + rewrite Hframe by lia. exact Hfield.
    + eapply Bound_later; eauto; lia.
    + intros g Hg. rewrite Hfl in Hg. apply elem_of_app in Hg as [Hg|Hg]; [auto|].
      apply Hnew in Hg. lia.
    + apply elem_of_app. now left.
    + intros af Haf Hf. apply elem_of_app in Haf as [Haf|Haf]; [auto|].
      apply Q in Haf. lia.
  - destruct HR as (Hval & HB & Hafs). split_and!.
    + destruct (typed_value f (effective G f)) as [[e|v0]|]; auto.
      * rewrite Hframe by lia. exact Hval.
      * rewrite Hframe by lia. exact Hval.
    + eapply Bound_later; eauto; lia.
    + intros af Haf. apply elem_of_app in Haf as [Haf|Haf]; [auto|].
      apply Q in Haf. lia.
Qed.

(** A field registered by a later step was registered by the whole. *)
Lemma Registered_earlier G f p lo hi st st1 st2 r1 r2 :
  Registered G f p st1 st2 r2 ->
  Foot lo hi st st1 -> afs_in lo hi st st1 (Ok r1) ->
  (p < next st)%nat -> ~ (lo <= p < hi)%nat ->
  Registered G f p st st2 (r1 ++ r2).
Proof.
  intros HR F Q Hp Hout. pose proof F as (Hn & Hframe & new & Hfl & Hnew).
  specialize (Q _ eq_refl). rewrite Forall_forall in Q.
  unfold Registered in *. destruct (is_time (Type_ f)).
  - destruct HR as (sv & Hsv & Hcell & Hfield & HB & Hnop & Hin & Huniq).
    exists sv. split_and!; auto.
    + lia.
    + lia.
    + rewrite Hfield. now apply Hframe.
    + apply elem_of_app. now right.
    + intros af Haf Hf. apply elem_of_app in Haf as [Haf|Haf]; [|auto].
      apply Q in Haf. lia.
  - destruct HR as (Hval & HB & Hafs). split_and!; auto.
    + destruct (typed_value f (effective G f)) as [[e|v0]|]; auto.
      rewrite Hval. now apply Hframe.
    + intros af Haf. apply elem_of_app in Haf as [Haf|Haf]; [|auto].
      apply Q in Haf. lia.
Qed.

Lemma execStruct_fields G fields base :
  execStruct G (TStruct fields) base = for_fields (exec_body G) fields base.
Proof. reflexivity. Qed.

Lemma queues_exec_body G f p : queues p (p + sizeof (Type_ f)) (exec_body G f p).
Proof.
  unfold exec_body. destruct (skipped f).
  { apply queues_nil; [apply touches_ret | now intros st st' afs [= _ <-]]. }
  destruct (Type_ f) eqn:ET; try (apply queues_execLeaf; simpl; lia).
  apply queues_execStruct.
Qed.

Lemma queues_fields G fields base :
  queues base (base + fields_size fields) (for_fields (exec_body G) fields base).
Proof.
  apply queues_for_fields. apply Forall_forall. intros f _ p. apply queues_exec_body.
Qed.

Lemma exec_body_leaf G f p :
  (forall sub, Type_ f <> TStruct sub) -> skipped f = false ->
  exec_body G f p = execLeaf G f p.
Proof.
  intros Hleaf Hs. unfold exec_body. rewrite Hs.
  destruct (Type_ f); auto. now destruct (Hleaf fields).
Qed.

Lemma exec_body_struct G n tg sub p :
  exec_body G (mkField n tg (TStruct sub)) p = for_fields (exec_body G) sub p.
Proof.
  unfold exec_body, skipped. cbn [Type_ is_struct_kind kind_of negb].
  now rewrite andb_false_r.
Qed.

Lemma for_fields_cons_ok {A} (body : StructField -> nat -> M (list A)) f rest base st st' afs :
  for_fields body (f :: rest) base st = (st', Ok afs) ->
  exists st1 r1 r2, body f base st = (st1, Ok r1) /\
    for_fields body rest (base + sizeof (Type_ f)) st1 = (st', Ok r2) /\
    afs = (r1 ++ r2)%list.
Proof.
  cbn [for_fields]. unfold bind, ret.
  destruct (body f base st) as [st1 [e|r1]]; [discriminate|].
  destruct (for_fields body rest _ st1) as [st2 [e|r2]] eqn:E2; [discriminate|].
  intros [= <- <-]. exists st1, r1, r2. auto.
Qed.

Lemma for_fields_registers G fields base f p :
  FieldAt fields base f p -> skipped f = false ->
  forall st st' afs,
    Pre base (base + fields_size fields) st ->
    for_fields (exec_body G) fields base st = (st', Ok afs) ->
    Registered G f p st st' afs.
Proof.
  induction 1 as [f rest base Hleaf | n tg sub rest base f p HA IH | f0 rest base f p HA IH];
    intros Hskip st st' afs HPre E;
    apply for_fields_cons_ok in E as (st1 & r1 & r2 & E1 & E2 & ->);
    pose proof (queues_exec_body _ _ _ _ _ _ E1) as [F1 Q1];
    pose proof (queues_fields _ _ _ _ _ _ E2) as [F2 Q2];
    unfold fields_size in HPre; simpl in HPre; fold (fields_size rest) in HPre;
    pose proof HPre as [Hhi _].
  - rewrite exec_body_leaf in E1 by auto.
    rewrite (leaf_size _ Hleaf) in *.
    eapply Registered_later; [| exact F2 | exact Q2 | | | |].
    + eapply execLeaf_registers; eauto. eapply Pre_narrow; [| |exact HPre]; lia.
    + lia.
    + lia.
    + lia.
    + now apply Foot_next in F1.
  - rewrite exec_body_struct in E1.
    simpl in *. fold (fields_size sub) in *.
    pose proof (FieldAt_range _ _ _ _ HA).
    eapply Registered_later; [| exact F2 | exact Q2 | | | |].
    + apply (IH Hskip st st1 r1); [|exact E1].
      eapply Pre_narrow; [| |exact HPre]; lia.
    + lia.
    + lia.
    + lia.
    + now apply Foot_next in F1.
  - pose proof (FieldAt_range _ _ _ _ HA).
    eapply Registered_earlier; [| exact F1 | exact Q1 | |].
    + apply (IH Hskip st1 st' r2); [|exact E2].
      rewrite <- Nat.add_assoc. eapply Pre_step; [| exact HPre | exact F1]. lia.
    + lia.
    + lia.
Qed.

(** * The command line *)

Lemma mark_value_keeps : keeps_binding mark_value.
Proof. now intros fl. Qed.

Lemma mark_changed_keeps : keeps_binding mark_changed.
Proof. now intros fl. Qed.

Lemma remark_keeps name upd : keeps_binding upd -> keeps_binding (remark name upd).
Proof.
  intros Hk fl. unfold remark. destruct (String.eqb _ _); [apply Hk|auto].
Qed.

Lemma elem_of_remarked name upd fs g' :
  keeps_binding upd -> g' ∈ map (remark name upd) fs ->
  exists g, g ∈ fs /\ flag_name g' = flag_name g /\ flag_ptr g' = flag_ptr g.
Proof.
  intros Hk Hg. apply list_elem_of_fmap in Hg as (g & -> & Hg).
  exists g. split; [exact Hg|]. now apply remark_keeps.
Qed.

Lemma Lookup_remarked_ne name name' upd fs :
  keeps_binding upd -> name <> name' ->
  Lookup name (map (remark name' upd) fs) = Lookup name fs.
Proof.
  intros Hk Hne. unfold Lookup. induction fs as [|g fs IH]; simpl; [reflexivity|].
  destruct (remark_keeps name' upd Hk g) as [-> _].
  destruct (String.eqb_spec (flag_name g) name) as [Hn|Hn]; [|exact IH].
  unfold remark. destruct (String.eqb_spec (flag_name g) name'); [congruence|reflexivity].
Qed.

Lemma Value_Set_cases fl text st st' r :
  Value_Set fl text st = (st', r) ->
  (st' = st /\ exists e, r = Err e) \/
  (exists v, set_value (flag_type fl) (value_changed fl) (heap st !! flag_ptr fl) text = Ok v /\
     r = Ok tt /\
     st' = mkState (<[flag_ptr fl:=v]> (heap st)) (next st)
                   (map (remark (flag_name fl) mark_value) (flagset st))).
Proof.
  unfold Value_Set, bind, get, lift, store, update_flag. simpl.
  destruct (set_value _ _ _ _) as [e|v].
  - intros [= <- <-]. left. eauto.
  - intros [= <- <-]. right. exists v. auto.
Qed.

Lemma FlagSet_Set_cases name text st st' r :
  FlagSet_Set name text st = (st', r) ->
  (st' = st /\ exists e, r = Err e) \/
  (exists fl v, Lookup name (flagset st) = Some fl /\
     set_value (flag_type fl) (value_changed fl) (heap st !! flag_ptr fl) text = Ok v /\
     r = Ok tt /\
     st' = mkState (<[flag_ptr fl:=v]> (heap st)) (next st)
             (map (remark name mark_changed)
                  (map (remark name mark_value) (flagset st)))).
Proof.
  unfold FlagSet_Set. unfold bind at 1. unfold get. cbn [fst snd].
  destruct (Lookup name (flagset st)) as [fl|] eqn:EL.
  - unfold bind, wrap.
    destruct (Value_Set fl text st) as [s1 [e|[]]] eqn:EV;
      apply Value_Set_cases in EV as [[-> [e' He]]|(v & Hv & Hr & ->)];
      try discriminate.
    + intros [= <- <-]. left. eauto.
    + unfold update_flag. simpl. intros [= <- <-]. right.
      apply Lookup_elem in EL as HL. destruct HL as [_ <-].
      exists fl, v. auto.
  - intros [= <- <-]. left. eauto.
Qed.

Lemma Parse_quiet a args : forall st st' r,
  quiet a args (flagset st) ->
  FlagSet_Parse args st = (st', r) ->
  heap st' !! a = heap st !! a.
Proof.
  induction args as [|[name text] rest IH]; intros st st' r Hq.
  - now intros [= <- _].
  - cbn [FlagSet_Parse]. unfold bind.
    destruct (FlagSet_Set name text st) as [s1 [e|[]]] eqn:ES.
    + intros [= <- _]. now apply FlagSet_Set_cases in ES as [[-> _]|(? & ? & _ & _ & ? & _)].
    + intros EP.
      apply FlagSet_Set_cases in ES as [[_ [e He]]|(fl & v & HL & Hv & _ & ->)];
        [discriminate|].
      apply Lookup_elem in HL as [Hin Hname].
      rewrite (fun Q => IH _ _ _ Q EP); simpl.
      * apply lookup_insert_ne. intros Heq.
        specialize (Hq fl Hin Heq). simpl in Hq. rewrite Hname, String.eqb_refl in Hq.
        discriminate.
      * intros g' Hg' Hptr.
        apply elem_of_remarked in Hg' as (g1 & Hg1 & Hn1 & Hp1); [|apply mark_changed_keeps].
        apply elem_of_remarked in Hg1 as (g & Hg & Hn & Hp); [|apply mark_value_keeps].
        rewrite Hn1, Hn. specialize (Hq g Hg ltac:(congruence)). simpl in Hq.
        destruct (String.eqb name (flag_name g)); [discriminate|exact Hq].
Qed.

Lemma owned_remarked c n name fs :
  owned c n fs ->
  owned c n (map (remark name mark_changed) (map (remark name mark_value) fs)).
Proof.
  intros Ho g' Hg' Hptr.
  apply elem_of_remarked in Hg' as (g1 & Hg1 & Hn1 & Hp1); [|apply mark_changed_keeps].
  apply elem_of_remarked in Hg1 as (g & Hg & Hn & Hp); [|apply mark_value_keeps].
  rewrite Hn1, Hn. apply Ho; [exact Hg|congruence].
Qed.

Lemma owned_quiet c n args fs :
  owned c n fs -> supplied n args = [] -> quiet c args fs.
Proof. intros Ho Hs g Hg Hptr. now rewrite (Ho g Hg Hptr). Qed.

Lemma Parse_once c n args : forall st st' fl a,
  owned c n (flagset st) ->
  Lookup n (flagset st) = Some fl -> flag_ptr fl = c ->
  supplied n args = [a] ->
  FlagSet_Parse args st = (st', Ok tt) ->
  exists v, set_value (flag_type fl) (value_changed fl) (heap st !! c) a = Ok v
            /\ heap st' !! c = Some v.
Proof.
  induction args as [|[name text] rest IH]; intros st st' fl a Ho HL Hc Hs; [discriminate|].
  cbn [FlagSet_Parse]. unfold bind.
  destruct (FlagSet_Set name text st) as [s1 [e|[]]] eqn:ES; [discriminate|].
  intros EP.
  apply FlagSet_Set_cases in ES as [[_ [e He]]|(fl0 & v & HL0 & Hv & _ & ->)];
    [discriminate|].
  simpl in Hs. destruct (String.eqb_spec name n) as [->|Hne].
  - injection Hs as -> Hs. rewrite HL in HL0. injection HL0 as <-.
    exists v. subst c. split; [exact Hv|].
    pose proof (owned_quiet _ _ _ _ (owned_remarked _ _ n _ Ho) Hs) as Hq.
    rewrite (Parse_quiet (flag_ptr fl) rest (mkState _ _ _) _ _ Hq EP).
    simpl. apply lookup_insert_eq.
  - apply Lookup_elem in HL0 as HL0'. destruct HL0' as [Hin0 Hn0].
    assert (Hptr : flag_ptr fl0 <> c).
    { intros Hp. apply Hne. rewrite <- Hn0. now apply Ho. }
    assert (HL' : Lookup n (map (remark name mark_changed)
                              (map (remark name mark_value) (flagset st))) = Some fl).
    { rewrite !Lookup_remarked_ne; auto using mark_changed_keeps, mark_value_keeps. }
    destruct (IH (mkState _ _ _) _ fl a (owned_remarked c n name _ Ho) HL' Hc Hs EP)
      as (v' & Hv' & Hh).
    simpl in Hv'. rewrite lookup_insert_ne in Hv' by exact Hptr.
    exists v'. auto.
Qed.

(** * The deferred actions *)

Lemma run_afterFunc_cases G af st st' r :
  run_afterFunc G af st = (st', r) ->
  let text := match heap st !! after_sVar af with Some (VString s) => s | _ => "" end in
  match time_value G text with
  | Ok None => st' = st /\ r = Ok tt
  | Ok (Some t) =>
      st' = mkState (<[after_field af:=VTime t]> (heap st)) (next st) (flagset st)
      /\ r = Ok tt
  | Err e => st' = st /\ r = Err e
  end.
Proof.
  unfold run_afterFunc, time_value, bind, get, ret, fail, store. cbn [fst snd].
  destruct (negb (nonempty _)).
  - now intros [= <- <-].
  - destruct (strconv.ParseInt _ 64) as [e|ts].
    + destruct (first_format _ _); now intros [= <- <-].
    + now intros [= <- <-].
Qed.

Lemma afters_frame G a afs : forall st st' r,
  (forall af, af ∈ afs -> after_field af <> a) ->
  run_afterFuncs G afs st = (st', r) ->
  heap st' !! a = heap st !! a.
Proof.
  induction afs as [|af rest IH]; intros st st' r Hne.
  - now intros [= <- _].
  - cbn [run_afterFuncs]. unfold bind.
    destruct (run_afterFunc G af st) as [s1 [e|[]]] eqn:E1;
      apply run_afterFunc_cases in E1; cbv zeta in E1;
      destruct (time_value G _) as [e'|[t|]]; destruct E1 as [-> E1]; try discriminate.
    + now intros [= <- _].
    + intros EP. rewrite (IH _ _ _ ltac:(intros; apply Hne; now right) EP). simpl.
      apply lookup_insert_ne. apply Hne. now left.
    + intros EP. apply (IH _ _ _ ltac:(intros; apply Hne; now right) EP).
Qed.

Section OneTimeField.

Variables (G : Globals) (p sv : nat) (text : string) (h0 : option Val).

Lemma after_step af st s1 :
  run_afterFunc G af st = (s1, Ok tt) ->
  heap st !! sv = Some (VString text) -> for_field p sv af ->
  heap s1 !! sv = Some (VString text) /\
  (after_field af <> p -> heap s1 !! p = heap st !! p) /\
  (after_field af = p ->
   exists ot, time_value G text = Ok ot /\ heap s1 !! p = time_target ot (heap st !! p)).
Proof.
  intros E Hcell [Hsv Hne]. apply run_afterFunc_cases in E. cbv zeta in E.
  destruct (time_value G _) as [e|[t|]] eqn:ET; destruct E as [-> E]; try discriminate.
  - simpl. split_and!.
    + now rewrite lookup_insert_ne.
    + intros Hp. now rewrite lookup_insert_ne.
    + intros Hp. rewrite (Hsv Hp), Hcell in ET. exists (Some t). split; [exact ET|].
      rewrite Hp. apply lookup_insert_eq.
  - split_and!; auto.
    intros Hp. rewrite (Hsv Hp), Hcell in ET. exists None. auto.
Qed.

Lemma afters_settled afs : forall st st',
  Forall (for_field p sv) afs -> heap st !! sv = Some (VString text) -> settled G p text h0 st ->
  run_afterFuncs G afs st = (st', Ok tt) -> settled G p text h0 st'.
Proof.
  induction afs as [|af rest IH]; intros st st' Hall Hcell Hs.
  - now intros [= <-].
  - cbn [run_afterFuncs]. unfold bind.
    destruct (run_afterFunc G af st) as [s1 [e|[]]] eqn:E1; [discriminate|].
    apply Forall_cons in Hall as [Haf Hall].
    destruct (after_step _ _ _ E1 Hcell Haf) as (Hc1 & Hother & Hthis).
    apply IH; auto.
    destruct Hs as (ot & Hot & Hp).
    destruct (decide (after_field af = p)) as [Heq|Hne].
    + destruct (Hthis Heq) as (ot' & Hot' & Hp'). exists ot. split; [exact Hot|].
      rewrite Hot in Hot'. injection Hot' as <-. rewrite Hp', Hp. now destruct ot.
    + exists ot. split; [exact Hot|]. now rewrite Hother.
Qed.

Lemma afters_settle afs : forall st st',
  Forall (for_field p sv) afs -> heap st !! sv = Some (VString text) -> heap st !! p = h0 ->
  mkAfter p sv ∈ afs ->
  run_afterFuncs G afs st = (st', Ok tt) -> settled G p text h0 st'.
Proof.
  induction afs as [|af rest IH]; intros st st' Hall Hcell Hp Hin.
  - now apply elem_of_nil in Hin.
  - cbn [run_afterFuncs]. unfold bind.
    destruct (run_afterFunc G af st) as [s1 [e|[]]] eqn:E1; [discriminate|].
    apply Forall_cons in Hall as [Haf Hall].
    destruct (after_step _ _ _ E1 Hcell Haf) as (Hc1 & Hother & Hthis).
    destruct (decide (after_field af = p)) as [Heq|Hne].
    + destruct (Hthis Heq) as (ot & Hot & Hp'). rewrite Hp in Hp'.
      apply afters_settled; auto. now exists ot.
    + apply IH; auto.
      * now rewrite Hother.
      * apply elem_of_cons in Hin as [<-|Hin]; [now destruct Hne|exact Hin].
Qed.

End OneTimeField.

(** * Fields by path *)

Lemma field_at_FieldAt path : forall fields base f p,
  field_at fields base path = Some (f, p) -> FieldAt fields base f p.
Proof.
  induction path as [|i deeper IH]; intros fields base f p; [discriminate|].
  revert fields base. induction i as [|j IHj]; intros [|f0 rest] base; try discriminate.
  - cbn [field_at nth_field]. destruct f0 as [n tg t]. cbn [Type_].
    destruct t, deeper; try discriminate;
      try (intros [= <- <-]; apply FieldAt_here; cbn [Type_]; intros sub; discriminate).
    intros E. apply FieldAt_inside. now apply IH.
  - intros E. apply FieldAt_later. apply IHj. exact E.
Qed.

(** * Single-pass resolution, end to end *)

Lemma parse_ok G fields b args st0 st' :
  parse G (Pointer (TStruct fields) b) args st0 = (st', Ok tt) ->
  exists st1 afs st2,
    for_fields (exec_body G) fields b (mkState (heap st0) (next st0) []) = (st1, Ok afs) /\
    FlagSet_Parse args st1 = (st2, Ok tt) /\
    run_afterFuncs G afs st2 = (st', Ok tt).
Proof.
  unfold parse, execTags. cbn [is_struct_kind kind_of]. rewrite execStruct_fields.
  unfold bind at 1. unfold set_flagset. cbn [fst snd]. unfold bind at 1.
  destruct (for_fields _ _ _ _) as [st1 [e|afs]] eqn:E1; [discriminate|].
  unfold bind.
  destruct (FlagSet_Parse args st1) as [st2 [e|[]]] eqn:E2; [discriminate|].
  intros E3. exists st1, afs, st2. auto.
Qed.

Lemma Pre_fresh lo hi h n : (hi <= n)%nat -> Pre lo hi (mkState h n []).
Proof. intros Hn. split; [exact Hn|]. intros g Hg. now apply elem_of_nil in Hg. Qed.

Lemma bound_typed f text :
  flag_bound f = true -> is_time (Type_ f) = false -> typed_value f text <> None.
Proof.
  unfold flag_bound, typed_value.
  destruct (Type_ f) as [| | k | k | k | | | e | fields |]; try discriminate.
  destruct e as [| | [] | | | | | | |]; discriminate.
Qed.

Lemma Bound_owned G f t c st : Bound G f t c st -> owned c (flag_name_of f) (flagset st).
Proof. intros [_ Ho] g Hg Hc. now apply Ho. Qed.

Lemma Bound_quiet G f t c st args :
  Bound G f t c st ->
  flag_bound f = false \/ supplied (flag_name_of f) args = [] ->
  quiet c args (flagset st).
Proof.
  intros [_ Ho] Hcase g Hg Hc. destruct (Ho g Hg Hc) as [Hb ->].
  destruct Hcase as [Hu|Hs]; [congruence|exact Hs].
Qed.

Lemma unpointed_quiet c args fs :
  (forall g, g ∈ fs -> flag_ptr g <> c) -> quiet c args fs.
Proof. intros Hn g Hg Hc. now apply Hn in Hg. Qed.

Lemma Parse_next args : forall st st' r,
  FlagSet_Parse args st = (st', r) -> next st' = next st.
Proof.
  induction args as [|[name text] rest IH]; intros st st' r.
  - now intros [= <- _].
  - cbn [FlagSet_Parse]. unfold bind.
    destruct (FlagSet_Set name text st) as [s1 [e|[]]] eqn:ES;
      apply FlagSet_Set_cases in ES as [[-> [e' He]]|(fl & v & _ & _ & Hr & ->)];
      try discriminate.
    + now intros [= <- _].
    + intros EP. now apply IH in EP.
Qed.

Theorem parse_resolves G fields b path f p args st0 st' :
  field_at fields b path = Some (f, p) ->
  skipped f = false ->
  (b + fields_size fields <= next st0)%nat ->
  parse G (Pointer (TStruct fields) b) args st0 = (st', Ok tt) ->
  (flag_bound f = false \/ supplied (flag_name_of f) args = [] ->
   field_holds G f (effective G f) (heap st0 !! p) (heap st' !! p)) /\
  (flag_bound f = true ->
   forall a, supplied (flag_name_of f) args = [a] ->
   flag_holds G f a (heap st0 !! p) (heap st' !! p)).
Proof.
  intros Hat Hskip Hn Hparse.
  apply field_at_FieldAt in Hat.
  apply parse_ok in Hparse as (st1 & afs & st2 & E1 & E2 & E3).
  pose proof (for_fields_registers G _ _ _ _ Hat Hskip _ _ _
                (Pre_fresh _ _ (heap st0) _ Hn) E1) as HR.
  pose proof (queues_fields G _ _ _ _ _ E1) as [F1 Q1].
  specialize (Q1 _ eq_refl). rewrite Forall_forall in Q1. simpl in Q1.
  pose proof (FieldAt_range _ _ _ _ Hat) as Hp.
  unfold Registered, field_holds, flag_holds in *.
  destruct (is_time (Type_ f)) eqn:Htime.
  - (* a timestamp: the text is in the string variable *)
    destruct HR as (sv & Hsv & Hcell & Hfield & HB & Hnop & Hin & Huniq).
    simpl in Hsv, Hfield.
    assert (Hall : Forall (for_field p sv) afs).
    { apply Forall_forall. intros af Haf. split; [now apply Huniq|].
      apply Q1 in Haf. lia. }
    assert (Hp2 : heap st2 !! p = heap st0 !! p).
    { rewrite <- Hfield. eapply Parse_quiet; [|exact E2].
      now apply unpointed_quiet. }
    split.
    + intros Hcase.
      assert (Hc2 : heap st2 !! sv = Some (VString (effective G f))).
      { rewrite <- Hcell. eapply Parse_quiet; [|exact E2].
        eapply Bound_quiet; eauto. }
      exact (afters_settle G p sv _ _ afs st2 st' Hall Hc2 Hp2 Hin E3).
    + intros Hb a Ha.
      destruct HB as [HL Ho]. specialize (HL Hb).
      destruct (Parse_once sv (flag_name_of f) args st1 st2 _ a
                  (fun g Hg Hc => proj2 (Ho g Hg Hc)) HL eq_refl Ha E2)
        as (v & Hv & Hc2).
      simpl in Hv. injection Hv as <-.
      exact (afters_settle G p sv _ _ afs st2 st' Hall Hc2 Hp2 Hin E3).
  - destruct HR as (Hval & HB & Hafs).
    assert (H3 : heap st' !! p = heap st2 !! p).
    { eapply afters_frame; [|exact E3]. exact Hafs. }
    rewrite H3. split.
    + intros Hcase.
      assert (H2 : heap st2 !! p = heap st1 !! p).
      { eapply Parse_quiet; [|exact E2]. eapply Bound_quiet; eauto. }
      rewrite H2. destruct (typed_value f (effective G f)) as [[e|v0]|]; auto.
    + intros Hb a Ha.
      destruct (typed_value f (effective G f)) as [[e|v0]|] eqn:ETV.
      * destruct Hval.
      * destruct HB as [HL Ho]. specialize (HL Hb).
        destruct (Parse_once p (flag_name_of f) args st1 st2 _ a
                    (fun g Hg Hc => proj2 (Ho g Hg Hc)) HL eq_refl Ha E2)
          as (v & Hv & Hc2).
        simpl in Hv. rewrite Hval in Hv. exists v0, v. auto.
      * now apply (bound_typed f (effective G f)) in Hb.
Qed.

End SinglePass.


Section TwoPhase.

Context `{FV : FlagValues}.

(** * Two-phase mode: what [applyEnvAndDefaults] leaves alone *)

Lemma guarded_all_refl n fs : Forall2 (guarded n) fs fs.
Proof. induction fs; constructor; [now left|assumption]. Qed.

Lemma guarded_trans n g g1 g2 : guarded n g g1 -> guarded n g1 g2 -> guarded n g g2.
Proof.
  intros [->|[Hn ->]] [->|[Hn' ->]]; unfold guarded; auto.
Qed.

Lemma guarded_all_trans n fs fs1 fs2 :
  Forall2 (guarded n) fs fs1 -> Forall2 (guarded n) fs1 fs2 -> Forall2 (guarded n) fs fs2.
Proof.
  intros H1. revert fs2. induction H1 as [|g g1 fs fs1 Hg H1 IH]; intros fs2 H2.
  - inversion H2. constructor.
  - inversion H2 as [|? g2 ? fs2' Hg2 H2']; subst. constructor.
    + eapply guarded_trans; eauto.
    + auto.
Qed.

Lemma guarded_Lookup n fs fs' :
  Forall2 (guarded n) fs fs' -> Lookup n fs' = Lookup n fs.
Proof.
  unfold Lookup. induction 1 as [|g g' fs fs' Hg _ IH]; simpl; [reflexivity|].
  destruct Hg as [->|[Hn ->]].
  - now rewrite IH.
  - simpl. destruct (String.eqb_spec (flag_name g) n); [contradiction|exact IH].
Qed.

Lemma guarded_unchanged n fs fs' g' :
  Forall2 (guarded n) fs fs' -> g' ∈ fs' -> flag_changed g' = false ->
  exists g, g ∈ fs /\ flag_changed g = false /\ flag_ptr g = flag_ptr g'.
Proof.
  induction 1 as [|g g1 fs fs' Hg _ IH]; intros Hin Hc.
  - now apply elem_of_nil in Hin.
  - apply elem_of_cons in Hin as [->|Hin].
    + exists g. split; [left|]. destruct Hg as [->|[_ ->]]; auto.
    + destruct (IH Hin Hc) as (g0 & Hg0 & ?). exists g0. split; [now right|auto].
Qed.

Lemma Keeps_refl n W st : Keeps n W st st.
Proof. split_and!; auto. apply guarded_all_refl. Qed.

Lemma Keeps_trans n (W1 W2 W : nat -> Prop) st st1 st2 :
  (forall a, W1 a -> W a) -> (forall a, W2 a -> W a) ->
  Keeps n W1 st st1 -> Keeps n W2 st1 st2 -> Keeps n W st st2.
Proof.
  intros H1 H2 (Hn1 & R1 & F1) (Hn2 & R2 & F2). split_and!.
  - congruence.
  - eapply guarded_all_trans; eauto.
  - intros a Ha Hfl. rewrite F2, F1; auto.
    intros g1 Hg1 Hc1.
    destruct (guarded_unchanged _ _ _ _ R1 Hg1 Hc1) as (g & Hg & Hc & <-). auto.
Qed.

Lemma Keeps_widen n (W1 W : nat -> Prop) st st' :
  (forall a, W1 a -> W a) -> Keeps n W1 st st' -> Keeps n W st st'.
Proof.
  intros HW K. eapply (Keeps_trans n W1 W1 W); eauto. apply Keeps_refl.
Qed.

Lemma setFieldValue_cases G p t value st st' r :
  setFieldValue G p t value st = (st', r) ->
  st' = st \/ exists v, st' = mkState (<[p:=v]> (heap st)) (next st) (flagset st).
Proof.
  unfold setFieldValue.
  destruct t; unfold bind, lift, store, ret, fail;
    repeat (match goal with
            | |- context [match ?x with _ => _ end] => destruct x
            end);
    intros [= <- _]; eauto.
Qed.

Lemma remark_guarded n name fs :
  name <> n -> Forall2 (guarded n) fs (map (remark name mark_value) fs).
Proof.
  intros Hne. induction fs as [|g fs IH]; simpl; constructor; auto.
  unfold remark. destruct (String.eqb_spec (flag_name g) name).
  - right. split; [congruence|reflexivity].
  - now left.
Qed.

Section Protected.

Variables (G : Globals) (n : string) (fl0 : Flag).
Hypothesis changed0 : flag_changed fl0 = true.

Lemma Keeps_protected W st st' : Keeps n W st st' -> protected n fl0 st -> protected n fl0 st'.
Proof. intros (_ & R & _) Hp. unfold protected. now rewrite (guarded_Lookup _ _ _ R). Qed.

Lemma applyLeaf_keeps f p st st' r :
  protected n fl0 st -> applyLeaf G f p st = (st', r) -> Keeps n (fun a => a = p) st st'.
Proof.
  intros Hprot. unfold applyLeaf. unfold bind at 1. unfold get. cbn [fst snd].
  destruct (if nonempty (tag_flag (Tag f)) then _ else None) as [flag|] eqn:EL.
  - destruct (flag_changed flag) eqn:EC.
    + intros [= <- _]. apply Keeps_refl.
    + unfold wrap.
      destruct (Value_Set flag _ st) as [s1 [e|[]]] eqn:EV;
        apply Value_Set_cases in EV as [[-> [e' He]]|(v & Hv & Hr & ->)];
        try discriminate; intros [= <- _]; try apply Keeps_refl.
      destruct (nonempty (tag_flag (Tag f))); [|discriminate].
      apply Lookup_elem in EL as HL. destruct HL as [Hin Hname].
      split_and!; simpl; auto.
      * apply remark_guarded. intros Heq. rewrite Hname in Heq.
        rewrite Heq in EL. unfold protected in Hprot. rewrite EL in Hprot.
        injection Hprot as ->. congruence.
      * intros a _ Hfl. apply lookup_insert_ne. now apply Hfl.
  - unfold wrap.
    destruct (setFieldValue G p _ _ st) as [s1 [e|[]]] eqn:ES;
      apply setFieldValue_cases in ES as [->|[v ->]]; intros [= <- _];
      try apply Keeps_refl.
    all: split_and!; simpl; auto using guarded_all_refl.
    all: intros a Ha _; apply lookup_insert_ne; congruence.
Qed.

Lemma applyEnv_fields fields base :
  applyEnvAndDefaults G (TStruct fields) base = each_field (apply_body G) fields base.
Proof. reflexivity. Qed.

Lemma each_field_keeps (body : StructField -> nat -> M unit) fields :
  Forall (fun f => forall p st st' r, protected n fl0 st -> body f p st = (st', r) ->
                   Keeps n (within p (sizeof (Type_ f))) st st') fields ->
  forall base st st' r, protected n fl0 st ->
    each_field body fields base st = (st', r) ->
    Keeps n (within base (fields_size fields)) st st'.
Proof.
  induction 1 as [|f rest Hf _ IH]; intros base st st' r Hprot.
  - intros [= <- _]. apply Keeps_refl.
  - cbn [each_field]. unfold bind.
    unfold fields_size. simpl. fold (fields_size rest).
    destruct (body f base st) as [s1 [e|[]]] eqn:E1.
    + intros [= <- _]. eapply Keeps_widen; [|eapply Hf; eauto].
      unfold within. intros a. lia.
    + intros E2. pose proof (Hf _ _ _ _ Hprot E1) as K1.
      eapply Keeps_trans; [| |exact K1|eapply IH; [|exact E2]].
      * unfold within. intros a. lia.
      * unfold within. intros a. lia.
      * eapply Keeps_protected; eauto.
Qed.

Lemma applyLeaf_within f p st st' r :
  (forall sub, Type_ f <> TStruct sub) ->
  protected n fl0 st -> applyLeaf G f p st = (st', r) ->
  Keeps n (within p (sizeof (Type_ f))) st st'.
Proof.
  intros Hleaf Hprot E. eapply Keeps_widen; [|eapply applyLeaf_keeps; eauto].
  intros a ->. unfold within. rewrite (leaf_size _ Hleaf). lia.
Qed.

Lemma applyEnv_keeps t : forall base st st' r,
  protected n fl0 st -> applyEnvAndDefaults G t base st = (st', r) ->
  Keeps n (within base (sizeof t)) st st'.
Proof.
  induction t as [| | k | k | k | | | e IHe | fields IH |] using Typ_nested_ind;
    intros base st st' r Hprot;
    try (intros [= <- _]; apply Keeps_refl).
  - (* a bare time.Time *)
    unfold applyEnvAndDefaults, applyTimeInternals, wrap, bind, lift, fail.
    destruct (parseUintForType _ _); intros [= <- _]; apply Keeps_refl.
  - rewrite applyEnv_fields. apply each_field_keeps; [|exact Hprot].
    eapply Forall_impl; [exact IH|]. simpl. intros f Hf p s s' r' Hp.
    unfold apply_body. destruct (Type_ f) eqn:ET;
      try (intros E; rewrite <- ET; eapply applyLeaf_within; eauto;
           rewrite ET; intros sub; discriminate).
    apply Hf. exact Hp.
Qed.

Lemma apply_body_keeps f p st st' r :
  protected n fl0 st -> apply_body G f p st = (st', r) ->
  Keeps n (within p (sizeof (Type_ f))) st st'.
Proof.
  intros Hprot. unfold apply_body. destruct (Type_ f) eqn:ET;
    try (intros E; rewrite <- ET; eapply applyLeaf_within; eauto;
         rewrite ET; intros sub; discriminate).
  now apply applyEnv_keeps.
Qed.

Lemma fields_keep fields base st st' r :
  protected n fl0 st -> each_field (apply_body G) fields base st = (st', r) ->
  Keeps n (within base (fields_size fields)) st st'.
Proof.
  intros Hprot. apply each_field_keeps; [|exact Hprot].
  apply Forall_forall. intros f _ p s s' r'. apply apply_body_keeps.
Qed.

Lemma each_field_cons (body : StructField -> nat -> M unit) f rest base st st' r :
  each_field body (f :: rest) base st = (st', r) ->
  (body f base st = (st', r) /\ exists e, r = Err e) \/
  (exists s1, body f base st = (s1, Ok tt) /\
     each_field body rest (base + sizeof (Type_ f)) s1 = (st', r)).
Proof.
  cbn [each_field]. unfold bind.
  destruct (body f base st) as [s1 [e|[]]].
  - intros [= <- <-]. left. eauto.
  - intros E. right. eauto.
Qed.

Lemma apply_skips fields base f p :
  FieldAt fields base f p ->
  nonempty (tag_flag (Tag f)) = true -> flag_name_of f = n ->
  forall st st' r, protected n fl0 st ->
    each_field (apply_body G) fields base st = (st', r) ->
    Keeps n (fun a => within base (fields_size fields) a /\ a <> p) st st'.
Proof.
  induction 1 as [f rest base Hleaf | nm tg sub rest base f p HA IH | f0 rest base f p HA IH];
    intros Hflag Hname st st' r Hprot E;
    apply each_field_cons in E as [[E1 _]|(s1 & E1 & E2)];
    unfold fields_size; simpl; fold (fields_size rest).
  - (* the field itself, on a failure: impossible, the field is skipped *)
    unfold apply_body in E1. destruct (Type_ f) eqn:ET;
      try (now destruct (Hleaf fields));
      unfold applyLeaf, bind, get in E1; cbn [fst snd] in E1;
      rewrite Hflag in E1; unfold flag_name_of, flag_parts in Hname;
      rewrite Hname, Hprot, changed0 in E1; injection E1 as <- _;
      apply Keeps_refl.
  - assert (s1 = st) as ->.
    { unfold apply_body in E1. destruct (Type_ f) eqn:ET;
        try (now destruct (Hleaf fields));
        unfold applyLeaf, bind, get in E1; cbn [fst snd] in E1;
        rewrite Hflag in E1; unfold flag_name_of, flag_parts in Hname;
        rewrite Hname, Hprot, changed0 in E1; now injection E1. }
    eapply Keeps_widen; [|eapply fields_keep; eauto].
    unfold within. intros a. rewrite (leaf_size _ Hleaf). lia.
  - unfold apply_body in E1. cbn [Type_] in E1. rewrite applyEnv_fields in E1.
    eapply Keeps_widen; [|eapply IH; eauto].
    unfold within. fold (fields_size sub). intros a [H1 H2]. split; [lia|exact H2].
  - unfold apply_body in E1. cbn [Type_] in E1. rewrite applyEnv_fields in E1.
    pose proof (IH Hflag Hname _ _ _ Hprot E1) as K1.
    pose proof (FieldAt_range _ _ _ _ HA) as Hp.
    eapply Keeps_trans; [| |exact K1|eapply fields_keep; [|exact E2]].
    + unfold within. fold (fields_size sub). intros a. lia.
    + unfold within. simpl. fold (fields_size sub). intros a. lia.
    + eapply Keeps_protected; eauto.
  - pose proof (FieldAt_range _ _ _ _ HA) as Hp.
    eapply Keeps_widen; [|eapply apply_body_keeps; eauto].
    unfold within. intros a. lia.
  - pose proof (FieldAt_range _ _ _ _ HA) as Hp.
    pose proof (apply_body_keeps _ _ _ _ _ Hprot E1) as K1.
    eapply Keeps_trans; [| |exact K1|eapply IH; eauto].
    + unfold within. intros a. lia.
    + unfold within. intros a. lia.
    + eapply Keeps_protected; eauto.
Qed.

End Protected.

(** C4 (two-phase non-override).  [ApplyEnvAndDefaults], succeeding or
    not, leaves a field alone whose flag is in the flag set with
    [Changed] set: the field's cell, the variable the flag is bound to
    and the flag itself (value and [Changed] bit) are what they were.
    The two side conditions say that no other, unchanged flag is bound
    to either cell, and that the flag's variable is the field or lies
    outside the struct: they exclude aliasing set up by the caller. *)
Theorem changed_flag_is_kept G fields b path f p fl st st' r :
  field_at fields b path = Some (f, p) ->
  tag_flag (Tag f) <> "" ->
  Lookup (flag_name_of f) (flagset st) = Some fl ->
  flag_changed fl = true ->
  (forall g, g ∈ flagset st -> flag_changed g = false ->
             flag_ptr g <> p /\ flag_ptr g <> flag_ptr fl) ->
  (flag_ptr fl = p \/ ~ (b <= flag_ptr fl < b + fields_size fields)%nat) ->
  ApplyEnvAndDefaults G (Pointer (TStruct fields) b) st = (st', r) ->
  heap st' !! p = heap st !! p /\
  heap st' !! flag_ptr fl = heap st !! flag_ptr fl /\
  Lookup (flag_name_of f) (flagset st') = Some fl.
Proof.
  intros Hat Hflag HL Hc Halias Hvar E.
  apply field_at_FieldAt in Hat. apply nonempty_true in Hflag.
  unfold ApplyEnvAndDefaults in E. cbn [is_struct_kind kind_of] in E.
  rewrite applyEnv_fields in E.
  pose proof (apply_skips G _ fl Hc _ _ _ _ Hat Hflag eq_refl _ _ _ HL E)
    as (_ & R & Hframe).
  split_and!.
  - apply Hframe; [tauto|]. intros g Hg Hu. now apply Halias.
  - apply Hframe.
    + unfold within. intros [Hin Hne]. destruct Hvar as [Hv|Hv]; [congruence|lia].
    + intros g Hg Hu. now apply Halias.
  - now rewrite (guarded_Lookup _ _ _ R).
Qed.

End TwoPhase.


(** * Vocabulary for flattening *)

(** * Proofs *)





Section FoldIns.

Variables (opts : YAMLOptions) (prefix : string).

Let key (e : list string * Scalar) : string := key_from opts prefix (fst e).





End FoldIns.

(** The key the loop builds is the dotted path. *)









(** * Splitting and joining *)









Section Outcomes.

Context `{FV : FlagValues}.

Lemma flag_tag_not_skipped f : tag_flag (Tag f) <> "" -> skipped f = false.
Proof.
  intros Hf. apply nonempty_true in Hf. unfold skipped. rewrite Hf.
  cbn [negb]. now rewrite andb_false_r.
Qed.

Lemma effective_tiers G f :
  tag_env (Tag f) <> "" -> tag_vardefault (Tag f) <> "" ->
  effective G f =
  match LookupEnv G (tag_env (Tag f)) with
  | Some e => e
  | None =>
      match variableDefaults G !! tag_vardefault (Tag f) with
      | Some r => r
      | None => tag_default (Tag f)
      end
  end.
Proof.
  intros He Hv. unfold effective, envDefault, varDefault, env_name.
  apply nonempty_true in He as He'. apply nonempty_true in Hv.
  destruct (String.eqb_spec (tag_env (Tag f)) ""); [contradiction|].
  cbn [andb]. now rewrite He', Hv.
Qed.

(** C1 (four-tier precedence).  Let a field carry a [flag] tag of a
    kind [execTags] binds, an [env] tag and a [vardefault] tag, and let
    [parse] succeed.  If the command line gives the flag once, the field
    holds the value given; given no flag, it holds the value of the
    environment variable when that is set; with the variable unset, the
    registry's value for the [vardefault] key when there is one; and the
    [default] tag otherwise. *)
Theorem four_tier_precedence G fields b path f p args st0 :
  field_at fields b path = Some (f, p) ->
  tag_flag (Tag f) <> "" -> flag_bound f = true ->
  tag_env (Tag f) <> "" -> tag_vardefault (Tag f) <> "" ->
  (b + fields_size fields <= next st0)%nat ->
  snd (parse G (Pointer (TStruct fields) b) args st0) = Ok tt ->
  let st' := fst (parse G (Pointer (TStruct fields) b) args st0) in
  let given := supplied (flag_name_of f) args in
  let env := LookupEnv G (tag_env (Tag f)) in
  let registry := variableDefaults G !! tag_vardefault (Tag f) in
  let holds text := field_holds G f text (heap st0 !! p) (heap st' !! p) in
  (forall a, given = [a] -> flag_holds G f a (heap st0 !! p) (heap st' !! p)) /\
  (given = [] -> forall e, env = Some e -> holds e) /\
  (given = [] -> env = None -> forall r, registry = Some r -> holds r) /\
  (given = [] -> env = None -> registry = None -> holds (tag_default (Tag f))).
Proof.
  intros Hat Hflag Hbound Henv Hvd Hn Hparse st' given env registry holds.
  assert (Hrun : parse G (Pointer (TStruct fields) b) args st0 = (st', Ok tt)).
  { rewrite <- Hparse. apply surjective_pairing. }
  destruct (parse_resolves G fields b path f p args st0 st' Hat
              (flag_tag_not_skipped f Hflag) Hn Hrun) as [Hdef Hset].
  pose proof (effective_tiers G f Henv Hvd) as Heff.
  fold env registry in Heff.
  split_and!.
  - intros a Ha. now apply Hset.
  - intros Hg e He. unfold holds. rewrite He in Heff. rewrite <- Heff. auto.
  - intros Hg He r Hr. unfold holds. rewrite He, Hr in Heff. rewrite <- Heff. auto.
  - intros Hg He Hr. unfold holds. rewrite He, Hr in Heff. rewrite <- Heff. auto.
Qed.


(** A failing field makes the traversal fail. *)
Lemma for_fields_fails G fields base f p :
  FieldAt fields base f p -> skipped f = false ->
  (forall st, is_err (snd (execLeaf G f p st)) = true) ->
  forall st, is_err (snd (for_fields (exec_body G) fields base st)) = true.
Proof.
  induction 1 as [f rest base Hleaf | n tg sub rest base f p HA IH | f0 rest base f p HA IH];
    intros Hskip Hfail st; cbn [for_fields]; unfold bind.
  - rewrite exec_body_leaf by auto. specialize (Hfail st).
    destruct (execLeaf G f base st) as [s1 [e|r1]]; [reflexivity|discriminate].
  - rewrite exec_body_struct. specialize (IH Hskip Hfail st).
    destruct (for_fields (exec_body G) sub base st) as [s1 [e|r1]];
      [reflexivity|discriminate].
  - destruct (exec_body G f0 base st) as [s1 [e|r1]]; [reflexivity|].
    specialize (IH Hskip Hfail s1).
    destruct (for_fields (exec_body G) rest _ s1) as [s2 [e|r2]];
      [reflexivity|discriminate].
Qed.

(** C10 (empty integer slice).  For an [[]int] field that the traversal
    does not skip, an empty effective value makes [execTags] fail with
    the error of [ParseInt] on the empty string wrapped in
    ["parsing int"], and so [parse] fails; whereas the empty value gives
    the empty slice for a [[]string] field and zero for an integer
    field. *)
Theorem empty_int_slice_fails G fields b path f p args st0 :
  field_at fields b path = Some (f, p) ->
  Type_ f = TSlice (TInt Int) -> skipped f = false ->
  effective G f = "" ->
  (forall st, execLeaf G f p st
              = (st, Err (WrapError "parsing int" (NumError "ParseInt" "" ErrSyntax)))) /\
  is_err (snd (parse G (Pointer (TStruct fields) b) args st0)) = true /\
  (forall f', Type_ f' = TSlice TString ->
              typed_value f' "" = Some (Ok (VStringSlice []))) /\
  (forall f' k, Type_ f' = TInt k -> typed_value f' "" = Some (Ok (VInt 0))).
Proof.
  intros Hat Ht Hskip Heff.
  assert (Hleaf : forall st, execLeaf G f p st
            = (st, Err (WrapError "parsing int" (NumError "ParseInt" "" ErrSyntax)))).
  { intros st. unfold execLeaf. rewrite Ht, Heff. reflexivity. }
  split_and!.
  - exact Hleaf.
  - apply field_at_FieldAt in Hat.
    unfold parse, execTags. cbn [is_struct_kind kind_of]. rewrite execStruct_fields.
    unfold bind at 1. unfold set_flagset. cbn [fst snd]. unfold bind at 1.
    assert (Hbad : forall st, is_err (snd (execLeaf G f p st)) = true).
    { intros st. now rewrite Hleaf. }
    pose proof (for_fields_fails G _ _ _ _ Hat Hskip Hbad
                  (mkState (heap st0) (next st0) [])) as Hf.
    destruct (for_fields _ _ _ _) as [s1 [e|afs]]; [reflexivity|discriminate].
  - intros f' Ht'. unfold typed_value. now rewrite Ht'.
  - intros f' k Ht'. unfold typed_value. rewrite Ht'. now destruct k.
Qed.




Lemma to_int_zero k : to_int (int_bits k) 0 = 0%Z.
Proof. now destruct k. Qed.

Lemma to_uint_zero k : to_uint (uint_bits k) 0 = 0%Z.
Proof. now destruct k. Qed.

(** Single pass: the empty text is the zero value. *)
Lemma typed_value_empty f :
  (forall k, Type_ f = TInt k -> typed_value f "" = Some (Ok (VInt 0))) /\
  (forall k, Type_ f = TUint k -> typed_value f "" = Some (Ok (VUint 0))) /\
  (forall k, Type_ f = TFloat k -> is_err (ParseFloat "") = true ->
             typed_value f "" = Some (Ok (VFloat (float_of_kind k float64_zero)))) /\
  (Type_ f = TDuration -> is_err (ParseDuration "") = true ->
   typed_value f "" = Some (Ok (VDuration 0))).
Proof.
  unfold typed_value. split_and!.
  - intros k ->. cbn. now rewrite to_int_zero.
  - intros k ->. cbn. now rewrite to_uint_zero.
  - intros k -> He. destruct (ParseFloat "") eqn:E; [|discriminate]. reflexivity.
  - intros -> He. destruct (ParseDuration "") eqn:E; [|discriminate]. reflexivity.
Qed.

(** Single pass: a text that does not parse and is not empty is an error. *)
Lemma typed_value_malformed f value :
  value <> "" ->
  (forall k e, Type_ f = TInt k -> parseIntForType value k = Err e ->
               typed_value f value = Some (Err (WrapError "parsing int" e))) /\
  (forall k e, Type_ f = TUint k -> parseUintForType value k = Err e ->
               typed_value f value = Some (Err (WrapError "parsing uint" e))) /\
  (forall k e, Type_ f = TFloat k -> ParseFloat value = Err e ->
               typed_value f value = Some (Err (WrapError "parsing float" e))) /\
  (forall e, Type_ f = TDuration -> ParseDuration value = Err e ->
             typed_value f value = Some (Err (WrapError "parsing time.Duration" e))).
Proof.
  intros Hv. apply nonempty_true in Hv. unfold typed_value, or_zero. split_and!.
  - intros k e -> ->. now rewrite Hv.
  - intros k e -> ->. now rewrite Hv.
  - intros k e -> ->. now rewrite Hv.
  - intros e -> ->. now rewrite Hv.
Qed.

(** What [execLeaf] does for a scalar without a flag. *)
Lemma execLeaf_unflagged G f p st :
  tag_flag (Tag f) = "" ->
  (exists k, Type_ f = TInt k) \/ (exists k, Type_ f = TUint k) \/
  (exists k, Type_ f = TFloat k) \/ Type_ f = TDuration ->
  execLeaf G f p st =
  match typed_value f (effective G f) with
  | Some (Ok v) => (mkState (<[p:=v]> (heap st)) (next st) (flagset st), Ok [])
  | Some (Err e) => (st, Err e)
  | None => (st, Ok [])
  end.
Proof.
  intros Hflag Hk. unfold execLeaf, typed_value, bind_or_set. rewrite Hflag. cbn [nonempty String.eqb negb].
  destruct Hk as [[k ->] | [[k ->] | [[k ->] | ->]]]; unfold bind, lift, store, ret;
    match goal with |- context [or_zero ?a ?b ?c ?d] => destruct (or_zero a b c d) end;
    reflexivity.
Qed.

(** Two-phase: [setFieldValue] passes every parse failure on, the one
    on the empty text too. *)
Lemma setFieldValue_scalar G p st value :
  (forall k, setFieldValue G p (TInt k) value st =
             match parseIntForType value k with
             | Ok v => (mkState (<[p:=VInt (to_int (int_bits k) v)]> (heap st))
                                (next st) (flagset st), Ok tt)
             | Err e => (st, Err e)
             end) /\
  (forall k, setFieldValue G p (TUint k) value st =
             match parseUintForType value k with
             | Ok v => (mkState (<[p:=VUint (to_uint (uint_bits k) v)]> (heap st))
                                (next st) (flagset st), Ok tt)
             | Err e => (st, Err e)
             end) /\
  (forall k, setFieldValue G p (TFloat k) value st =
             match ParseFloat value with
             | Ok v => (mkState (<[p:=VFloat (float_of_kind k v)]> (heap st))
                                (next st) (flagset st), Ok tt)
             | Err e => (st, Err e)
             end) /\
  setFieldValue G p TDuration value st =
  match ParseDuration value with
  | Ok v => (mkState (<[p:=VDuration v]> (heap st)) (next st) (flagset st), Ok tt)
  | Err e => (st, Err e)
  end.
Proof.
  unfold setFieldValue, bind, lift, store. split_and!; intros;
    match goal with |- context [match ?x with _ => _ end] => destruct x end; reflexivity.
Qed.

(** C2 (empty-value tolerance), where the code departs from it.  The
    field [Count int] with the tag [env:"COUNT"], in an environment that
    does not set [COUNT], has the empty effective value.  The
    single-pass traversal writes zero and succeeds; [ApplyEnvAndDefaults]
    returns ["setting field Count"] wrapping the error of [ParseInt] on
    the empty string, and writes nothing.  This holds for every integer
    kind, registry and format list.  Likewise the direct write of a
    float or a duration passes on whatever error [ParseFloat] or
    [ParseDuration] gives on the empty string. *)
Theorem two_phase_rejects_empty_number registry formats st k :
  let G := mkGlobals false registry formats ∅ in
  let f := mkField "Count" (mkTag "" "" "COUNT" "" "" "") (TInt k) in
  effective G f = "" /\
  execLeaf G f 0 st
  = (mkState (<[0%nat:=VInt 0]> (heap st)) (next st) (flagset st), Ok []) /\
  ApplyEnvAndDefaults G (Pointer (TStruct [f]) 0) st
  = (st, Err (WrapError "setting field Count" (NumError "ParseInt" "" ErrSyntax))) /\
  (forall p kf e, ParseFloat "" = Err e ->
                  setFieldValue G p (TFloat kf) "" st = (st, Err e)) /\
  (forall p e, ParseDuration "" = Err e ->
               setFieldValue G p TDuration "" st = (st, Err e)).
Proof.
  intros G f.
  assert (Heff : effective G f = "") by reflexivity.
  split_and!.
  - exact Heff.
  - rewrite execLeaf_unflagged; [|reflexivity|left; now exists k].
    rewrite Heff. now rewrite (proj1 (typed_value_empty f) k).
  - unfold ApplyEnvAndDefaults. cbn [is_struct_kind kind_of].
    rewrite applyEnv_fields. cbn [each_field]. unfold bind, apply_body.
    change (Type_ f) with (TInt k). cbv iota.
    change (applyLeaf G f 0 st)
      with (wrap "setting field Count" (setFieldValue G 0 (TInt k) (effective G f)) st).
    rewrite Heff. unfold wrap.
    rewrite (proj1 (setFieldValue_scalar G 0 st "") k). reflexivity.
  - intros p kf e He.
    rewrite (proj1 (proj2 (proj2 (setFieldValue_scalar G p st ""))) kf).
    now rewrite He.
  - intros p e He.
    rewrite (proj2 (proj2 (proj2 (setFieldValue_scalar G p st "")))).
    now rewrite He.
Qed.

Lemma first_format_none formats value :
  Forall (fun tf => is_err (time_Parse tf value) = true) formats ->
  first_format formats value = None.
Proof.
  induction 1 as [|tf rest Htf _ IH]; [reflexivity|].
  cbn [first_format]. destruct (time_Parse tf value); [exact IH|discriminate].
Qed.

(** The direct write of a timestamp follows the order of [time_value],
    except on the empty text. *)
Lemma setFieldValue_time G p value st :
  value <> "" ->
  setFieldValue G p TTime value st =
  match time_value G value with
  | Ok (Some t) => (mkState (<[p:=VTime t]> (heap st)) (next st) (flagset st), Ok tt)
  | Ok None => (st, Ok tt)
  | Err _ => (st, Err (ErrorString ("unable to parse time: " +:+ value)))
  end.
Proof.
  intros Hv. apply nonempty_true in Hv.
  unfold setFieldValue, time_value. rewrite Hv. cbn [negb].
  destruct (strconv.ParseInt value 64); [|reflexivity].
  destruct (first_format _ _); reflexivity.
Qed.

(** C3 (timestamp coercion), where the code departs from it.  When no
    accepted format parses the empty string, the single-pass path
    treats the empty value as absent (the deferred action returns
    without an error and without a write), but the two-phase direct
    write [setFieldValue] of the empty value on a [time.Time] field
    fails with ["unable to parse time: "]. *)
Theorem two_phase_rejects_empty_time G p st :
  Forall (fun tf => is_err (time_Parse tf "") = true) (timeParserFormats G) ->
  time_value G "" = Ok None /\
  (forall af, heap st !! after_sVar af = Some (VString "") ->
              run_afterFunc G af st = (st, Ok tt)) /\
  setFieldValue G p TTime "" st = (st, Err (ErrorString "unable to parse time: ")).
Proof.
  intros Hformats. split_and!.
  - reflexivity.
  - intros af Hcell. unfold run_afterFunc, bind, get. cbn [fst snd].
    now rewrite Hcell.
  - unfold setFieldValue. cbn [strconv.ParseInt].
    now rewrite (first_format_none _ _ Hformats).
Qed.

(** A field that has neither [default] nor [env] nor [flag] is passed
    over, whatever its other tags say. *)
Lemma skipped_field_untouched G f p st :
  skipped f = true -> exec_body G f p st = (st, Ok []).
Proof. intros Hs. unfold exec_body. now rewrite Hs. Qed.

Lemma skipped_iff f :
  skipped f = true <->
  tag_default (Tag f) = "" /\ tag_env (Tag f) = "" /\ tag_flag (Tag f) = ""
  /\ is_struct_kind (Type_ f) = false.
Proof.
  unfold skipped. rewrite !andb_true_iff, !negb_true_iff, !nonempty_false. tauto.
Qed.

(** C5 (inert-field rule), where the code departs from it.  The field
    [Secret string] whose only tag is [vardefault:"my_secret_value"],
    with the registry mapping that key to ["veryverysecretkey"], has
    that effective value; yet [parse] skips the field: it succeeds
    without writing the heap and registers no flag.  The two-phase
    [ApplyEnvAndDefaults] does write the registry value to the field. *)
Theorem vardefault_only_field_is_skipped formats st0 :
  let G := mkGlobals false {[ "my_secret_value" := "veryverysecretkey" ]} formats ∅ in
  let f := mkField "Secret" (mkTag "" "my_secret_value" "" "" "" "") TString in
  let config := Pointer (TStruct [f]) 0 in
  effective G f = "veryverysecretkey" /\
  parse G config [] st0 = (mkState (heap st0) (next st0) [], Ok tt) /\
  ApplyEnvAndDefaults G config st0
  = (mkState (<[0%nat:=VString "veryverysecretkey"]> (heap st0)) (next st0) (flagset st0),
     Ok tt).
Proof.
  intros G f config.
  assert (Heff : effective G f = "veryverysecretkey") by (vm_compute; reflexivity).
  split_and!.
  - exact Heff.
  - reflexivity.
  - unfold config, ApplyEnvAndDefaults. cbn [is_struct_kind kind_of].
    rewrite applyEnv_fields. cbn [each_field]. unfold bind, apply_body.
    change (Type_ f) with TString. cbv iota.
    change (applyLeaf G f 0 st0)
      with (wrap "setting field Secret" (setFieldValue G 0 TString (effective G f)) st0).
    rewrite Heff. reflexivity.
Qed.

End Outcomes.

Section Documents.
Context {D : Decoder}.

(** C9 (document errors).  [VarDefaultsFromYAML] returns the decoder's
    error wrapped in ["parsing yaml"] when the bytes are malformed, and
    an error when the document's root is not a mapping;
    [VarDefaultsFromYAMLFile] returns the read error wrapped in
    ["reading file"] when the file cannot be read. *)
Theorem document_errors_are_reported in_ opts filename :
  (forall e, yaml_decode in_ = Err e ->
             VarDefaultsFromYAML in_ opts = Err (WrapError "parsing yaml" e)) /\
  (yaml_decode in_ = Ok DocOther -> is_err (VarDefaultsFromYAML in_ opts) = true) /\
  (forall e, ReadFile filename = Err e ->
             VarDefaultsFromYAMLFile filename opts = Err (WrapError "reading file" e)).
Proof.
  unfold VarDefaultsFromYAMLFile, VarDefaultsFromYAML, Unmarshal. split_and!.
  - intros e ->. reflexivity.
  - intros ->. reflexivity.
  - intros e ->. reflexivity.
Qed.

(** The earlier variant answers the same failures with an empty map. *)
Lemma legacy_errors_are_swallowed in_ filename :
  (is_err (yaml_decode in_) = true -> Legacy.VarDefaultsFromYAML in_ = ∅) /\
  (yaml_decode in_ = Ok DocOther -> Legacy.VarDefaultsFromYAML in_ = ∅) /\
  (is_err (ReadFile filename) = true -> Legacy.VarDefaultsFromYAMLFile filename = ∅).
Proof.
  unfold Legacy.VarDefaultsFromYAMLFile, Legacy.VarDefaultsFromYAML, Unmarshal.
  split_and!.
  - destruct (yaml_decode in_); [reflexivity|discriminate].
  - intros ->. reflexivity.
  - destruct (ReadFile filename); [reflexivity|discriminate].
Qed.






End Documents.


(** * Further properties of the engine *)

Section Formats.

Context `{FV : FlagValues}.

Lemma first_format_app formats extra value :
  first_format (formats ++ extra) value =
  match first_format formats value with
  | Some t => Some t
  | None => first_format extra value
  end.
Proof.
  induction formats as [|tf rest IH]; [reflexivity|].
  cbn [app first_format]. now destruct (time_Parse tf value).
Qed.

(** The globals with the format list replaced. *)
Lemma AddTimeParserFormats_formats G extra :
  timeParserFormats (AddTimeParserFormats extra G) = (timeParserFormats G ++ extra)%list.
Proof. reflexivity. Qed.

(** X1 (added formats come last).  After [AddTimeParserFormats] a
    timestamp text that was accepted before is coerced exactly as
    before, by the deferred action of the single-pass mode and by the
    direct write of the two-phase mode; a text that no earlier format
    accepted is tried, on both paths, against the added formats in
    their order, and fails as before when none of them accepts it. *)
Theorem added_formats_come_last G extra af p value st :
  (snd (run_afterFunc G af st) = Ok tt ->
   run_afterFunc (AddTimeParserFormats extra G) af st = run_afterFunc G af st) /\
  (is_err (snd (run_afterFunc G af st)) = true ->
   let sVar := match heap st !! after_sVar af with Some (VString s) => s | _ => "" end in
   run_afterFunc (AddTimeParserFormats extra G) af st
   = match first_format extra sVar with
     | Some t => store (after_field af) (VTime t) st
     | None => (st, Err (TimeFormatMismatch sVar))
     end) /\
  (snd (setFieldValue G p TTime value st) = Ok tt ->
   setFieldValue (AddTimeParserFormats extra G) p TTime value st
   = setFieldValue G p TTime value st) /\
  (is_err (snd (setFieldValue G p TTime value st)) = true ->
   setFieldValue (AddTimeParserFormats extra G) p TTime value st
   = match first_format extra value with
     | Some t => store p (VTime t) st
     | None => (st, Err (ErrorString ("unable to parse time: " +:+ value)))
     end).
Proof.
  split_and!.
  - unfold run_afterFunc, bind, get. cbn [fst snd].
    destruct (negb (nonempty _)); [reflexivity|].
    destruct (strconv.ParseInt _ 64); [|reflexivity].
    rewrite AddTimeParserFormats_formats, first_format_app.
    destruct (first_format (timeParserFormats G) _); [reflexivity|discriminate].
  - unfold run_afterFunc, bind, get. cbn [fst snd].
    destruct (negb (nonempty _)); [discriminate|].
    destruct (strconv.ParseInt _ 64); [|discriminate].
    rewrite AddTimeParserFormats_formats, first_format_app.
    destruct (first_format (timeParserFormats G) _); [discriminate|].
    intros _. cbv zeta. now destruct (first_format extra _).
  - unfold setFieldValue.
    destruct (strconv.ParseInt value 64); [|reflexivity].
    rewrite AddTimeParserFormats_formats, first_format_app.
    destruct (first_format (timeParserFormats G) _); [reflexivity|discriminate].
  - unfold setFieldValue.
    destruct (strconv.ParseInt value 64); [|discriminate].
    rewrite AddTimeParserFormats_formats, first_format_app.
    destruct (first_format (timeParserFormats G) _); [discriminate|].
    intros _. now destruct (first_format extra value).
Qed.

End Formats.

Section IntSlices.

Lemma digit_range c d : strconv.digit c = Some d -> (0 <= d <= 9)%Z.
Proof.
  unfold strconv.digit.
  destruct (_ && _)%bool eqn:E; [|discriminate].
  intros [= <-]. apply andb_true_iff in E as [E1 E2]. lia.
Qed.

Lemma uint_loop_range maxVal s : forall n m,
  (0 <= n)%Z -> strconv.uint_loop maxVal n s = inr m -> (0 <= m)%Z /\ (n <= maxVal -> m <= maxVal)%Z.
Proof.
  induction s as [|c t IH]; intros n m Hn; cbn [strconv.uint_loop].
  - intros [= <-]. lia.
  - destruct (strconv.digit c) as [d|] eqn:Ed; [|discriminate].
    apply digit_range in Ed.
    destruct (maxVal <? n * 10 + d)%Z eqn:Emax; [discriminate|].
    intros E. apply IH in E as [H1 H2]; [|lia]. split; [exact H1|]. intros _. apply H2. lia.
Qed.

Lemma ParseInt_range s n :
  strconv.ParseInt s 64 = Ok n -> (- 2 ^ 63 <= n < 2 ^ 63)%Z.
Proof.
  unfold strconv.ParseInt. destruct s as [|c t]; [discriminate|].
  unfold strconv.ParseUint_as.
  set (body := if (Ascii.eqb c "+" || Ascii.eqb c "-")%bool then t else String c t).
  destruct body as [|c' t'] eqn:Eb; [discriminate|].
  destruct (strconv.uint_loop _ 0 (String c' t')) as [e|un] eqn:EL.
  - destruct e; discriminate.
  - apply uint_loop_range in EL as [H0 _]; [|lia].
    change (64 - 1)%Z with 63%Z.
    destruct (Ascii.eqb c "-"); cbn [negb andb].
    + destruct (2 ^ 63 <? un)%Z eqn:E; [discriminate|]. intros [= <-]. lia.
    + destruct (2 ^ 63 <=? un)%Z eqn:E; [discriminate|]. intros [= <-]. lia.
Qed.

Lemma to_int_small n : (- 2 ^ 63 <= n < 2 ^ 63)%Z -> to_int IntSize n = n.
Proof.
  intros Hn. unfold to_int, IntSize. change (64 - 1)%Z with 63%Z.
  rewrite Z.mod_small; lia.
Qed.

(** X2 (integer slices, element by element).  The default of an
    [[]int] field is read piece by piece: the loop succeeds exactly when
    every piece, with the white space around it trimmed, is a base-10
    integer of 64 bits, and then the slice holds these integers, in
    order and without truncation; when it fails, the error is the one of
    the first piece that does not parse, wrapped in ["parsing int"]. *)
Theorem int_slice_elementwise (elems : list string) :
  (forall l, parse_int_elems elems = Ok l <->
             Forall2 (fun v n => strconv.ParseInt (strings.TrimSpace v) 64 = Ok n) elems l) /\
  (forall e', parse_int_elems elems = Err e' ->
     exists good v bad e,
       elems = (good ++ v :: bad)%list /\
       Forall (fun u => is_err (strconv.ParseInt (strings.TrimSpace u) 64) = false) good /\
       strconv.ParseInt (strings.TrimSpace v) 64 = Err e /\
       e' = WrapError "parsing int" e).
Proof.
  induction elems as [|v rest [IHok IHerr]].
  - split.
    + intros l. cbn [parse_int_elems]. split.
      * intros [= <-]. constructor.
      * intros H. inversion H. reflexivity.
    + discriminate.
  - split.
    + intros l. cbn [parse_int_elems].
      destruct (strconv.ParseInt (strings.TrimSpace v) 64) as [e|it] eqn:Ev.
      * split; [discriminate|]. intros H. inversion H; subst. congruence.
      * pose proof (ParseInt_range _ _ Ev) as Hr. rewrite (to_int_small _ Hr).
        destruct (parse_int_elems rest) as [e|l'] eqn:Er.
        -- split; [discriminate|]. intros H. inversion H as [|? ? ? l2 _ Hrest]; subst.
           apply IHok in Hrest. discriminate.
        -- split.
           ++ intros [= <-]. constructor; [exact Ev|]. now apply IHok.
           ++ intros H. inversion H as [|? n ? l2 Hn Hrest]; subst.
              apply IHok in Hrest. injection Hrest as <-. congruence.
    + intros e'. cbn [parse_int_elems].
      destruct (strconv.ParseInt (strings.TrimSpace v) 64) as [e|it] eqn:Ev.
      * intros [= <-]. exists [], v, rest, e. split_and!; auto.
      * destruct (parse_int_elems rest) as [e|l'] eqn:Er; [|discriminate].
        intros [= <-]. destruct (IHerr e eq_refl) as (good & v' & bad & e0 & -> & Hg & Hv & ->).
        exists (v :: good), v', bad, e0. split_and!; auto.
        constructor; [now rewrite Ev|exact Hg].
Qed.

End IntSlices.

Section Registry.

Context {C : Collaborators} {D : Decoder}.




(** X5 (automatic environment names).  [AutoEnv] changes nothing for a
    field that has an [env] tag: its effective value and the usage text
    of its flag are the same with the switch on and off.  For a field
    without the tag the switch decides: off, the environment is not
    consulted and the usage text is the [description] tag; on, the
    variable named by [deriveEnvVarName] is looked up whenever that
    name is not empty. *)
Theorem auto_env_only_fills_missing_names G enable f :
  (tag_env (Tag f) <> "" ->
   effective (AutoEnv enable G) f = effective G f /\
   buildDescription (AutoEnv enable G) f = buildDescription G f) /\
  (tag_env (Tag f) = "" ->
   effective (AutoEnv false G) f
   = varDefault G (tag_vardefault (Tag f)) (tag_default (Tag f)) /\
   buildDescription (AutoEnv false G) f = tag_description (Tag f) /\
   (deriveEnvVarName (Name f) <> "" ->
    effective (AutoEnv true G) f
    = match LookupEnv G (deriveEnvVarName (Name f)) with
      | Some e => e
      | None => varDefault G (tag_vardefault (Tag f)) (tag_default (Tag f))
      end)).
Proof.
  split.
  - intros He. apply nonempty_true in He.
    assert (En : forall G0, env_name G0 f = tag_env (Tag f)).
    { intros G0. unfold env_name. unfold nonempty in He.
      destruct (String.eqb (tag_env (Tag f)) ""); [discriminate|reflexivity]. }
    unfold effective, envDefault, buildDescription. rewrite !En. split; reflexivity.
  - intros He.
    assert (Eoff : env_name (AutoEnv false G) f = "").
    { unfold env_name. rewrite He. reflexivity. }
    assert (Eon : env_name (AutoEnv true G) f = deriveEnvVarName (Name f)).
    { unfold env_name. rewrite He. reflexivity. }
    unfold effective, envDefault, buildDescription. rewrite Eoff, Eon.
    split_and!; try reflexivity.
    intros Hd. apply nonempty_true in Hd. rewrite Hd. reflexivity.
Qed.

End Registry.

Section SinglePassMore.

Context `{FV : FlagValues}.

Lemma parse_run G in_ args st0 :
  snd (parse G in_ args st0) = Ok tt ->
  parse G in_ args st0 = (fst (parse G in_ args st0), Ok tt).
Proof. intros <-. apply surjective_pairing. Qed.

(** A field whose default does not coerce makes [execLeaf] fail before
    it writes or registers anything. *)
Lemma execLeaf_malformed G f p e st :
  typed_value f (effective G f) = Some (Err e) -> execLeaf G f p st = (st, Err e).
Proof.
  unfold typed_value, execLeaf.
  destruct (Type_ f) as [| |k|k|k| | |el|sub|]; try discriminate;
    try (unfold bind, lift;
         match goal with |- context [or_zero ?a ?b ?c ?d] => destruct (or_zero a b c d) end;
         [now intros [= <-]|discriminate]).
  destruct el as [| |k|k|k| | |el|sub|]; try discriminate.
  destruct k; try discriminate.
  unfold bind, lift. destruct (parse_int_elems _); [now intros [= <-]|discriminate].
Qed.

(** X6 (a malformed value fails the whole resolution).  [parse] fails
    whenever some field that the traversal processes has an effective
    value its kind cannot be coerced from (a non-empty text that is no
    number or duration, an integer slice with a piece that is no
    integer): the command line is not looked at, whatever it gives.
    It also fails when a [time.Time] field that the command line does
    not set has a non-empty effective value that is no integer and
    matches no accepted format. *)
Theorem malformed_value_fails_parse G fields b path f p args st0 :
  field_at fields b path = Some (f, p) ->
  skipped f = false ->
  (b + fields_size fields <= next st0)%nat ->
  ((exists e, typed_value f (effective G f) = Some (Err e)) \/
   (Type_ f = TTime /\
    (flag_bound f = false \/ supplied (flag_name_of f) args = []) /\
    is_err (time_value G (effective G f)) = true)) ->
  is_err (snd (parse G (Pointer (TStruct fields) b) args st0)) = true.
Proof.
  intros Hat Hskip Hn [[e He]|(Ht & Hsup & Hbad)].
  - apply field_at_FieldAt in Hat.
    unfold parse, execTags. cbn [is_struct_kind kind_of]. rewrite execStruct_fields.
    unfold bind at 1. unfold set_flagset. cbn [fst snd]. unfold bind at 1.
    assert (Hleaf : forall st, is_err (snd (execLeaf G f p st)) = true).
    { intros st. now rewrite (execLeaf_malformed G f p e st He). }
    pose proof (for_fields_fails G _ _ _ _ Hat Hskip Hleaf
                  (mkState (heap st0) (next st0) [])) as Hf.
    destruct (for_fields _ _ _ _) as [s1 [e'|afs]]; [reflexivity|discriminate].
  - destruct (snd (parse G (Pointer (TStruct fields) b) args st0)) as [e|[]] eqn:Er;
      [reflexivity|].
    apply parse_run in Er.
    destruct (parse_resolves G fields b path f p args st0 _ Hat Hskip Hn Er) as [Hdef _].
    specialize (Hdef Hsup). unfold field_holds in Hdef. rewrite Ht in Hdef.
    cbn [is_time] in Hdef. destruct Hdef as (ot & Hot & _).
    rewrite Hot in Hbad. discriminate.
Qed.

(** X7 (boolean fields).  After a successful [parse], a [bool] field
    that the command line does not set is true exactly when its
    effective value is the text [true]: every other text, [1] and
    [TRUE] among them, gives false and no error.  A value given by the
    flag goes through [strconv.ParseBool] instead. *)
Theorem bool_field_needs_literal_true G fields b path f p args st0 :
  field_at fields b path = Some (f, p) ->
  Type_ f = TBool ->
  skipped f = false ->
  (b + fields_size fields <= next st0)%nat ->
  snd (parse G (Pointer (TStruct fields) b) args st0) = Ok tt ->
  let st' := fst (parse G (Pointer (TStruct fields) b) args st0) in
  (tag_flag (Tag f) = "" \/ supplied (flag_name_of f) args = [] ->
   heap st' !! p = Some (VBool (String.eqb (effective G f) "true"))) /\
  (tag_flag (Tag f) <> "" -> forall a, supplied (flag_name_of f) args = [a] ->
   exists v, strconv.ParseBool a = Ok v /\ heap st' !! p = Some (VBool v)).
Proof.
  intros Hat Ht Hskip Hn Hparse st'. apply parse_run in Hparse. fold st' in Hparse.
  destruct (parse_resolves G fields b path f p args st0 st' Hat Hskip Hn Hparse)
    as [Hdef Hflag].
  assert (Hb : flag_bound f = nonempty (tag_flag (Tag f))).
  { unfold flag_bound. now rewrite Ht. }
  split.
  - intros Hcase.
    assert (Hc : flag_bound f = false \/ supplied (flag_name_of f) args = []).
    { destruct Hcase as [He|Hs]; [left|now right].
      rewrite Hb. now apply nonempty_false. }
    specialize (Hdef Hc). unfold field_holds, typed_value in Hdef.
    rewrite Ht in Hdef. exact Hdef.
  - intros Htag a Ha. apply nonempty_true in Htag. rewrite <- Hb in Htag.
    specialize (Hflag Htag a Ha). unfold flag_holds in Hflag.
    rewrite Ht in Hflag. cbn [is_time set_value] in Hflag.
    destruct Hflag as (v0 & v & _ & Hset & Hv).
    destruct (strconv.ParseBool a) as [e|bv]; [discriminate|].
    injection Hset as <-. now exists bv.
Qed.

(** X8 (timestamps in the single pass).  After a successful [parse] the
    text of a [time.Time] field is its effective value, or the value
    the command line gives for its flag.  For the empty text the field
    is left as it was; for a base-10 integer it holds [time.Unix] of
    that number of seconds; for any other text some accepted format
    parses it, and the field holds the parse under the first such
    format of the list. *)
Theorem parse_coerces_timestamps G fields b path f p args st0 text :
  field_at fields b path = Some (f, p) ->
  Type_ f = TTime ->
  skipped f = false ->
  (b + fields_size fields <= next st0)%nat ->
  ((tag_flag (Tag f) = "" \/ supplied (flag_name_of f) args = []) /\ text = effective G f
   \/ tag_flag (Tag f) <> "" /\ supplied (flag_name_of f) args = [text]) ->
  snd (parse G (Pointer (TStruct fields) b) args st0) = Ok tt ->
  let st' := fst (parse G (Pointer (TStruct fields) b) args st0) in
  (text = "" -> heap st' !! p = heap st0 !! p) /\
  (forall ts, text <> "" -> strconv.ParseInt text 64 = Ok ts ->
              heap st' !! p = Some (VTime (time_Unix ts))) /\
  (text <> "" -> is_err (strconv.ParseInt text 64) = true ->
   exists t, first_format (timeParserFormats G) text = Some t /\
             heap st' !! p = Some (VTime t)).
Proof.
  intros Hat Ht Hskip Hn Htext Hparse st'. apply parse_run in Hparse. fold st' in Hparse.
  destruct (parse_resolves G fields b path f p args st0 st' Hat Hskip Hn Hparse)
    as [Hdef Hflag].
  assert (Hb : flag_bound f = nonempty (tag_flag (Tag f))).
  { unfold flag_bound. now rewrite Ht. }
  assert (Hset : exists ot, time_value G text = Ok ot
                            /\ heap st' !! p = time_target ot (heap st0 !! p)).
  { destruct Htext as [[Hcase ->]|[Htag Ha]].
    - assert (Hc : flag_bound f = false \/ supplied (flag_name_of f) args = []).
      { destruct Hcase as [He|Hs]; [left|now right].
        rewrite Hb. now apply nonempty_false. }
      specialize (Hdef Hc). unfold field_holds in Hdef. now rewrite Ht in Hdef.
    - apply nonempty_true in Htag. rewrite <- Hb in Htag.
      specialize (Hflag Htag text Ha). unfold flag_holds in Hflag.
      now rewrite Ht in Hflag. }
  destruct Hset as (ot & Hot & Hheap). unfold time_value in Hot. split_and!.
  - intros ->. cbn in Hot. injection Hot as <-. exact Hheap.
  - intros ts Hne Hts. apply nonempty_true in Hne. rewrite Hne, Hts in Hot.
    cbn [negb] in Hot. injection Hot as <-. exact Hheap.
  - intros Hne Herr. apply nonempty_true in Hne. rewrite Hne in Hot. cbn [negb] in Hot.
    destruct (strconv.ParseInt text 64); [|discriminate].
    destruct (first_format (timeParserFormats G) text) as [t|]; [|discriminate].
    injection Hot as <-. now exists t.
Qed.

End SinglePassMore.

Section Registration.

Context `{FV : FlagValues}.

Lemma RegisterFlags_fields G fields b st :
  RegisterFlags G (Pointer (TStruct fields) b) st
  = match for_fields (exec_body G) fields b st with
    | (st', Ok _) => (st', Ok tt)
    | (st', Err e) => (st', Err e)
    end.
Proof.
  unfold RegisterFlags, execTags. cbn [is_struct_kind kind_of].
  rewrite execStruct_fields. unfold bind, ret.
  now destruct (for_fields (exec_body G) fields b st) as [s1 [e|afs]].
Qed.

(** X9 (what [RegisterFlags] leaves alone).  Whether it succeeds or
    fails, [RegisterFlags] keeps the flags the caller's flag set
    already holds, in their order, and only adds flags after them, each
    bound to a cell of the configuration struct or to a variable
    allocated during the call; and it writes no cell outside the struct
    that existed before the call. *)
Theorem register_flags_frame G fields b st :
  let st' := fst (RegisterFlags G (Pointer (TStruct fields) b) st) in
  (next st <= next st')%nat /\
  (forall a, (a < next st)%nat -> ~ (b <= a < b + fields_size fields)%nat ->
             heap st' !! a = heap st !! a) /\
  exists new, flagset st' = (flagset st ++ new)%list /\
    Forall (fun g => (b <= flag_ptr g < b + fields_size fields)%nat
                     \/ (next st <= flag_ptr g < next st')%nat) new.
Proof.
  intros st'. subst st'. rewrite RegisterFlags_fields.
  destruct (for_fields (exec_body G) fields b st) as [s1 r] eqn:E.
  pose proof (queues_fields G fields b st s1 r E) as [HF _].
  destruct r; exact HF.
Qed.


End Registration.

Section TwoPhaseMore.

Context `{FV : FlagValues}.

Lemma marked_refl_all fs : Forall2 marked fs fs.
Proof. induction fs; constructor; [now left|assumption]. Qed.

Lemma marked_trans g g1 g2 : marked g g1 -> marked g1 g2 -> marked g g2.
Proof. intros [->| ->] [->| ->]; unfold marked; auto. Qed.

Lemma marked_trans_all fs fs1 fs2 :
  Forall2 marked fs fs1 -> Forall2 marked fs1 fs2 -> Forall2 marked fs fs2.
Proof.
  intros H1. revert fs2. induction H1 as [|g g1 fs fs1 Hg H1 IH]; intros fs2 H2.
  - inversion H2. constructor.
  - inversion H2 as [|? g2 ? fs2' Hg2 H2']; subst. constructor.
    + eapply marked_trans; eauto.
    + auto.
Qed.

Lemma marked_same g g' :
  marked g g' ->
  flag_name g' = flag_name g /\ flag_ptr g' = flag_ptr g /\
  flag_changed g' = flag_changed g /\ flag_type g' = flag_type g.
Proof. intros [->| ->]; auto. Qed.

Lemma marked_Lookup n fs fs' :
  Forall2 marked fs fs' ->
  match Lookup n fs with
  | Some g => exists g', Lookup n fs' = Some g' /\ marked g g'
  | None => Lookup n fs' = None
  end.
Proof.
  unfold Lookup. induction 1 as [|g g' fs fs' Hg _ IH]; simpl; [reflexivity|].
  destruct (marked_same _ _ Hg) as (-> & _).
  destruct (String.eqb (flag_name g) n); [|exact IH]. now exists g'.
Qed.

Lemma found_marked fs fs' f :
  Forall2 marked fs fs' ->
  match found_flag fs f with
  | Some g => exists g', found_flag fs' f = Some g' /\ marked g g'
  | None => found_flag fs' f = None
  end.
Proof.
  intros HM. unfold found_flag. destruct (nonempty (tag_flag (Tag f))); [|reflexivity].
  now apply marked_Lookup.
Qed.

Lemma target_marked fs fs' f p :
  Forall2 marked fs fs' -> target fs' f p = target fs f p.
Proof.
  intros HM. unfold target. pose proof (found_marked fs fs' f HM) as HL.
  destruct (found_flag fs f) as [g|].
  - destruct HL as (g' & -> & Hg). destruct (marked_same _ _ Hg) as (_ & -> & -> & _).
    reflexivity.
  - now rewrite HL.
Qed.

Lemma targets_marked fs fs' fields base a :
  Forall2 marked fs fs' -> targets fs' fields base a -> targets fs fields base a.
Proof.
  intros HM (f & p & HA & Ht). exists f, p. split; [exact HA|].
  now rewrite <- (target_marked fs fs' f p HM).
Qed.

Lemma remark_marked name fs : Forall2 marked fs (map (remark name mark_value) fs).
Proof.
  induction fs as [|g fs IH]; simpl; constructor; auto.
  unfold remark. destruct (String.eqb (flag_name g) name); [now right|now left].
Qed.

Lemma Writes_refl W st : Writes W st st.
Proof. split_and!; auto. apply marked_refl_all. Qed.

Lemma Writes_trans (W1 W2 W : nat -> Prop) st st1 st2 :
  (forall a, W1 a -> W a) -> (forall a, W2 a -> W a) ->
  Writes W1 st st1 -> Writes W2 st1 st2 -> Writes W st st2.
Proof.
  intros H1 H2 (Hn1 & R1 & F1) (Hn2 & R2 & F2). split_and!.
  - congruence.
  - eapply marked_trans_all; eauto.
  - intros a Ha. rewrite F2, F1; auto.
Qed.

Lemma Writes_widen (W1 W : nat -> Prop) st st' :
  (forall a, W1 a -> W a) -> Writes W1 st st' -> Writes W st st'.
Proof.
  intros HW K. eapply (Writes_trans W1 W1 W); eauto. apply Writes_refl.
Qed.

(** The step of the loop for a field that is no nested struct. *)
Lemma applyLeaf_step G f p st :
  applyLeaf G f p st =
  match found_flag (flagset st) f with
  | Some flag =>
      if flag_changed flag then (st, Ok tt)
      else wrap ("setting flag " +:+ flag_name_of f) (Value_Set flag (effective G f)) st
  | None => wrap ("setting field " +:+ Name f) (setFieldValue G p (Type_ f) (effective G f)) st
  end.
Proof.
  unfold applyLeaf, found_flag, flag_name_of, flag_parts, bind, get. cbn [fst snd].
  destruct (if nonempty _ then _ else None) as [flag|]; [|reflexivity].
  now destruct (flag_changed flag).
Qed.

Lemma applyLeaf_writes G f p st st' r :
  applyLeaf G f p st = (st', r) ->
  Writes (fun a => target (flagset st) f p = Some a) st st'.
Proof.
  rewrite applyLeaf_step. unfold target.
  destruct (found_flag (flagset st) f) as [flag|] eqn:EL.
  - destruct (flag_changed flag) eqn:EC.
    + intros [= <- _]. apply Writes_refl.
    + unfold wrap.
      destruct (Value_Set flag _ st) as [s1 [e|[]]] eqn:EV;
        apply Value_Set_cases in EV as [[-> [e' He]]|(v & Hv & Hr & ->)];
        try discriminate; intros [= <- _]; try apply Writes_refl.
      split_and!; simpl; auto using remark_marked.
      intros a Ha. apply lookup_insert_ne. congruence.
  - unfold wrap.
    destruct (setFieldValue G p _ _ st) as [s1 [e|[]]] eqn:ES;
      apply setFieldValue_cases in ES as [->|[v ->]]; intros [= <- _];
      try apply Writes_refl.
    all: split_and!; simpl; auto using marked_refl_all.
    all: intros a Ha; apply lookup_insert_ne; congruence.
Qed.

Lemma FieldAt_first f rest base f' p' :
  FieldAt [f] base f' p' -> FieldAt (f :: rest) base f' p'.
Proof.
  inversion 1; subst.
  - now constructor.
  - now constructor.
  - match goal with H : FieldAt [] _ _ _ |- _ => inversion H end.
Qed.

Lemma targets_first fs f rest base a :
  targets fs [f] base a -> targets fs (f :: rest) base a.
Proof. intros (f' & p' & HA & Ht). exists f', p'. split; [now apply FieldAt_first|exact Ht]. Qed.

Lemma targets_later fs f rest base a :
  targets fs rest (base + sizeof (Type_ f)) a -> targets fs (f :: rest) base a.
Proof. intros (f' & p' & HA & Ht). exists f', p'. split; [now constructor|exact Ht]. Qed.

Lemma each_field_writes G fields :
  Forall (fun f => forall p st st' r, apply_body G f p st = (st', r) ->
                   Writes (targets (flagset st) [f] p) st st') fields ->
  forall base st st' r,
    each_field (apply_body G) fields base st = (st', r) ->
    Writes (targets (flagset st) fields base) st st'.
Proof.
  induction 1 as [|f rest Hf _ IH]; intros base st st' r.
  - intros [= <- _]. apply Writes_refl.
  - intros E. apply each_field_cons in E as [[E1 _]|(s1 & E1 & E2)].
    + eapply Writes_widen; [|eapply Hf; eauto]. intros a. apply targets_first.
    + pose proof (Hf _ _ _ _ E1) as K1. pose proof (IH _ _ _ _ E2) as K2.
      eapply Writes_trans; [| |exact K1|exact K2].
      * intros a. apply targets_first.
      * intros a Ha. apply targets_later.
        eapply targets_marked; [|exact Ha]. apply K1.
Qed.

Lemma applyEnv_writes G t : forall base st st' r,
  applyEnvAndDefaults G t base st = (st', r) ->
  Writes (fun a => match t with
                   | TStruct fields => targets (flagset st) fields base a
                   | _ => False
                   end) st st'.
Proof.
  induction t as [| | k | k | k | | | e IHe | fields IH |] using Typ_nested_ind;
    intros base st st' r;
    try (intros [= <- _]; apply Writes_refl).
  - unfold applyEnvAndDefaults, applyTimeInternals, wrap, bind, lift, fail.
    destruct (parseUintForType _ _); intros [= <- _]; apply Writes_refl.
  - rewrite applyEnv_fields. apply each_field_writes.
    eapply Forall_impl; [exact IH|]. simpl. intros f Hf p s s' r'.
    unfold apply_body. destruct f as [nm tg ty]. cbn [Type_] in *.
    destruct ty;
      try (intros E; eapply Writes_widen; [|eapply applyLeaf_writes; exact E];
           intros a Ha; eexists _, p; split; [constructor; intros sub; discriminate|exact Ha]).
    intros E. eapply Writes_widen; [|eapply Hf; exact E].
    intros a (f' & p' & HA & Ht). exists f', p'. split; [now constructor|exact Ht].
Qed.

Lemma fields_write G fields base st st' r :
  each_field (apply_body G) fields base st = (st', r) ->
  Writes (targets (flagset st) fields base) st st'.
Proof.
  intros E. rewrite <- applyEnv_fields in E.
  exact (applyEnv_writes G (TStruct fields) base st st' r E).
Qed.

Lemma apply_body_writes G f p st st' r :
  apply_body G f p st = (st', r) -> Writes (targets (flagset st) [f] p) st st'.
Proof.
  intros E. apply (fields_write G [f] p st st' r).
  cbn [each_field]. unfold bind. rewrite E. destruct r as [e|[]]; reflexivity.
Qed.

End TwoPhaseMore.

Section TwoPhaseFocus.

Context `{FV : FlagValues}.

Lemma nth_field_here f rest base : nth_field (f :: rest) base 0 = Some (f, base).
Proof. reflexivity. Qed.

(** Every field the traversal meets is reached by a path. *)
Lemma FieldAt_field_at fields base f p :
  FieldAt fields base f p -> exists path, field_at fields base path = Some (f, p).
Proof.
  induction 1 as [f rest base Hleaf | nm tg sub rest base f p HA IH | f0 rest base f p HA IH].
  - exists [0%nat]. cbn [field_at nth_field].
    destruct (Type_ f) eqn:ET; try reflexivity. now destruct (Hleaf fields).
  - destruct IH as [path Hp]. exists (0%nat :: path). cbn [field_at nth_field Type_].
    destruct path as [|i deeper]; [discriminate|exact Hp].
  - destruct IH as [path Hp]. destruct path as [|i deeper]; [discriminate|].
    exists (S i :: deeper). cbn [field_at nth_field] in *. exact Hp.
Qed.

(** Two fields at one address are one field. *)
Lemma FieldAt_same_cell fields base f p :
  FieldAt fields base f p -> forall f', FieldAt fields base f' p -> f' = f.
Proof.
  induction 1 as [f rest base Hleaf | nm tg sub rest base f p HA IH | f0 rest base f p HA IH];
    intros f' H'; inversion H' as [? ? ? Hl' | ? ? ? ? ? ? ? HA' | ? ? ? ? ? HA']; subst.
  - reflexivity.
  - destruct (Hleaf _ eq_refl).
  - apply FieldAt_range in HA'. rewrite (leaf_size _ Hleaf) in HA'. lia.
  - destruct (Hl' _ eq_refl).
  - now apply IH.
  - apply FieldAt_range in HA. apply FieldAt_range in HA'. cbn [Type_ sizeof] in HA'.
    fold (fields_size sub) in HA'. lia.
  - apply FieldAt_range in HA. rewrite (leaf_size _ Hl') in HA. lia.
  - apply FieldAt_range in HA. apply FieldAt_range in HA'. cbn [Type_ sizeof] in HA.
    fold (fields_size sub) in HA. lia.
  - now apply IH.
Qed.

Lemma alone_marked fs fs' fields base p :
  Forall2 marked fs fs' -> alone fs fields base p -> alone fs' fields base p.
Proof.
  intros HM HA f' p' Hf Hp. rewrite (target_marked fs fs' f' p' HM). now apply HA.
Qed.

(** The loop reaches the step of the field [f] at [p], unless a field
    before it fails; the other steps do not write [p] when no other
    field has it as target. *)
Lemma field_focus G fields base f p :
  FieldAt fields base f p -> forall st st' r,
  each_field (apply_body G) fields base st = (st', r) ->
  (is_err r = true /\ (alone (flagset st) fields base p -> heap st' !! p = heap st !! p)) \/
  exists s s1 r1,
    Forall2 marked (flagset st) (flagset s) /\
    applyLeaf G f p s = (s1, r1) /\
    (r = Ok tt -> r1 = Ok tt) /\
    (alone (flagset st) fields base p ->
     heap s !! p = heap st !! p /\ heap st' !! p = heap s1 !! p).
Proof.
  induction 1 as [f rest base Hleaf | nm tg sub rest base f p HA IH | f0 rest base f p HA IH];
    intros st st' r E; apply each_field_cons in E as [[E1 [e ->]]|(s1 & E1 & E2)].
  - right. exists st, st', (Err e). split_and!; auto using marked_refl_all.
    unfold apply_body in E1. destruct (Type_ f) eqn:ET; try exact E1.
    now destruct (Hleaf fields).
  - right. exists st, s1, (Ok tt). split_and!; auto using marked_refl_all.
    + unfold apply_body in E1. destruct (Type_ f) eqn:ET; try exact E1.
      now destruct (Hleaf fields).
    + intros Hal. split; [reflexivity|].
      pose proof (apply_body_writes G _ _ _ _ _ E1) as (_ & M1 & _).
      pose proof (fields_write G _ _ _ _ _ E2) as (_ & _ & F2).
      apply F2. intros (f' & p' & HA' & Ht).
      rewrite (target_marked _ _ f' p' M1) in Ht.
      pose proof (FieldAt_range _ _ _ _ HA') as Hr. rewrite (leaf_size _ Hleaf) in Hr.
      apply (Hal f' p'); [now constructor|lia|exact Ht].
  - unfold apply_body in E1. cbn [Type_] in E1. rewrite applyEnv_fields in E1.
    destruct (IH _ _ _ E1) as [[_ Hk]|(s & s1 & r1 & HM & Es & Hr & Hk)].
    + left. split; [reflexivity|]. intros Hal. apply Hk.
      intros f' p' HA' Hp. apply Hal; [now constructor|exact Hp].
    + right. exists s, s1, r1. split_and!; auto; try discriminate.
      intros Hal. apply Hk. intros f' p' HA' Hp. apply Hal; [now constructor|exact Hp].
  - unfold apply_body in E1. cbn [Type_] in E1. rewrite applyEnv_fields in E1.
    destruct (IH _ _ _ E1) as [[Hbad _]|(s & s0 & r1 & HM & Es & Hr & Hk)]; [discriminate|].
    right. exists s, s0, r1. split_and!; auto.
    intros Hal.
    assert (Hsub : alone (flagset st) sub base p).
    { intros f' p' HA' Hp. apply Hal; [now constructor|exact Hp]. }
    destruct (Hk Hsub) as [K1 K2]. split; [exact K1|]. rewrite <- K2.
    pose proof (fields_write G _ _ _ _ _ E1) as (_ & M1 & _).
    pose proof (fields_write G _ _ _ _ _ E2) as (_ & _ & F2).
    apply F2. intros (f' & p' & HA' & Ht).
    rewrite (target_marked _ _ f' p' M1) in Ht.
    pose proof (FieldAt_range _ _ _ _ HA') as Hr'. cbn [Type_ sizeof] in Hr'.
    fold (fields_size sub) in Hr'.
    pose proof (FieldAt_range _ _ _ _ HA) as Hr0.
    apply (Hal f' p'); [now constructor|lia|exact Ht].
  - left. split; [reflexivity|]. intros Hal.
    pose proof (apply_body_writes G _ _ _ _ _ E1) as (_ & _ & F1).
    apply F1. intros (f' & p' & HA' & Ht).
    pose proof (FieldAt_range _ _ _ _ HA) as Hr0.
    pose proof (FieldAt_range _ _ _ _ HA') as Hr'.
    unfold fields_size in Hr'. cbn [map list_sum foldr] in Hr'. simpl in Hr'.
    apply (Hal f' p'); [now apply FieldAt_first|lia|exact Ht].
  - pose proof (apply_body_writes G _ _ _ _ _ E1) as (_ & M1 & F1).
    assert (H1 : alone (flagset st) (f0 :: rest) base p -> heap s1 !! p = heap st !! p).
    { intros Hal. apply F1. intros (f' & p' & HA' & Ht).
      pose proof (FieldAt_range _ _ _ _ HA) as Hr0.
      pose proof (FieldAt_range _ _ _ _ HA') as Hr'.
      unfold fields_size in Hr'. cbn [map list_sum foldr] in Hr'. simpl in Hr'.
      apply (Hal f' p'); [now apply FieldAt_first|lia|exact Ht]. }
    assert (H2 : alone (flagset st) (f0 :: rest) base p ->
                 alone (flagset s1) rest (base + sizeof (Type_ f0)) p).
    { intros Hal. apply (alone_marked (flagset st)); [exact M1|].
      intros f' p' HA' Hp. apply Hal; [now constructor|exact Hp]. }
    destruct (IH _ _ _ E2) as [[Hbad Hk]|(s & s0 & r1 & HM & Es & Hr & Hk)].
    + left. split; [exact Hbad|]. intros Hal. rewrite (Hk (H2 Hal)). now apply H1.
    + right. exists s, s0, r1. split_and!; auto.
      * eapply marked_trans_all; eauto.
      * intros Hal. destruct (Hk (H2 Hal)) as [K1 K2]. split; [|exact K2].
        rewrite K1. now apply H1.
Qed.

End TwoPhaseFocus.

Section TwoPhaseResults.

Context `{FV : FlagValues}.

Lemma ApplyEnv_fields G fields b st :
  ApplyEnvAndDefaults G (Pointer (TStruct fields) b) st
  = each_field (apply_body G) fields b st.
Proof. reflexivity. Qed.

Lemma marked_changed_bits fs fs' :
  Forall2 marked fs fs' ->
  map flag_name fs' = map flag_name fs /\ map flag_ptr fs' = map flag_ptr fs /\
  map flag_changed fs' = map flag_changed fs.
Proof.
  induction 1 as [|g g' fs fs' Hg _ (I1 & I2 & I3)]; [auto|].
  destruct (marked_same _ _ Hg) as (E1 & E2 & E3 & _). cbn [map].
  now rewrite E1, E2, E3, I1, I2, I3.
Qed.

(** X11 (what [ApplyEnvAndDefaults] leaves alone).  Whether it succeeds
    or fails, [ApplyEnvAndDefaults] adds and removes no flag and changes
    no flag's name, variable or [Changed] bit: each flag is as it was,
    up to the mark [Set] leaves on its value.  It allocates nothing, and
    it writes a cell only if the cell is the target of some field of
    the struct: the field itself when no flag is registered for it, the
    variable of its flag when that flag is unchanged. *)
Theorem apply_env_frame G fields b st :
  let st' := fst (ApplyEnvAndDefaults G (Pointer (TStruct fields) b) st) in
  next st' = next st /\
  Forall2 marked (flagset st) (flagset st') /\
  (map flag_name (flagset st') = map flag_name (flagset st) /\
   map flag_ptr (flagset st') = map flag_ptr (flagset st) /\
   map flag_changed (flagset st') = map flag_changed (flagset st)) /\
  (forall a,
     (forall path f p, field_at fields b path = Some (f, p) ->
                       target (flagset st) f p <> Some a) ->
     heap st' !! a = heap st !! a).
Proof.
  intros st'. subst st'. rewrite ApplyEnv_fields.
  destruct (each_field (apply_body G) fields b st) as [s1 r] eqn:E. cbn [fst].
  pose proof (fields_write G _ _ _ _ _ E) as (Hn & HM & HF).
  split_and!; auto; try apply (marked_changed_bits _ _ HM).
  intros a Ha. apply HF. intros (f & p & HA & Ht).
  destruct (FieldAt_field_at _ _ _ _ HA) as [path Hp]. exact (Ha path f p Hp Ht).
Qed.

(** [setFieldValue] does the same write in every state. *)
Lemma setFieldValue_uniform G p t value :
  exists (ov : option Val) (r : result unit),
    forall st, setFieldValue G p t value st
               = (match ov with
                  | Some v => mkState (<[p:=v]> (heap st)) (next st) (flagset st)
                  | None => st
                  end, r).
Proof.
  unfold setFieldValue.
  destruct t; unfold bind, lift, store, ret, fail;
    repeat (match goal with
            | |- context [match ?x with _ => _ end] => destruct x
            end);
    try (eexists (Some _), _; intros st; reflexivity);
    try (exists None; eexists; intros st; reflexivity).
Qed.

Lemma setFieldValue_at G p t value st s :
  heap s !! p = heap st !! p ->
  heap (fst (setFieldValue G p t value s)) !! p
  = heap (fst (setFieldValue G p t value st)) !! p.
Proof.
  intros Hp. destruct (setFieldValue_uniform G p t value) as (ov & r & Hu).
  rewrite !Hu. destruct ov as [v|]; cbn [fst heap]; [|exact Hp].
  now rewrite !lookup_insert_eq.
Qed.

Lemma unpointed_alone fs fields base p :
  (forall g, g ∈ fs -> flag_changed g = false -> flag_ptr g <> p) ->
  alone fs fields base p.
Proof.
  intros Hno f' p' _ Hp. unfold target, found_flag.
  destruct (if nonempty _ then _ else None) as [g|] eqn:EL; [|congruence].
  destruct (flag_changed g) eqn:EC; [discriminate|].
  destruct (nonempty (tag_flag (Tag f'))); [|discriminate].
  apply Lookup_elem in EL as [Hin _]. intros [= Hg]. exact (Hno g Hin EC Hg).
Qed.

Lemma run_ok {A} (m : M A) st a : snd (m st) = Ok a -> m st = (fst (m st), Ok a).
Proof. intros <-. apply surjective_pairing. Qed.

(** X12 (fields without a flag in the two-phase mode).  After a
    successful [ApplyEnvAndDefaults], a field for which no flag is
    registered, and at which no unchanged flag points, holds what
    [setFieldValue] writes for its effective value: the text itself for
    a string, the comparison with [true] for a bool.  There is no test
    for tags here: a string field without any tag has the empty
    effective value and is overwritten with it.  A slice field is left
    as it was. *)
Theorem unflagged_field_is_written G fields b path f p st :
  field_at fields b path = Some (f, p) ->
  found_flag (flagset st) f = None ->
  (forall g, g ∈ flagset st -> flag_changed g = false -> flag_ptr g <> p) ->
  snd (ApplyEnvAndDefaults G (Pointer (TStruct fields) b) st) = Ok tt ->
  let st' := fst (ApplyEnvAndDefaults G (Pointer (TStruct fields) b) st) in
  heap st' !! p = heap (fst (setFieldValue G p (Type_ f) (effective G f) st)) !! p /\
  (Type_ f = TString -> heap st' !! p = Some (VString (effective G f))) /\
  (Type_ f = TBool ->
   heap st' !! p = Some (VBool (String.eqb (effective G f) "true"))) /\
  (forall el, Type_ f = TSlice el -> heap st' !! p = heap st !! p) /\
  (Tag f = no_tag -> autoEnv G = false -> effective G f = "").
Proof.
  intros Hat Hnone Hno Hok st'.
  assert (Hmain : heap st' !! p
                  = heap (fst (setFieldValue G p (Type_ f) (effective G f) st)) !! p).
  { apply run_ok in Hok. fold st' in Hok. rewrite ApplyEnv_fields in Hok.
    apply field_at_FieldAt in Hat.
    pose proof (unpointed_alone _ fields b p Hno) as Hal.
    destruct (field_focus G _ _ _ _ Hat _ _ _ Hok)
      as [[Hbad _]|(s & s1 & r1 & HM & Es & Hr & Hk)]; [discriminate|].
    destruct (Hk Hal) as [K1 K2]. rewrite (Hr eq_refl) in Es.
    rewrite applyLeaf_step in Es.
    pose proof (found_marked _ _ f HM) as HL. rewrite Hnone in HL. rewrite HL in Es.
    unfold wrap in Es.
    destruct (setFieldValue G p (Type_ f) (effective G f) s) as [s2 [e|[]]] eqn:ES;
      [discriminate|]. injection Es as <-.
    rewrite K2. change s2 with (fst (s2, Ok tt : result unit)). rewrite <- ES.
    now apply setFieldValue_at. }
  split_and!.
  - exact Hmain.
  - intros Ht. rewrite Hmain, Ht. cbn. apply lookup_insert_eq.
  - intros Ht. rewrite Hmain, Ht. cbn. apply lookup_insert_eq.
  - intros el Ht. rewrite Hmain, Ht. reflexivity.
  - intros Htag Hauto. unfold effective, envDefault, varDefault, env_name.
    rewrite Htag, Hauto. reflexivity.
Qed.

(** X13 (a bool flag needs a value [ParseBool] accepts).  When the flag
    registered for a field is an unchanged bool flag,
    [ApplyEnvAndDefaults] passes the effective value of the field to the
    flag's [Set], which parses it with [strconv.ParseBool]: the call
    fails when the text is none of the accepted literals, as the empty
    text of a field without default is. *)
Theorem bool_flag_rejects_other_text G fields b path f p fl st :
  field_at fields b path = Some (f, p) ->
  found_flag (flagset st) f = Some fl ->
  flag_changed fl = false -> flag_type fl = TBool ->
  is_err (strconv.ParseBool (effective G f)) = true ->
  is_err (snd (ApplyEnvAndDefaults G (Pointer (TStruct fields) b) st)) = true.
Proof.
  intros Hat Hfl Hc Ht Hbad. rewrite ApplyEnv_fields.
  destruct (each_field (apply_body G) fields b st) as [st' r] eqn:E. cbn [snd].
  apply field_at_FieldAt in Hat.
  destruct (field_focus G _ _ _ _ Hat _ _ _ E)
    as [[Herr _]|(s & s1 & r1 & HM & Es & Hr & _)]; [exact Herr|].
  destruct r as [e|[]]; [reflexivity|]. rewrite (Hr eq_refl) in Es.
  rewrite applyLeaf_step in Es.
  pose proof (found_marked _ _ f HM) as HL. rewrite Hfl in HL.
  destruct HL as (g' & Hg' & Hm). rewrite Hg' in Es.
  destruct (marked_same _ _ Hm) as (_ & _ & Hc' & Ht').
  rewrite Hc', Hc in Es. unfold wrap, Value_Set, bind, get, lift in Es.
  cbn [fst snd] in Es. rewrite Ht', Ht in Es. cbn [set_value] in Es.
  destruct (strconv.ParseBool (effective G f)); discriminate.
Qed.

End TwoPhaseResults.

Section TwoPhaseFlow.

Context `{FV : FlagValues}.

Lemma after_parse_same args g :
  flag_name (after_parse args g) = flag_name g /\
  flag_ptr (after_parse args g) = flag_ptr g /\
  flag_type (after_parse args g) = flag_type g /\
  flag_changed (after_parse args g)
  = match supplied (flag_name g) args with
    | [] => flag_changed g
    | _ => true
    end.
Proof. unfold after_parse. now destruct (supplied (flag_name g) args). Qed.

Lemma after_parse_nil g : after_parse [] g = g.
Proof. reflexivity. Qed.

Lemma after_parse_snoc done name text g :
  after_parse (done ++ [(name, text)]) g
  = remark name mark_changed (remark name mark_value (after_parse done g)).
Proof.
  assert (Hs : forall n, supplied n (done ++ [(name, text)])
                         = (supplied n done ++ if String.eqb name n then [text] else [])%list).
  { intros n. induction done as [|[n0 t0] done IH]; cbn [app supplied].
    - now destruct (String.eqb name n).
    - destruct (String.eqb n0 n); [cbn [app]; now rewrite IH|exact IH]. }
  destruct (after_parse_same done g) as (En & _).
  assert (Hmv : forall x, flag_name (mark_value x) = flag_name x) by reflexivity.
  assert (Hmc : forall x, flag_name (mark_changed x) = flag_name x) by reflexivity.
  unfold remark. rewrite En.
  destruct (String.eqb (flag_name g) name) eqn:E.
  - rewrite Hmv, En, E. unfold after_parse. rewrite Hs, String.eqb_sym, E.
    destruct (supplied (flag_name g) done); reflexivity.
  - rewrite En, E. unfold after_parse. rewrite Hs, String.eqb_sym, E, app_nil_r. reflexivity.
Qed.

(** The flags after [FlagSet.Parse]: those of the assignments that were
    carried out are marked. *)
Lemma Parse_flagset args : forall done st st' r,
  FlagSet_Parse args st = (st', r) ->
  exists did rest,
    (done ++ args = did ++ rest)%list /\
    (forall fs0, flagset st = map (after_parse done) fs0 ->
                 flagset st' = map (after_parse did) fs0) /\
    (r = Ok tt -> rest = []).
Proof.
  induction args as [|[name text] args IH]; intros done st st' r.
  - intros [= <- <-]. exists done, []. split_and!; auto.
  - cbn [FlagSet_Parse]. unfold bind.
    destruct (FlagSet_Set name text st) as [s1 [e|[]]] eqn:ES;
      apply FlagSet_Set_cases in ES as [[-> [e' He]]|(fl & v & _ & _ & Hr & ->)];
      try discriminate.
    + intros [= <- <-]. exists done, ((name, text) :: args). split_and!; auto. discriminate.
    + intros EP. destruct (IH (done ++ [(name, text)])%list _ _ _ EP)
        as (did & rest & Hsplit & Hfs & Hr').
      exists did, rest. split_and!; auto.
      * rewrite <- Hsplit, <- app_assoc. reflexivity.
      * intros fs0 H0. apply Hfs. cbn [flagset]. rewrite H0, !map_map.
        apply map_ext. intros g. symmetry. apply after_parse_snoc.
Qed.

Lemma Parse_flags args st st' r :
  FlagSet_Parse args st = (st', r) ->
  exists did, flagset st' = map (after_parse did) (flagset st) /\ (r = Ok tt -> did = args).
Proof.
  intros E. destruct (Parse_flagset args [] st st' r E) as (did & rest & Hs & Hfs & Hr).
  exists did. split.
  - apply Hfs. rewrite <- (map_id (flagset st)) at 1. apply map_ext.
    intros g. now rewrite after_parse_nil.
  - intros Hok. rewrite (Hr Hok), app_nil_r in Hs. exact (eq_sym Hs).
Qed.

Lemma Lookup_after n did fs :
  Lookup n (map (after_parse did) fs) = after_parse did <$> Lookup n fs.
Proof.
  unfold Lookup. induction fs as [|g fs IH]; [reflexivity|]. cbn [map find].
  destruct (after_parse_same did g) as (-> & _).
  destruct (String.eqb (flag_name g) n); [reflexivity|exact IH].
Qed.

Lemma elem_of_after did fs g' :
  g' ∈ map (after_parse did) fs -> exists g, g ∈ fs /\ g' = after_parse did g.
Proof.
  intros Hin. apply list_elem_of_fmap in Hin as (g & -> & Hg). now exists g.
Qed.

(** X14 (a flagged [time.Time] field in the two-phase mode).  Let
    [RegisterFlags] succeed, let the command line be parsed into the
    flag set, and let [ApplyEnvAndDefaults] run.  A [time.Time] field
    with a [flag] tag is then what it was before the three calls,
    whatever the flag, the environment and the defaults give:
    [RegisterFlags] binds the flag to a string variable and drops the
    deferred action that would convert it, and [ApplyEnvAndDefaults]
    only sets that variable. *)
Theorem flagged_time_field_is_never_set G fields b path f p args st0 :
  field_at fields b path = Some (f, p) ->
  Type_ f = TTime -> tag_flag (Tag f) <> "" ->
  (b + fields_size fields <= next st0)%nat ->
  (forall g, g ∈ flagset st0 ->
             (flag_ptr g < next st0)%nat /\ ~ (b <= flag_ptr g < b + fields_size fields)%nat) ->
  snd (RegisterFlags G (Pointer (TStruct fields) b) st0) = Ok tt ->
  let st1 := fst (RegisterFlags G (Pointer (TStruct fields) b) st0) in
  let st2 := fst (FlagSet_Parse args st1) in
  let st3 := fst (ApplyEnvAndDefaults G (Pointer (TStruct fields) b) st2) in
  heap st3 !! p = heap st0 !! p.
Proof.
  intros Hat Ht Htag Hn Hpre Hok st1 st2 st3.
  assert (Hb : flag_bound f = true).
  { unfold flag_bound. rewrite Ht. now apply nonempty_true. }
  pose proof (flag_tag_not_skipped f Htag) as Hskip.
  (* registration *)
  assert (HR : exists afs, Registered G f p st0 st1 afs).
  { subst st1. rewrite RegisterFlags_fields in Hok |- *.
    destruct (for_fields (exec_body G) fields b st0) as [s1 [e|afs]] eqn:E; [discriminate|].
    exists afs. cbn [fst]. apply field_at_FieldAt in Hat.
    exact (for_fields_registers G _ _ _ _ Hat Hskip _ _ _ (conj Hn Hpre) E). }
  destruct HR as [afs HR]. unfold Registered in HR. rewrite Ht in HR. cbn [is_time] in HR.
  destruct HR as (sv & Hsv & Hcell & Hfield & [HL _] & Hnop & _).
  specialize (HL Hb).
  (* the command line *)
  destruct (FlagSet_Parse args st1) as [s2 r2] eqn:E2. cbn [fst] in st2. subst st2.
  assert (H2 : heap s2 !! p = heap st1 !! p).
  { eapply Parse_quiet; [|exact E2]. now apply unpointed_quiet. }
  destruct (Parse_flags _ _ _ _ E2) as (did & Hfs & _).
  (* the second phase *)
  subst st3. rewrite ApplyEnv_fields.
  destruct (each_field (apply_body G) fields b s2) as [s3 r3] eqn:E3. cbn [fst].
  pose proof (fields_write G _ _ _ _ _ E3) as (_ & _ & HF).
  rewrite HF, H2; [exact Hfield|].
  intros (f' & p' & HA' & Htg). unfold target, found_flag in Htg.
  destruct (nonempty (tag_flag (Tag f'))) eqn:Etag.
  - rewrite Hfs, Lookup_after in Htg.
    destruct (Lookup (flag_name_of f') (flagset st1)) as [g|] eqn:EL; cbn [fmap option_fmap option_map] in Htg.
    + destruct (after_parse_same did g) as (_ & Hptr & _).
      destruct (flag_changed (after_parse did g)); [discriminate|].
      injection Htg as Hg. rewrite Hptr in Hg.
      apply Lookup_elem in EL as [Hin _]. exact (Hnop g Hin Hg).
    + injection Htg as ->. apply field_at_FieldAt in Hat.
      rewrite (FieldAt_same_cell _ _ _ _ Hat _ HA') in EL.
      unfold flag_name_of in HL. unfold flag_name_of in EL. congruence.
  - injection Htg as ->. apply field_at_FieldAt in Hat.
    rewrite (FieldAt_same_cell _ _ _ _ Hat _ HA') in Etag.
    apply nonempty_true in Htag. congruence.
Qed.

(** X15 (the two-phase flow on string fields).  Let [RegisterFlags]
    succeed, let the command line be parsed into the flag set without
    an error, and let [ApplyEnvAndDefaults] succeed.  A string field
    with a [flag] tag that no other field of the struct shares then
    holds the value the command line gives for the flag, if it gives
    one, and its effective value (environment, then registry, then
    default) otherwise: the precedence of the single pass. *)
Theorem two_phase_resolves_string_flags G fields b path f p args st0 :
  field_at fields b path = Some (f, p) ->
  Type_ f = TString -> tag_flag (Tag f) <> "" ->
  (forall path' f' p', field_at fields b path' = Some (f', p') ->
     tag_flag (Tag f') <> "" -> flag_name_of f' = flag_name_of f -> p' = p) ->
  (b + fields_size fields <= next st0)%nat ->
  (forall g, g ∈ flagset st0 ->
             (flag_ptr g < next st0)%nat /\ ~ (b <= flag_ptr g < b + fields_size fields)%nat) ->
  snd (RegisterFlags G (Pointer (TStruct fields) b) st0) = Ok tt ->
  let st1 := fst (RegisterFlags G (Pointer (TStruct fields) b) st0) in
  snd (FlagSet_Parse args st1) = Ok tt ->
  let st2 := fst (FlagSet_Parse args st1) in
  snd (ApplyEnvAndDefaults G (Pointer (TStruct fields) b) st2) = Ok tt ->
  let st3 := fst (ApplyEnvAndDefaults G (Pointer (TStruct fields) b) st2) in
  (forall a, supplied (flag_name_of f) args = [a] -> heap st3 !! p = Some (VString a)) /\
  (supplied (flag_name_of f) args = [] -> heap st3 !! p = Some (VString (effective G f))).
Proof.
  intros Hat Ht Htag Huniq Hn Hpre Hok1 st1 Hok2 st2 Hok3 st3.
  assert (Hb : flag_bound f = true).
  { unfold flag_bound. rewrite Ht. now apply nonempty_true. }
  pose proof (flag_tag_not_skipped f Htag) as Hskip.
  pose proof (field_at_FieldAt _ _ _ _ _ Hat) as HA.
  (* registration *)
  assert (HR : exists afs, Registered G f p st0 st1 afs).
  { subst st1. rewrite RegisterFlags_fields in Hok1 |- *.
    destruct (for_fields (exec_body G) fields b st0) as [s1 [e|afs]] eqn:E; [discriminate|].
    exists afs. cbn [fst].
    exact (for_fields_registers G _ _ _ _ HA Hskip _ _ _ (conj Hn Hpre) E). }
  destruct HR as [afs HR]. unfold Registered in HR. rewrite Ht in HR.
  cbn [is_time] in HR. unfold typed_value in HR. rewrite Ht in HR.
  destruct HR as (Hval & HB & _).
  pose proof (Bound_owned _ _ _ _ _ HB) as Hown. destruct HB as [HL _]. specialize (HL Hb).
  (* the command line *)
  apply run_ok in Hok2. fold st2 in Hok2.
  destruct (Parse_flags _ _ _ _ Hok2) as (did & Hfs & Hdid). rewrite (Hdid eq_refl) in Hfs.
  assert (HL2 : Lookup (flag_name_of f) (flagset st2)
                = Some (after_parse args (flag_of G f TString p))).
  { now rewrite Hfs, Lookup_after, HL. }
  assert (Hown2 : forall g, g ∈ flagset st2 -> flag_ptr g = p -> flag_name g = flag_name_of f).
  { intros g' Hin Hp. rewrite Hfs in Hin. apply elem_of_after in Hin as (g & Hg & ->).
    destruct (after_parse_same args g) as (-> & Hptr & _). rewrite Hptr in Hp.
    exact (Hown g Hg Hp). }
  (* the second phase reaches the field, and no other field writes it *)
  assert (Hal : alone (flagset st2) fields b p).
  { intros f' p' HA' Hp Htg. unfold target, found_flag in Htg.
    destruct (nonempty (tag_flag (Tag f'))) eqn:Etag; [|congruence].
    destruct (Lookup (flag_name_of f') (flagset st2)) as [g|] eqn:EL; [|congruence].
    destruct (flag_changed g); [discriminate|]. injection Htg as Hg.
    apply Lookup_elem in EL as [Hin Hname].
    destruct (FieldAt_field_at _ _ _ _ HA') as [path' Hp'].
    apply Hp, (Huniq path' f' p' Hp'); [now apply nonempty_true|].
    rewrite <- Hname. now apply Hown2. }
  apply run_ok in Hok3. fold st3 in Hok3. rewrite ApplyEnv_fields in Hok3.
  destruct (field_focus G _ _ _ _ HA _ _ _ Hok3)
    as [[Hbad _]|(s & s1 & r1 & HM & Es & Hr & Hk)]; [discriminate|].
  destruct (Hk Hal) as [K1 K2]. rewrite (Hr eq_refl) in Es. rewrite applyLeaf_step in Es.
  pose proof (found_marked _ _ f HM) as HF. unfold found_flag at 1 in HF.
  apply nonempty_true in Htag. rewrite Htag, HL2 in HF.
  destruct HF as (g' & Hg' & Hm). rewrite Hg' in Es.
  destruct (marked_same _ _ Hm) as (_ & Hptr' & Hc' & Ht').
  destruct (after_parse_same args (flag_of G f TString p)) as (_ & Hptr & Hty & Hch).
  rewrite Hptr in Hptr'. rewrite Hty in Ht'. rewrite Hch in Hc'.
  cbn [flag_of flag_ptr flag_type flag_changed flag_name] in Hptr', Ht', Hc'.
  change (long_name (flag_parts f)) with (flag_name_of f) in Hc'.
  split.
  - intros a Ha. rewrite Ha in Hc'. rewrite Hc' in Es. injection Es as <-.
    rewrite K2, K1.
    destruct (Parse_once p (flag_name_of f) args st1 st2 _ a Hown HL eq_refl Ha Hok2)
      as (v & Hv & Hc2).
    cbn [flag_of flag_type set_value] in Hv. injection Hv as <-. exact Hc2.
  - intros Ha. rewrite Ha in Hc'. rewrite Hc' in Es. unfold wrap in Es.
    destruct (Value_Set g' (effective G f) s) as [s2 [e|[]]] eqn:EV; [discriminate|].
    injection Es as <-.
    apply Value_Set_cases in EV as [[_ [e He]]|(v & Hv & _ & ->)]; [discriminate|].
    rewrite Ht' in Hv. cbn [set_value] in Hv. injection Hv as <-.
    rewrite K2, Hptr'. cbn [heap]. apply lookup_insert_eq.
Qed.

End TwoPhaseFlow.

Section Inert.

Context `{FV : FlagValues}.

Lemma Foot_spares lo hi st st' p :
  Foot lo hi st st' -> (p < next st)%nat -> ~ (lo <= p < hi)%nat ->
  heap st' !! p = heap st !! p /\
  (forall g, g ∈ flagset st' -> flag_ptr g = p -> g ∈ flagset st).
Proof.
  intros (Hn & Hh & new & Hfs & Hnew) Hp Hout. split; [now apply Hh|].
  intros g Hin Hg. rewrite Hfs in Hin. apply elem_of_app in Hin as [Hin|Hin]; [exact Hin|].
  rewrite Forall_forall in Hnew. specialize (Hnew g Hin). lia.
Qed.

(** The traversal leaves a skipped field alone: it does not write it,
    binds no flag to it and queues no action for it. *)
Lemma for_fields_spares G fields base f p :
  FieldAt fields base f p -> skipped f = true ->
  forall st st' r,
    (base + fields_size fields <= next st)%nat ->
    for_fields (exec_body G) fields base st = (st', r) ->
    (next st <= next st')%nat /\
    heap st' !! p = heap st !! p /\
    (forall g, g ∈ flagset st' -> flag_ptr g = p -> g ∈ flagset st) /\
    (forall afs, r = Ok afs -> forall af, af ∈ afs -> after_field af <> p).
Proof.
  induction 1 as [f rest base Hleaf | nm tg sub rest base f p HA IH | f0 rest base f p HA IH];
    intros Hskip st st' r Hn; cbn [for_fields]; unfold bind;
    unfold fields_size in Hn; simpl in Hn; fold (fields_size rest) in Hn.
  - rewrite (skipped_field_untouched G f base st Hskip). rewrite (leaf_size _ Hleaf) in *.
    destruct (for_fields (exec_body G) rest (base + 1) st) as [s2 r2] eqn:E2.
    pose proof (queues_fields G _ _ _ _ _ E2) as [F2 Q2].
    destruct (Foot_spares _ _ _ _ base F2 ltac:(lia) ltac:(lia)) as [H1 H2].
    pose proof (Foot_next _ _ _ _ F2) as Hn2.
    destruct r2 as [e|afs2]; intros [= <- <-]; split_and!; auto; try discriminate.
    intros afs [= <-] af Haf. cbn [app] in Haf.
    specialize (Q2 _ eq_refl). rewrite Forall_forall in Q2. specialize (Q2 af Haf). lia.
  - rewrite exec_body_struct. fold (fields_size sub) in Hn.
    pose proof (FieldAt_range _ _ _ _ HA) as Hp.
    destruct (for_fields (exec_body G) sub base st) as [s1 r1] eqn:E1.
    assert (Hs : (base + fields_size sub <= next st)%nat) by lia.
    destruct (IH Hskip _ _ _ Hs E1) as (Hn1 & H1 & G1 & A1).
    destruct r1 as [e|afs1]; [intros [= <- <-]; split_and!; auto; discriminate|].
    cbn [Type_ sizeof]. fold (fields_size sub).
    destruct (for_fields (exec_body G) rest (base + fields_size sub) s1) as [s2 r2] eqn:E2.
    pose proof (queues_fields G _ _ _ _ _ E2) as [F2 Q2].
    destruct (Foot_spares _ _ _ _ p F2 ltac:(lia) ltac:(lia)) as [H2 G2].
    pose proof (Foot_next _ _ _ _ F2) as Hn2.
    destruct r2 as [e|afs2]; intros [= <- <-]; split_and!; auto; try discriminate; try lia;
      try congruence.
    intros afs [= <-] af Haf. apply elem_of_app in Haf as [Haf|Haf].
    + exact (A1 _ eq_refl af Haf).
    + specialize (Q2 _ eq_refl). rewrite Forall_forall in Q2. specialize (Q2 af Haf). lia.
  - pose proof (FieldAt_range _ _ _ _ HA) as Hp.
    destruct (exec_body G f0 base st) as [s1 r1] eqn:E1.
    pose proof (queues_exec_body G _ _ _ _ _ E1) as [F1 Q1].
    destruct (Foot_spares _ _ _ _ p F1 ltac:(lia) ltac:(lia)) as [H1 G1].
    pose proof (Foot_next _ _ _ _ F1) as Hn1.
    destruct r1 as [e|afs1]; [intros [= <- <-]; split_and!; auto; discriminate|].
    destruct (for_fields (exec_body G) rest (base + sizeof (Type_ f0)) s1) as [s2 r2] eqn:E2.
    assert (Hs : (base + sizeof (Type_ f0) + fields_size rest <= next s1)%nat) by lia.
    destruct (IH Hskip _ _ _ Hs E2) as (Hn2 & H2 & G2 & A2).
    destruct r2 as [e|afs2]; intros [= <- <-]; split_and!; auto; try discriminate; try lia;
      try congruence.
    intros afs [= <-] af Haf. apply elem_of_app in Haf as [Haf|Haf].
    + specialize (Q1 _ eq_refl). rewrite Forall_forall in Q1. specialize (Q1 af Haf). lia.
    + exact (A2 _ eq_refl af Haf).
Qed.

Lemma afters_flagset G afs : forall st st' r,
  run_afterFuncs G afs st = (st', r) -> flagset st' = flagset st.
Proof.
  induction afs as [|af afs IH]; intros st st' r.
  - now intros [= <- _].
  - cbn [run_afterFuncs]. unfold bind.
    destruct (run_afterFunc G af st) as [s1 r1] eqn:E1.
    pose proof (run_afterFunc_cases G af st s1 r1 E1) as Hc. cbn zeta in Hc.
    destruct (time_value G _) as [e|[t|]].
    + destruct Hc as [-> ->]. now intros [= <- _].
    + destruct Hc as [-> ->]. intros E2. now apply IH in E2.
    + destruct Hc as [-> ->]. intros E2. now apply IH in E2.
Qed.

(** X16 (fields the single pass leaves alone).  [parse], succeeding or
    failing, does not touch a field that has none of the tags
    [default], [env] and [flag] and is no struct: the field keeps the
    value it had, whatever the command line gives, and no flag of the
    flag set is bound to it. *)
Theorem parse_spares_skipped_fields G fields b path f p args st0 :
  field_at fields b path = Some (f, p) ->
  skipped f = true ->
  (b + fields_size fields <= next st0)%nat ->
  let st' := fst (parse G (Pointer (TStruct fields) b) args st0) in
  heap st' !! p = heap st0 !! p /\
  (forall g, g ∈ flagset st' -> flag_ptr g <> p).
Proof.
  intros Hat Hskip Hn st'. subst st'. apply field_at_FieldAt in Hat.
  destruct (parse G (Pointer (TStruct fields) b) args st0) as [st' r] eqn:EP. cbn [fst].
  unfold parse, execTags in EP. cbn [is_struct_kind kind_of] in EP.
  rewrite execStruct_fields in EP.
  unfold bind at 1 in EP. unfold set_flagset in EP. cbn [fst snd] in EP.
  unfold bind at 1 in EP.
  destruct (for_fields (exec_body G) fields b (mkState (heap st0) (next st0) []))
    as [s1 r1] eqn:E1.
  destruct (for_fields_spares G _ _ _ _ Hat Hskip (mkState (heap st0) (next st0) []) _ _ Hn E1)
    as (_ & H1 & G1 & A1).
  cbn [heap flagset] in H1, G1.
  assert (Hno1 : forall g, g ∈ flagset s1 -> flag_ptr g <> p).
  { intros g Hin Hg. specialize (G1 g Hin Hg). now apply elem_of_nil in G1. }
  destruct r1 as [e|afs]; [injection EP as <- _; split; assumption|].
  unfold bind in EP.
  destruct (FlagSet_Parse args s1) as [s2 r2] eqn:E2.
  assert (H2 : heap s2 !! p = heap s1 !! p).
  { eapply Parse_quiet; [|exact E2]. now apply unpointed_quiet. }
  assert (Hno2 : forall g, g ∈ flagset s2 -> flag_ptr g <> p).
  { destruct (Parse_flags _ _ _ _ E2) as (did & Hfs & _).
    intros g' Hin. rewrite Hfs in Hin. apply elem_of_after in Hin as (g & Hg & ->).
    destruct (after_parse_same did g) as (_ & -> & _). now apply Hno1. }
  destruct r2 as [e|[]]; [injection EP as <- _; split; [congruence|assumption]|].
  split.
  - rewrite (afters_frame G p afs _ _ _ (A1 _ eq_refl) EP). congruence.
  - rewrite (afters_flagset G afs _ _ _ EP). exact Hno2.
Qed.

End Inert.

Section FlagNames.

Context `{FV : FlagValues}.

(** Each deferred action has a string variable of its own. *)
Lemma NoDup_fmap_eq {A B} (h : A -> B) (l : list A) x y :
  NoDup (map h l) -> x ∈ l -> y ∈ l -> h x = h y -> x = y.
Proof.
  induction l as [|a l IH]; cbn [map]; intros Hnd Hx Hy Heq.
  - now apply elem_of_nil in Hx.
  - apply NoDup_cons in Hnd as [Ha Hnd].
    apply elem_of_cons in Hx as [->|Hx]; apply elem_of_cons in Hy as [->|Hy]; auto.
    + exfalso. apply Ha. rewrite Heq. apply list_elem_of_fmap. now exists y.
    + exfalso. apply Ha. rewrite <- Heq. apply list_elem_of_fmap. now exists x.
Qed.

Lemma sVars_step (body : StructField -> nat -> M (list afterFunc)) f rest base st st' afs :
  (forall st st' r, body f base st = (st', r) ->
     Foot base (base + sizeof (Type_ f)) st st' /\
     afs_in base (base + sizeof (Type_ f)) st st' r) ->
  (forall st st' r, for_fields body rest (base + sizeof (Type_ f)) st = (st', r) ->
     afs_in (base + sizeof (Type_ f)) (base + sizeof (Type_ f) + fields_size rest) st st' r) ->
  (forall st st' r1, body f base st = (st', Ok r1) -> NoDup (map after_sVar r1)) ->
  (forall st st' r2, for_fields body rest (base + sizeof (Type_ f)) st = (st', Ok r2) ->
     NoDup (map after_sVar r2)) ->
  for_fields body (f :: rest) base st = (st', Ok afs) ->
  NoDup (map after_sVar afs).
Proof.
  intros Q1 Q2 N1 N2 E.
  apply for_fields_cons_ok in E as (s1 & r1 & r2 & E1 & E2 & ->).
  rewrite map_app. apply NoDup_app. split_and!.
  - exact (N1 _ _ _ E1).
  - intros sv H1 H2.
    apply list_elem_of_fmap in H1 as (a1 & -> & Ha1).
    apply list_elem_of_fmap in H2 as (a2 & Heq & Ha2).
    destruct (Q1 _ _ _ E1) as [_ A1]. specialize (A1 _ eq_refl).
    pose proof (Q2 _ _ _ E2 _ eq_refl) as A2.
    rewrite Forall_forall in A1, A2.
    specialize (A1 a1 Ha1). specialize (A2 a2 Ha2). lia.
  - exact (N2 _ _ _ E2).
Qed.

Lemma sVars_struct G t : forall base st st' afs,
  execStruct G t base st = (st', Ok afs) -> NoDup (map after_sVar afs).
Proof.
  induction t as [| | k | k | k | | | e IHe | fields IH |] using Typ_nested_ind;
    intros base st st' afs;
    try (intros [= _ <-]; constructor).
  rewrite execStruct_fields. revert base st st' afs.
  induction IH as [|f rest Hf _ IHrest]; intros base st st' afs.
  - intros [= _ <-]. constructor.
  - apply (sVars_step (exec_body G)).
    + intros s s' r E. exact (queues_exec_body G f base s s' r E).
    + intros s s' r E. exact (proj2 (queues_fields G rest _ s s' r E)).
    + intros s s' r1. unfold exec_body. destruct (skipped f).
      * intros [= _ <-]. constructor.
      * destruct (Type_ f) eqn:ET;
          try (intros E; apply execLeaf_afs in E as [->|(_ & -> & _)];
               [constructor|repeat constructor; apply not_elem_of_nil]).
        apply Hf.
    + intros s s' r2. apply IHrest.
Qed.

Lemma sVars_fields G fields base st st' afs :
  for_fields (exec_body G) fields base st = (st', Ok afs) -> NoDup (map after_sVar afs).
Proof. rewrite <- execStruct_fields. apply sVars_struct. Qed.

Lemma same_name_collides G fields b f1 p1 f2 p2 st st' afs :
  FieldAt fields b f1 p1 -> FieldAt fields b f2 p2 -> p1 <> p2 ->
  flag_bound f1 = true -> flag_bound f2 = true ->
  skipped f1 = false -> skipped f2 = false ->
  flag_name_of f1 = flag_name_of f2 ->
  Pre b (b + fields_size fields) st ->
  for_fields (exec_body G) fields b st = (st', Ok afs) -> False.
Proof.
  intros H1 H2 Hne Hb1 Hb2 Hs1 Hs2 Hname HP E.
  pose proof (for_fields_registers G _ _ _ _ H1 Hs1 _ _ _ HP E) as R1.
  pose proof (for_fields_registers G _ _ _ _ H2 Hs2 _ _ _ HP E) as R2.
  pose proof (FieldAt_range _ _ _ _ H1) as Hr1.
  pose proof (FieldAt_range _ _ _ _ H2) as Hr2.
  pose proof (sVars_fields G _ _ _ _ _ E) as Hnd.
  destruct HP as [Hn _]. unfold Registered in R1, R2.
  destruct (is_time (Type_ f1)), (is_time (Type_ f2)).
  - destruct R1 as (sv1 & _ & _ & _ & [L1 _] & _ & In1 & _).
    destruct R2 as (sv2 & _ & _ & _ & [L2 _] & _ & In2 & _).
    specialize (L1 Hb1). specialize (L2 Hb2). rewrite Hname, L2 in L1.
    injection L1 as _ _ _ Hsv. subst sv2.
    pose proof (NoDup_fmap_eq after_sVar afs _ _ Hnd In1 In2 eq_refl) as Heq.
    injection Heq as Hp. congruence.
  - destruct R1 as (sv1 & Hsv1 & _ & _ & [L1 _] & _).
    destruct R2 as (_ & [L2 _] & _).
    specialize (L1 Hb1). specialize (L2 Hb2). rewrite Hname, L2 in L1.
    injection L1 as _ _ _ _ Hc. lia.
  - destruct R1 as (_ & [L1 _] & _).
    destruct R2 as (sv2 & Hsv2 & _ & _ & [L2 _] & _).
    specialize (L1 Hb1). specialize (L2 Hb2). rewrite Hname, L2 in L1.
    injection L1 as _ _ _ _ Hc. lia.
  - destruct R1 as (_ & [L1 _] & _). destruct R2 as (_ & [L2 _] & _).
    specialize (L1 Hb1). specialize (L2 Hb2). rewrite Hname, L2 in L1.
    injection L1 as _ _ _ _ Hc. lia.
Qed.

(** X17 (one flag name, two fields).  When two fields that the
    traversal processes bind a flag under the same name, [parse] fails,
    and so does [RegisterFlags]: the flag set refuses the second
    registration; this holds for every kind that binds a flag,
    [time.Time] included.  Slice fields bind a flag also without a [flag] tag,
    under the empty name, so a struct can hold at most one processed
    slice field without the tag. *)
Theorem duplicate_flag_names_fail G fields b path1 path2 f1 p1 f2 p2 args st0 :
  field_at fields b path1 = Some (f1, p1) ->
  field_at fields b path2 = Some (f2, p2) ->
  p1 <> p2 ->
  flag_bound f1 = true -> flag_bound f2 = true ->
  skipped f1 = false -> skipped f2 = false ->
  flag_name_of f1 = flag_name_of f2 ->
  (b + fields_size fields <= next st0)%nat ->
  is_err (snd (parse G (Pointer (TStruct fields) b) args st0)) = true /\
  ((forall g, g ∈ flagset st0 ->
      (flag_ptr g < next st0)%nat /\ ~ (b <= flag_ptr g < b + fields_size fields)%nat) ->
   is_err (snd (RegisterFlags G (Pointer (TStruct fields) b) st0)) = true) /\
  (forall f el, Type_ f = TSlice el -> tag_flag (Tag f) = "" -> flag_name_of f = "").
Proof.
  intros H1 H2 Hne Hb1 Hb2 Hs1 Hs2 Hname Hn.
  apply field_at_FieldAt in H1. apply field_at_FieldAt in H2.
  split_and!.
  - destruct (snd (parse G (Pointer (TStruct fields) b) args st0)) as [e|[]] eqn:Er;
      [reflexivity|].
    apply parse_run in Er. apply parse_ok in Er as (st1 & afs & st2 & E1 & _).
    exfalso. exact (same_name_collides G _ _ _ _ _ _ _ _ _ H1 H2 Hne Hb1 Hb2 Hs1 Hs2 Hname
                      (Pre_fresh _ _ (heap st0) _ Hn) E1).
  - intros Hpre. rewrite RegisterFlags_fields.
    destruct (for_fields (exec_body G) fields b st0) as [s1 [e|afs]] eqn:E; [reflexivity|].
    exfalso. exact (same_name_collides G _ _ _ _ _ _ _ _ _ H1 H2 Hne Hb1 Hb2 Hs1 Hs2 Hname
                      (conj Hn Hpre) E).
  - intros f el _ Htag. unfold flag_name_of, flag_parts. rewrite Htag. reflexivity.
Qed.

End FlagNames.


Section TwoPhaseErrors.

Context `{FV : FlagValues}.





End TwoPhaseErrors.


(** * The properties on the small runtime *)

Import Ref.

Lemma four_tier_precedence_witness :
  heap (fst (parse Demo.globals Demo.config [("name", "from-flag")] Demo.fresh)) !! 0%nat
  = Some (VString "from-flag") /\
  heap (fst (parse Demo.globals Demo.config [] Demo.fresh)) !! 0%nat
  = Some (VString "from-env") /\
  heap (fst (parse Demo.globals Demo.config [] Demo.fresh)) !! 1%nat
  = Some (VInt 8080).
Proof.
  split_and!.
  - destruct (four_tier_precedence Demo.globals Demo.fields 0 [0%nat] Demo.name_field 0
                [("name", "from-flag")] Demo.fresh
                eq_refl ltac:(discriminate) eq_refl ltac:(discriminate)
                ltac:(discriminate) ltac:(vm_compute; lia) ltac:(vm_compute; reflexivity))
      as [Hflag _].
    destruct (Hflag "from-flag" eq_refl) as (v0 & v & _ & Hset & Hheap).
    injection Hset as <-. exact Hheap.
  - destruct (four_tier_precedence Demo.globals Demo.fields 0 [0%nat] Demo.name_field 0
                [] Demo.fresh
                eq_refl ltac:(discriminate) eq_refl ltac:(discriminate)
                ltac:(discriminate) ltac:(vm_compute; lia) ltac:(vm_compute; reflexivity))
      as (_ & Henv & _).
    exact (Henv eq_refl "from-env" eq_refl).
  - destruct (four_tier_precedence Demo.globals Demo.fields 0 [1%nat] Demo.port_field 1
                [] Demo.fresh
                eq_refl ltac:(discriminate) eq_refl ltac:(discriminate)
                ltac:(discriminate) ltac:(vm_compute; lia) ltac:(vm_compute; reflexivity))
      as (_ & _ & Hreg & _).
    exact (Hreg eq_refl eq_refl "8080" eq_refl).
Defined.

Lemma changed_flag_is_kept_witness :
  effective Demo.globals Demo.name_field = "from-env" /\
  heap (fst (ApplyEnvAndDefaults Demo.globals Demo.config Demo.parsed_outside)) !! 0%nat
  = Some (VString "from-flag") /\
  heap (fst (ApplyEnvAndDefaults Demo.globals Demo.config Demo.parsed_outside)) !! 1%nat
  = Some (VInt 8080).
Proof.
  split_and!.
  - vm_compute. reflexivity.
  - assert (Hkept : heap (fst (ApplyEnvAndDefaults Demo.globals Demo.config Demo.parsed_outside))
                      !! 0%nat = heap Demo.parsed_outside !! 0%nat).
    { refine (proj1 (changed_flag_is_kept Demo.globals Demo.fields 0 [0%nat]
                Demo.name_field 0
                (mkFlag "name" "n" "who to greet (ENV: NAME)" TString 0 true true)
                Demo.parsed_outside
                (fst (ApplyEnvAndDefaults Demo.globals Demo.config Demo.parsed_outside))
                (snd (ApplyEnvAndDefaults Demo.globals Demo.config Demo.parsed_outside))
                eq_refl _ eq_refl eq_refl _ _ _)).
      + discriminate.
      + intros g Hg Hu. unfold Demo.parsed_outside, flagset in Hg.
        apply elem_of_cons in Hg as [->|Hg]; [discriminate|].
        apply elem_of_cons in Hg as [->|Hg]; [simpl; lia|].
        now apply elem_of_nil in Hg.
      + now left.
      + apply surjective_pairing. }
    rewrite Hkept. reflexivity.
  - reflexivity.
Defined.

Lemma env_set_overrides_unset_keeps_witness :
  effective Demo.empty_env Demo.optional_field = "" /\
  effective (mkGlobals false ∅ [] ∅) Demo.optional_field = "fallback".
Proof.
  split.
  - refine (proj1 (env_set_overrides_unset_keeps Demo.empty_env Demo.optional_field _)
                  "" eq_refl).
    discriminate.
  - refine (proj2 (env_set_overrides_unset_keeps (mkGlobals false ∅ [] ∅)
                     Demo.optional_field _) eq_refl).
    discriminate.
Defined.


Lemma empty_int_slice_fails_witness :
  is_err (snd (parse Demo.globals (Pointer (TStruct [Demo.name_field; Demo.sizes_field]) 0)
                 [] Demo.fresh)) = true.
Proof.
  exact (proj1 (proj2 (empty_int_slice_fails Demo.globals
                         [Demo.name_field; Demo.sizes_field] 0 [1%nat]
                         Demo.sizes_field 1 [] Demo.fresh eq_refl eq_refl eq_refl eq_refl))).
Defined.

Lemma two_phase_rejects_empty_time_witness :
  setFieldValue Demo.globals 0 TTime "" Demo.fresh
  = (Demo.fresh, Err (ErrorString "unable to parse time: ")).
Proof.
  refine (proj2 (proj2 (two_phase_rejects_empty_time Demo.globals 0 Demo.fresh _))).
  repeat constructor.
Defined.

(** The document of the specification's example. *)
Lemma flatten_nested_example :
  map_to_list (flattenYAMLMap "" Demo.nested_doc ∅ (mkYAMLOptions false))
  = [("config.rabbitmq.port", "1234")] /\
  map_to_list (flattenYAMLMap "" Demo.mixed_case_doc ∅
                 (WithKeyToLower (mkYAMLOptions false)))
  = [("config.rabbitmq.host", "Test-Host")].
Proof. split; vm_compute; reflexivity. Qed.


Lemma document_errors_examples :
  is_err (VarDefaultsFromYAML "my_secret_value = veryverysecretkey" []) = true /\
  is_err (VarDefaultsFromYAML "- item1" []) = true /\
  is_err (VarDefaultsFromYAMLFile "/tmp/this_file_should_not_exist" []) = true /\
  map_to_list (Legacy.VarDefaultsFromYAML "- item1") = [] /\
  VarDefaultsFromYAML "" [] = Ok ∅.
Proof. split_and!; vm_compute; reflexivity. Qed.

(** ** The further properties on the small runtime *)



Lemma malformed_value_fails_parse_witness :
  is_err (snd (parse Samples.plain
                 (Pointer (TStruct [Demo.name_field; Samples.bad_port_field]) 0)
                 [("name", "x")] Demo.fresh)) = true.
Proof.
  apply (malformed_value_fails_parse Samples.plain _ 0 [1%nat] Samples.bad_port_field 1).
  - reflexivity.
  - reflexivity.
  - vm_compute. lia.
  - left. eexists. reflexivity.
Defined.

Lemma bool_field_needs_literal_true_witness :
  heap (fst (parse Samples.plain (Pointer (TStruct [Samples.debug_field]) 0) [] Demo.fresh))
    !! 0%nat = Some (VBool false) /\
  heap (fst (parse Samples.plain (Pointer (TStruct [Samples.debug_field]) 0)
               [("debug", "1")] Demo.fresh))
    !! 0%nat = Some (VBool true).
Proof.
  split.
  - refine (proj1 (bool_field_needs_literal_true Samples.plain [Samples.debug_field] 0
                     [0%nat] Samples.debug_field 0 [] Demo.fresh _ _ _ _ _) _).
    + reflexivity.
    + reflexivity.
    + reflexivity.
    + vm_compute. lia.
    + vm_compute. reflexivity.
    + right. reflexivity.
  - reflexivity.
Defined.

Lemma parse_coerces_timestamps_witness :
  heap (fst (parse Samples.plain (Pointer (TStruct [Samples.at_field]) 0) [] Demo.fresh))
    !! 0%nat = Some (VTime 1700000000%Z).
Proof.
  refine (proj1 (proj2 (parse_coerces_timestamps Samples.plain [Samples.at_field] 0
                          [0%nat] Samples.at_field 0 [] Demo.fresh "1700000000" _ _ _ _ _ _))
                1700000000%Z _ _).
  - reflexivity.
  - reflexivity.
  - reflexivity.
  - vm_compute. lia.
  - left. split; [left|]; reflexivity.
  - vm_compute. reflexivity.
  - discriminate.
  - vm_compute. reflexivity.
Defined.


Lemma unflagged_field_is_written_witness :
  heap (fst (ApplyEnvAndDefaults Samples.plain (Pointer (TStruct [Samples.note_field]) 0)
               Samples.noted)) !! 0%nat = Some (VString "").
Proof.
  refine (proj1 (proj2 (unflagged_field_is_written Samples.plain [Samples.note_field] 0
                          [0%nat] Samples.note_field 0 Samples.noted _ _ _ _)) _).
  - reflexivity.
  - reflexivity.
  - intros g Hg. now apply elem_of_nil in Hg.
  - vm_compute. reflexivity.
  - reflexivity.
Defined.

Lemma bool_flag_rejects_other_text_witness :
  is_err (snd (ApplyEnvAndDefaults Samples.plain
                 (Pointer (TStruct [Samples.verbose_field]) 0)
                 Samples.verbose_registered)) = true.
Proof.
  apply (bool_flag_rejects_other_text Samples.plain _ 0 [0%nat] Samples.verbose_field 0
           (mkFlag "verbose" "" "" TBool 0 false false)); reflexivity.
Defined.

Lemma flagged_time_field_is_never_set_witness :
  heap (fst (ApplyEnvAndDefaults Demo.globals Demo.config
               (fst (FlagSet_Parse [("since", "2024-05-06 07:08:09")]
                       (fst (RegisterFlags Demo.globals Demo.config Demo.fresh))))))
    !! 2%nat = None.
Proof.
  refine (flagged_time_field_is_never_set Demo.globals Demo.fields 0 [2%nat; 0%nat]
            Demo.since_field 2 [("since", "2024-05-06 07:08:09")] Demo.fresh _ _ _ _ _ _).
  - reflexivity.
  - reflexivity.
  - discriminate.
  - vm_compute. lia.
  - intros g Hg. now apply elem_of_nil in Hg.
  - vm_compute. reflexivity.
Defined.

Lemma two_phase_resolves_string_flags_witness :
  heap (fst (ApplyEnvAndDefaults Demo.globals Demo.config
               (fst (FlagSet_Parse [("name", "from-cli")]
                       (fst (RegisterFlags Demo.globals Demo.config Demo.fresh))))))
    !! 0%nat = Some (VString "from-cli") /\
  heap (fst (ApplyEnvAndDefaults Demo.globals Demo.config
               (fst (FlagSet_Parse []
                       (fst (RegisterFlags Demo.globals Demo.config Demo.fresh))))))
    !! 0%nat = Some (VString "from-env").
Proof.
  assert (Huniq : forall path' f' p',
            field_at Demo.fields 0 path' = Some (f', p') ->
            tag_flag (Tag f') <> "" -> flag_name_of f' = flag_name_of Demo.name_field ->
            p' = 0%nat).
  { intros path' f' p' Hf _ Hn.
    destruct path' as [|[|[|[|i]]] deeper]; cbn in Hf; try discriminate.
    all: repeat match type of Hf with
                | context [match ?d with [] => _ | _ :: _ => _ end] =>
                    is_var d; destruct d as [|[|[|?]] ?]; cbn in Hf; try discriminate
                end.
    all: injection Hf as <- <-; try reflexivity; vm_compute in Hn; discriminate. }
  split.
  - refine (proj1 (two_phase_resolves_string_flags Demo.globals Demo.fields 0 [0%nat]
                     Demo.name_field 0 [("name", "from-cli")] Demo.fresh
                     _ _ _ Huniq _ _ _ _ _) "from-cli" _).
    + reflexivity.
    + reflexivity.
    + discriminate.
    + vm_compute. lia.
    + intros g Hg. now apply elem_of_nil in Hg.
    + vm_compute. reflexivity.
    + vm_compute. reflexivity.
    + vm_compute. reflexivity.
    + reflexivity.
  - refine (proj2 (two_phase_resolves_string_flags Demo.globals Demo.fields 0 [0%nat]
                     Demo.name_field 0 [] Demo.fresh
                     _ _ _ Huniq _ _ _ _ _) _).
    + reflexivity.
    + reflexivity.
    + discriminate.
    + vm_compute. lia.
    + intros g Hg. now apply elem_of_nil in Hg.
    + vm_compute. reflexivity.
    + vm_compute. reflexivity.
    + vm_compute. reflexivity.
    + reflexivity.
Defined.

Lemma parse_spares_skipped_fields_witness :
  heap (fst (parse Demo.globals
               (Pointer (TStruct [Samples.note_field; Demo.name_field]) 0)
               [("name", "x")] Samples.noted)) !! 0%nat = Some (VString "keep me").
Proof.
  refine (proj1 (parse_spares_skipped_fields Demo.globals
                   [Samples.note_field; Demo.name_field] 0 [0%nat] Samples.note_field 0
                   [("name", "x")] Samples.noted _ _ _)).
  - reflexivity.
  - reflexivity.
  - vm_compute. lia.
Defined.

Lemma duplicate_flag_names_fail_witness :
  is_err (snd (parse Samples.plain
                 (Pointer (TStruct [Samples.hosts_field; Samples.ports_field]) 0)
                 [] Demo.fresh)) = true /\
  is_err (snd (parse Samples.plain
                 (Pointer (TStruct [Samples.from_field; Samples.until_field]) 0)
                 [] Demo.fresh)) = true.
Proof.
  split.
  - refine (proj1 (duplicate_flag_names_fail Samples.plain
                     [Samples.hosts_field; Samples.ports_field] 0 [0%nat] [1%nat]
                     Samples.hosts_field 0 Samples.ports_field 1 [] Demo.fresh
                     _ _ _ _ _ _ _ _ _)).
    all: try reflexivity; try discriminate.
    vm_compute. lia.
  - refine (proj1 (duplicate_flag_names_fail Samples.plain
                     [Samples.from_field; Samples.until_field] 0 [0%nat] [1%nat]
                     Samples.from_field 0 Samples.until_field 1 [] Demo.fresh
                     _ _ _ _ _ _ _ _ _)).
    all: try reflexivity; try discriminate.
    vm_compute. lia.
Defined.


